(** * animation-js: frame scheduling and the playback driver

    A shallow embedding of [src/index.js] (both dialects in the file carry
    the same logic) and the properties of its specification.

    Conventions of the embedding.
    - JavaScript numbers are exact rationals ([Q]); [toFixed(10)] is the
      decimal rendering of the value rounded to ten fraction digits.
    - Objects with identity (Frame instances) live in a store and are named
      by their index; closure variables of a Frame ([fun], [defer], [tick],
      [isCancel]) are the fields of its record.
    - The host scheduler ([requestAnimationFrame], or the [setTimeout]
      fallback with its constant delay) is a first-in first-out queue of
      registered callbacks; one task of the event loop is one function of
      the model, and promise reactions are jobs run when the task is over. *)

From Stdlib Require Import ZArith QArith Qround Qabs Lqa.
From stdpp Require Import base option list gmap sorting pretty strings.
From Equations Require Import Equations.

Set Default Proof Using "Type".
Local Open Scope Z_scope.
Local Open Scope nat_scope.

(** ** Values, callbacks, completions *)

Inductive Val :=
| VUndefined
| VNumber (q : Q)
| VString (s : string).

(** A caller-supplied function: a name to tell it apart and what it returns
    for the arguments it is applied to. *)
Record Fn := mkFn { fn_name : string; fn_body : list Val → Val }.

Inductive Exn :=
| TypeError
| Error (msg : string).

Inductive Completion (A : Type) :=
| Normal (a : A)
| Throw (e : Exn).
Arguments Normal {A} a.
Arguments Throw {A} e.

(** ** Number.prototype.toFixed(10) *)

Fixpoint zeros (n : nat) : string :=
  match n with
  | O => EmptyString
  | S n' => "0" +:+ zeros n'
  end.

Definition pad10 (s : string) : string := zeros (10 - String.length s) +:+ s.

(** The integer nearest to [|x| * 10^10], the larger one on a tie. *)
Definition fixed_units (x : Q) : N :=
  Z.to_N (Qfloor (Qabs x * inject_Z (10 ^ 10) + (1 # 2))).

Definition toFixed10 (x : Q) : string :=
  let n := fixed_units x in
  (if Qlt_le_dec x 0 then "-" else EmptyString)
    +:+ pretty (n / 10 ^ 10)%N +:+ "." +:+ pad10 (pretty (n mod 10 ^ 10)%N).

(** ** PromiseDefer *)

Inductive Settlement :=
| Fulfilled (v : Val)
| Rejected (r : Val).

(** The only handlers the code itself passes to [then]: the pair given in
    [request] inside [play]. *)
Inductive Reaction := RWalk.

Record Deferred := mkDeferred {
  settled : option Settlement;
  reactions : list Reaction
}.

Definition PromiseDefer : Deferred := mkDeferred None [].

(** [deferred.resolve(v)] / [deferred.reject(r)]: the first settlement wins
    and hands the registered reactions over as jobs. *)
Definition settle (o : Settlement) (d : Deferred) : Deferred * list (Reaction * Settlement) :=
  match settled d with
  | None => (mkDeferred (Some o) (reactions d), (λ r, (r, o)) <$> reactions d)
  | Some _ => (d, [])
  end.

(** [promise.then(r)]: registered while pending, a job at once when the
    promise is settled already. *)
Definition then_ (r : Reaction) (d : Deferred) : Deferred * list (Reaction * Settlement) :=
  match settled d with
  | None => (mkDeferred None (reactions d ++ [r]), [])
  | Some o => (d, [(r, o)])
  end.

(** ** Frame objects *)

Module Frame.
(** [defer] holds the deferred of the latest [request]; a deferred that
    [request] has replaced can no longer be reached from the closure and
    is kept, frozen, in [replaced] (oldest first). *)
Record t := mk {
  fun_ : Fn;
  defer : option Deferred;
  tick : option positive;
  isCancel : bool;
  replaced : list Deferred
}.

(** Number of the request cycle the current deferred belongs to. *)
Definition cycle (f : t) : nat := length (replaced f).
End Frame.

Inductive Event :=
| EvCall (f : Fn) (args : list Val)
| EvSettle (fid gen : nat) (o : Settlement)
| EvRequest (idx fid gen : nat) (args : list Val)
| EvFinish (h : nat).

Record World := mkWorld {
  frames : list Frame.t;
  rafQueue : list (positive * (nat * list Val));
  nextTick : positive;
  microtasks : list (Reaction * Settlement);
  log : list Event
}.

Definition empty_world : World := mkWorld [] [] 1%positive [] [].

Definition set_frames (g : list Frame.t → list Frame.t) (w : World) : World :=
  mkWorld (g (frames w)) (rafQueue w) (nextTick w) (microtasks w) (log w).

Definition push_jobs (js : list (Reaction * Settlement)) (w : World) : World :=
  mkWorld (frames w) (rafQueue w) (nextTick w) (microtasks w ++ js) (log w).

Definition emit (e : Event) (w : World) : World :=
  mkWorld (frames w) (rafQueue w) (nextTick w) (microtasks w) (e :: log w).

(** [requestAnimationFrame(cb)]: the callback is [(frame, args)], the tick
    closure of that frame's [request]. *)
Definition requestAnimationFrame (cb : nat * list Val) (w : World) : positive * World :=
  (nextTick w,
   mkWorld (frames w) (rafQueue w ++ [(nextTick w, cb)]) (Pos.succ (nextTick w))
     (microtasks w) (log w)).

Definition cancelAnimationFrame (tok : positive) (w : World) : World :=
  mkWorld (frames w) (filter (λ e, e.1 ≠ tok) (rafQueue w)) (nextTick w)
    (microtasks w) (log w).

(** [new Frame(fun)] *)
Definition new_Frame (fn : Fn) (w : World) : nat * World :=
  (length (frames w),
   set_frames (λ fs, fs ++ [Frame.mk fn None None false []]) w).

(** [defer && defer.resolve(..)] / [defer && defer.reject(..)] of frame [fid]. *)
Definition Frame_settle (fid : nat) (o : Settlement) (w : World) : World :=
  match frames w !! fid with
  | Some f =>
    match Frame.defer f with
    | Some d =>
      match settled d with
      | None =>
        emit (EvSettle fid (Frame.cycle f) o)
          (push_jobs (settle o d).2
             (set_frames
                <[fid := Frame.mk (Frame.fun_ f) (Some (settle o d).1) (Frame.tick f)
                           (Frame.isCancel f) (Frame.replaced f)]> w))
      | Some _ => w
      end
    | None => w
    end
  | None => w
  end.

(** [Frame.request(...args)] *)
Definition Frame_request (fid : nat) (args : list Val) (w : World) : World :=
  match frames w !! fid with
  | Some f =>
    let '(tok, w1) := requestAnimationFrame (fid, args) w in
    set_frames
      <[fid := Frame.mk (Frame.fun_ f) (Some PromiseDefer) (Some tok) false
                 (Frame.replaced f ++ option_list (Frame.defer f))]> w1
  | None => w
  end.

(** The callback [request] hands to the scheduler, run when its tick fires. *)
Definition tick_callback (fid : nat) (args : list Val) (w : World) : World :=
  match frames w !! fid with
  | Some f =>
    if Frame.isCancel f then w
    else match Frame.defer f with
         | Some _ =>
           Frame_settle fid (Fulfilled (fn_body (Frame.fun_ f) args))
             (emit (EvCall (Frame.fun_ f) args) w)
         | None => w
         end
  | None => w
  end.

(** [Frame.cancel()] *)
Definition Frame_cancel (fid : nat) (w : World) : World :=
  match frames w !! fid with
  | Some f =>
    match Frame.tick f with
    | Some tok =>
      let w1 :=
        set_frames
          <[fid := Frame.mk (Frame.fun_ f) (Frame.defer f) (Frame.tick f) true
                     (Frame.replaced f)]> w in
      Frame_settle fid (Rejected (VString "CANCEL")) (cancelAnimationFrame tok w1)
    | None => w
    end
  | None => w
  end.

(** [Frame.clone()] *)
Definition Frame_clone (fid : nat) (w : World) : option (nat * World) :=
  match frames w !! fid with
  | Some f => Some (new_Frame (Frame.fun_ f) w)
  | None => None
  end.

(** [frame.then(..)] through [PromiseMixin]: delegates to the promise of the
    latest [request]. *)
Definition Frame_then (fid : nat) (r : Reaction) (w : World) : World :=
  match frames w !! fid with
  | Some f =>
    match Frame.defer f with
    | Some d =>
      push_jobs (then_ r d).2
        (set_frames
           <[fid := Frame.mk (Frame.fun_ f) (Some (then_ r d).1) (Frame.tick f)
                      (Frame.isCancel f) (Frame.replaced f)]> w)
    | None => w
    end
  | None => w
  end.

(** The scheduler fires the oldest registered callback. *)
Definition run_tick (w : World) : World :=
  match rafQueue w with
  | [] => w
  | (_, (fid, args)) :: rest =>
    tick_callback fid args
      (mkWorld (frames w) rest (nextTick w) (microtasks w) (log w))
  end.

(** [animation.prototype.frame] and [animation.prototype.requestFrame];
    [requestFrame] is declared with the single parameter [fun], whatever
    else it is called with is in [extra]. *)
Definition frame (fn : Fn) (w : World) : nat * World := new_Frame fn w.

Definition requestFrame (fn : Fn) (extra : list Val) (w : World) : nat * World :=
  let '(fid, w1) := new_Frame fn w in
  (fid, Frame_request fid [] w1).

(** ** getFrameQueue *)

Definition FPS : Q := 60.
Definition INTERVAL : Q := 1000 / FPS.

(** What a percent key of the [frames] argument holds. *)
Inductive FrameVal :=
| VFrame (fid : nat)
| VFunction (fn : Fn).

(** The [frames] argument: one function, or an object with integer percent
    keys. *)
Inductive FramesArg :=
| FramesFunction (fn : Fn)
| FramesObject (o : gmap nat FrameVal).

(** [Object.keys(frames).map(parseInt)]: integer keys are enumerated in
    ascending order. *)
Definition Object_keys (o : gmap nat FrameVal) : list nat :=
  merge_sort Nat.le (elements (dom o)).

(** The variables the loop of [getFrameQueue] updates. *)
Record Building := mkBuilding {
  b_frameKeys : list nat;
  b_frameQueue : list nat;
  b_world : World
}.

(** [frameQueue.push(frameQueue[frameQueue.length - 1].clone())], guarded by
    [frameQueue.length]. *)
Definition push_clone (b : Building) : Building :=
  match last (b_frameQueue b) with
  | Some prev =>
    match Frame_clone prev (b_world b) with
    | Some (c, w) => mkBuilding (b_frameKeys b) (b_frameQueue b ++ [c]) w
    | None => b
    end
  | None => b
  end.

(** The body of the [for] loop at counter [i]. With no key left [key] is
    [undefined], [undefined <= percent * 100] is false and the [else]
    branch runs. Keys are taken from [Object.keys(frames)], so the lookup
    [frames[key]] always finds an entry; the [None] case is there for
    totality only and leaves the variables alone. *)
Definition loop_body (frames : gmap nat FrameVal) (framePercent : Q) (i : Z)
    (b : Building) : Building :=
  let percent := (framePercent * inject_Z i)%Q in
  match b_frameKeys b with
  | key :: rest =>
    if Qle_bool (inject_Z (Z.of_nat key)) (percent * 100)
    then
      match frames !! key with
      | Some (VFrame fid) => mkBuilding rest (b_frameQueue b ++ [fid]) (b_world b)
      | Some (VFunction fn) =>
        let '(fid, w) := new_Frame fn (b_world b) in
        mkBuilding rest (b_frameQueue b ++ [fid]) w
      | None => b
      end
    else push_clone b
  | [] => push_clone b
  end.

(** [for (var i = 0; i < frameCount; i++) { ... }] from counter [i] on. *)
Equations? for_loop (frames : gmap nat FrameVal) (frameCount framePercent : Q)
    (i : Z) (b : Building) : Building
    by wf (Z.to_nat (Qceiling frameCount - i)) lt :=
  for_loop frames frameCount framePercent i b
    with Qlt_le_dec (inject_Z i) frameCount := {
    | left _ =>
      for_loop frames frameCount framePercent (i + 1)
        (loop_body frames framePercent i b);
    | right _ => b }.
Proof.
  assert (i < Qceiling frameCount)%Z; [|lia].
  rewrite Zlt_Qlt. eapply Qlt_le_trans; [eassumption|apply Qle_ceiling].
Qed.

Definition frames_object (frames : FramesArg) : gmap nat FrameVal :=
  match frames with
  | FramesFunction fn => {[ 0 := VFunction fn ]}
  | FramesObject o => o
  end.

Definition getFrameQueue (duration : Q) (frames : FramesArg) (w : World)
    : list nat * World :=
  let frames := frames_object frames in
  let frameCount := (duration / INTERVAL)%Q in
  let framePercent := (1 / frameCount)%Q in
  let b := for_loop frames frameCount framePercent 0
             (mkBuilding (Object_keys frames) [] w) in
  (b_frameQueue b, b_world b).

(** ** getBezier *)

(** The [timingFunction] argument, by the shapes the code tells apart. *)
Inductive TimingArg :=
| TString (name : string)
| TArray (points : list Q)
| TFunction (f : Q → Q)
| TOther.

(** The export [Bezier] of amfe-cubicbezier: named curves as properties and
    the constructor from four control points. *)
Record BezierLib := mkBezierLib {
  named : string → option (Q → Q);
  cubic : Q → Q → Q → Q → Q → Q
}.

(** [Bezier] is [None] when the import is undefined. *)
Definition getBezier (Bezier : option BezierLib) (timingFunction : TimingArg)
    : Completion (option (Q → Q)) :=
  match timingFunction with
  | TString _ | TArray _ =>
    match Bezier with
    | Some _ => Normal None
    | None =>
      match timingFunction with
      | TString _ => Throw TypeError
      | TArray points =>
        if decide (length points = 4) then Throw TypeError else Normal None
      | _ => Normal None
      end
    end
  | TFunction f => Normal (Some f)
  | TOther => Normal None
  end.

(** ** The animation constructor, play and stop *)

Record Animation := mkAnimation {
  defer : option Deferred;
  frameQueue : list nat;
  framePercent : Q;
  frameIndex : nat;
  timingFunction : TimingArg;
  bezier : Q → Q;
  isPlaying : bool;
  finished : list Deferred
}.

Record Sys := mkSys { world : World; anim : Animation }.

(** [new animation(duration, timingFunction, frames)] *)
Definition animation (Bezier : option BezierLib) (duration : Q)
    (timingFunction : TimingArg) (frames : FramesArg) (w : World)
    : World * Completion Animation :=
  let '(frameQueue, w1) := getFrameQueue duration frames w in
  let framePercent := (1 / (duration / INTERVAL))%Q in
  match getBezier Bezier timingFunction with
  | Throw e => (w1, Throw e)
  | Normal None => (w1, Throw (Error "unexcept timing function"))
  | Normal (Some bezier) =>
    (w1, Normal (mkAnimation None frameQueue framePercent 0 timingFunction
                   bezier false []))
  end.

(** [timingFunction(percent)] *)
Definition call_timing (timingFunction : TimingArg) (x : Q) : Completion Q :=
  match timingFunction with
  | TFunction f => Normal (f x)
  | _ => Throw TypeError
  end.

Definition set_anim (s : Sys) (defer : option Deferred) (frameIndex : nat)
    (isPlaying : bool) (finished : list Deferred) : Animation :=
  mkAnimation defer (frameQueue (anim s)) (framePercent (anim s)) frameIndex
    (timingFunction (anim s)) (bezier (anim s)) isPlaying finished.

(** The inner function [request] of [play]. [(frameIndex + 1).toFixed(10)]
    is the numeral of [frameIndex + 1], read back as that number by the
    multiplication. *)
Definition request (s : Sys) : Completion Sys :=
  let a := anim s in
  let percent := (framePercent a * inject_Z (Z.of_nat (frameIndex a + 1)))%Q in
  match frameQueue a !! frameIndex a with
  | None => Throw TypeError
  | Some currentFrame =>
    match call_timing (timingFunction a) percent with
    | Throw e => Throw e
    | Normal eased =>
      let args := [VString (toFixed10 percent); VString (toFixed10 eased)] in
      let w1 := Frame_request currentFrame args (world s) in
      let gen := default 0 (Frame.cycle <$> frames w1 !! currentFrame) in
      let w2 := Frame_then currentFrame RWalk w1 in
      Normal (mkSys (emit (EvRequest (frameIndex a) currentFrame gen args) w2) a)
    end
  end.

(** The first handler [request] passes to [then]. An exception of the nested
    [request()] would reject the promise [then] returns and go no further. *)
Definition on_fulfilled (s : Sys) : Sys :=
  let a := anim s in
  if negb (isPlaying a) then s
  else if decide (Z.of_nat (frameIndex a) = (Z.of_nat (length (frameQueue a)) - 1)%Z)
  then
    match defer a with
    | Some d =>
      mkSys (emit (EvFinish (length (finished a))) (world s))
        (set_anim s None (frameIndex a) false
           (finished a ++ [(settle (Fulfilled (VString "FINISH")) d).1]))
    | None => mkSys (world s) (set_anim s None (frameIndex a) false (finished a))
    end
  else
    let s1 := mkSys (world s)
                (set_anim s (defer a) (frameIndex a + 1) (isPlaying a) (finished a)) in
    match request s1 with
    | Normal s2 => s2
    | Throw _ => s1
    end.

(** [animation.play()]: the state it leaves and how it completes. *)
Definition play (s : Sys) : Sys * Completion unit :=
  let a := anim s in
  if isPlaying a then (s, Normal tt)
  else
    let defer' := match defer a with
                  | None => Some PromiseDefer
                  | Some d => Some d
                  end in
    let s1 := mkSys (world s) (set_anim s defer' (frameIndex a) true (finished a)) in
    match request s1 with
    | Normal s2 => (s2, Normal tt)
    | Throw e => (s1, Throw e)
    end.

(** [animation.stop()] *)
Definition stop (s : Sys) : Sys :=
  let a := anim s in
  if negb (isPlaying a) then s
  else
    let a1 := set_anim s (defer a) (frameIndex a) false (finished a) in
    match frameQueue a !! frameIndex a with
    | Some currentFrame => mkSys (Frame_cancel currentFrame (world s)) a1
    | None => mkSys (world s) a1
    end.

(** ** Tasks of the event loop *)

Definition run_job (s : Sys) (j : Reaction * Settlement) : Sys :=
  match j with
  | (RWalk, Fulfilled _) => on_fulfilled s
  | (RWalk, Rejected _) => s
  end.

(** The jobs queued by the task that just ended, in order. *)
Definition drain (s : Sys) : Sys :=
  let w := world s in
  foldl run_job
    (mkSys (mkWorld (frames w) (rafQueue w) (nextTick w) [] (log w)) (anim s))
    (microtasks w).

Inductive Action :=
| Play
| Stop
| Tick
| UserRequest (fid : nat) (args : list Val)
| UserCancel (fid : nat).

Definition task (a : Action) (s : Sys) : Sys :=
  match a with
  | Play => (play s).1
  | Stop => stop s
  | Tick => mkSys (run_tick (world s)) (anim s)
  | UserRequest fid args => mkSys (Frame_request fid args (world s)) (anim s)
  | UserCancel fid => mkSys (Frame_cancel fid (world s)) (anim s)
  end.

Definition step (a : Action) (s : Sys) : Sys := drain (task a s).

Definition run (acts : list Action) (s : Sys) : Sys := foldl (λ s a, step a s) s acts.

(** ** The queue builder in the words of the specification

    Written after section 4.2 of the specification, to be compared with
    [getFrameQueue]: at tick [i] the percent is [(1 / frameCount) * i]; a
    pending key that is due is materialized and consumed, otherwise the last
    frame is cloned, otherwise nothing is appended. *)

Definition due (frameCount : Q) (i : Z) (key : nat) : Prop :=
  (inject_Z (Z.of_nat key) <= (1 / frameCount) * inject_Z i * 100)%Q.

(** The callback of a key as a Frame: itself when it is one already, freshly
    wrapped otherwise. *)
Definition materialize (frames : gmap nat FrameVal) (key : nat) (w : World)
    : option (nat * World) :=
  match frames !! key with
  | Some (VFrame fid) => Some (fid, w)
  | Some (VFunction fn) => Some (new_Frame fn w)
  | None => None
  end.

Inductive spec_tick (frames : gmap nat FrameVal) (frameCount : Q) (i : Z)
  : Building → Building → Prop :=
| spec_tick_key key rest q w fid w' :
    due frameCount i key →
    materialize frames key w = Some (fid, w') →
    spec_tick frames frameCount i
      (mkBuilding (key :: rest) q w) (mkBuilding rest (q ++ [fid]) w')
| spec_tick_clone keys q w prev c w' :
    (∀ key, head keys = Some key → ¬ due frameCount i key) →
    last q = Some prev →
    Frame_clone prev w = Some (c, w') →
    spec_tick frames frameCount i
      (mkBuilding keys q w) (mkBuilding keys (q ++ [c]) w')
| spec_tick_skip keys w :
    (∀ key, head keys = Some key → ¬ due frameCount i key) →
    spec_tick frames frameCount i (mkBuilding keys [] w) (mkBuilding keys [] w).


(** ** Notions used by the statements *)

(** Callbacks of frame [fid] that the scheduler still holds. *)
Definition in_flight (fid : nat) (w : World) : list (positive * (nat * list Val)) :=
  filter (λ e, e.2.1 = fid) (rafQueue w).

(** Handles [defer.resolve('FINISH')] was called on, newest first. *)
Definition finishes (l : list Event) : list nat :=
  omap (λ e, match e with EvFinish h => Some h | _ => None end) l.

(** Requests of the driver, newest first: queue index, frame, cycle. *)
Definition requests (l : list Event) : list (nat * nat * nat) :=
  omap (λ e, match e with
             | EvRequest idx fid gen _ => Some (idx, fid, gen)
             | _ => None
             end) l.

(** In [l] (newest first) the driver has requested queue index [n] and the
    future of that request has been fulfilled since. *)
Definition fulfilled_before (n : nat) (l : list Event) : Prop :=
  ∃ fid gen args v la lb lc,
    l = la ++ EvSettle fid gen (Fulfilled v) :: lb ++ EvRequest n fid gen args :: lc.

(** Every request of an index [n + 1] comes after the request of index [n]
    and the fulfilment of its future. *)
Fixpoint sequenced (l : list Event) : Prop :=
  match l with
  | [] => True
  | e :: older =>
    match e with
    | EvRequest (S n) _ _ _ => fulfilled_before n older
    | _ => True
    end ∧ sequenced older
  end.

(** ** What each operation does to the frame it is called on *)

Module FrameView.
Definition settled_with (o : Settlement) (f : Frame.t) : Frame.t :=
  Frame.mk (Frame.fun_ f) ((λ d, (settle o d).1) <$> Frame.defer f) (Frame.tick f)
    (Frame.isCancel f) (Frame.replaced f).

Definition requested (tok : positive) (f : Frame.t) : Frame.t :=
  Frame.mk (Frame.fun_ f) (Some PromiseDefer) (Some tok) false
    (Frame.replaced f ++ option_list (Frame.defer f)).

Definition cancelled (f : Frame.t) : Frame.t :=
  match Frame.tick f with
  | Some _ =>
    settled_with (Rejected (VString "CANCEL"))
      (Frame.mk (Frame.fun_ f) (Frame.defer f) (Frame.tick f) true (Frame.replaced f))
  | None => f
  end.

Definition fired (args : list Val) (f : Frame.t) : Frame.t :=
  if Frame.isCancel f then f
  else settled_with (Fulfilled (fn_body (Frame.fun_ f) args)) f.

Definition reacting (r : Reaction) (f : Frame.t) : Frame.t :=
  Frame.mk (Frame.fun_ f) ((λ d, (then_ r d).1) <$> Frame.defer f) (Frame.tick f)
    (Frame.isCancel f) (Frame.replaced f).
End FrameView.
Import FrameView.

(** Jobs and events an operation adds, from the state of its frame. *)

Definition awaiting (f : Frame.t) : bool :=
  match Frame.defer f with
  | Some d => match settled d with None => true | Some _ => false end
  | None => false
  end.

Definition pending_reactions (f : Frame.t) : list Reaction :=
  match Frame.defer f with
  | Some d => match settled d with None => reactions d | Some _ => [] end
  | None => []
  end.

Definition settle_jobs (o : Settlement) (f : Frame.t) : list (Reaction * Settlement) :=
  (λ r, (r, o)) <$> pending_reactions f.

Definition settle_events (fid : nat) (o : Settlement) (f : Frame.t) : list Event :=
  if awaiting f then [EvSettle fid (Frame.cycle f) o] else [].

Definition cancel_jobs (f : Frame.t) : list (Reaction * Settlement) :=
  match Frame.tick f with
  | Some _ => settle_jobs (Rejected (VString "CANCEL")) f
  | None => []
  end.

Definition cancel_events (fid : nat) (f : Frame.t) : list Event :=
  match Frame.tick f with
  | Some _ => settle_events fid (Rejected (VString "CANCEL")) f
  | None => []
  end.

Definition cancel_queue (f : Frame.t) (q : list (positive * (nat * list Val)))
    : list (positive * (nat * list Val)) :=
  match Frame.tick f with
  | Some tok => filter (λ e, e.1 ≠ tok) q
  | None => q
  end.

Definition fire_jobs (args : list Val) (f : Frame.t) : list (Reaction * Settlement) :=
  if Frame.isCancel f then []
  else settle_jobs (Fulfilled (fn_body (Frame.fun_ f) args)) f.

Definition fire_events (fid : nat) (args : list Val) (f : Frame.t) : list Event :=
  if Frame.isCancel f then []
  else match Frame.defer f with
       | Some _ =>
         settle_events fid (Fulfilled (fn_body (Frame.fun_ f) args)) f
           ++ [EvCall (Frame.fun_ f) args]
       | None => []
       end.

(** ** The invariant of the driver *)

(** The frame's current future is pending and carries the handlers of
    [play]. *)
Definition walking (f : Frame.t) : Prop :=
  ∃ d, Frame.defer f = Some d ∧ settled d = None ∧ reactions d = [RWalk].

(** A frame with a deferred holds a token, and nothing but [play] has
    registered handlers on it. *)
Definition shaped (f : Frame.t) : Prop :=
  ∀ d, Frame.defer f = Some d →
    is_Some (Frame.tick f) ∧ (reactions d = [] ∨ reactions d = [RWalk]).

(** Events that are not the driver's. *)
Definition quiet_event (e : Event) : Prop :=
  match e with
  | EvCall _ _ | EvSettle _ _ _ => True
  | _ => False
  end.

(** The linear percent at queue index [idx] and the arguments [request]
    passes with it. *)
Definition percent_at (a : Animation) (idx : nat) : Q :=
  (framePercent a * inject_Z (Z.of_nat (idx + 1)))%Q.

Definition args_at (a : Animation) (idx : nat) : list Val :=
  [VString (toFixed10 (percent_at a idx));
   VString (toFixed10 (bezier a (percent_at a idx)))].

(** Facts about the frames, the trace and the handle that hold at every
    point of a task. *)
Record steady (fs : list Frame.t) (l : list Event) (a : Animation) : Prop := mkSteady {
  st_timing : timingFunction a = TFunction (bezier a);
  st_shaped : ∀ fid f, fs !! fid = Some f → shaped f;
  st_seq : sequenced l;
  st_index : ∀ n, frameIndex a = S n → fulfilled_before n l;
  st_args : ∀ idx fid gen args,
      EvRequest idx fid gen args ∈ l →
      frameQueue a !! idx = Some fid ∧ args = args_at a idx;
  st_pending : ∀ d, defer a = Some d → settled d = None;
  st_finishes : finishes l = rev (seq 0 (length (finished a)));
  st_finished : ∀ d, d ∈ finished a → settled d = Some (Fulfilled (VString "FINISH"))
}.

(** Facts that hold between tasks. *)
Record invariant (s : Sys) : Prop := mkInvariant {
  inv_steady : steady (frames (world s)) (log (world s)) (anim s);
  inv_jobs : microtasks (world s) = [];
  inv_walk : ∀ fid f,
      frames (world s) !! fid = Some f → walking f →
      isPlaying (anim s) = true
      ∧ frameQueue (anim s) !! frameIndex (anim s) = Some fid
      ∧ head (requests (log (world s))) = Some (frameIndex (anim s), fid, Frame.cycle f);
  inv_current : ∀ fid,
      isPlaying (anim s) = true →
      frameQueue (anim s) !! frameIndex (anim s) = Some fid →
      ∃ gen, head (requests (log (world s))) = Some (frameIndex (anim s), fid, gen);
  inv_defer : isPlaying (anim s) = true → is_Some (defer (anim s))
}.

(** A world user code can have produced before the animation is built. *)
Record quiet (w : World) : Prop := mkQuiet {
  q_jobs : microtasks w = [];
  q_shaped : ∀ fid f, frames w !! fid = Some f → shaped f;
  q_idle : ∀ fid f, frames w !! fid = Some f → ¬ walking f;
  q_log : Forall quiet_event (log w)
}.

(** The same animation up to the fields a task may write. *)
Definition same_setup (a a' : Animation) : Prop :=
  frameQueue a' = frameQueue a ∧ framePercent a' = framePercent a
  ∧ timingFunction a' = timingFunction a ∧ bezier a' = bezier a.

(** The state with the job queue taken. *)
Definition clear_jobs (s : Sys) : Sys :=
  mkSys (mkWorld (frames (world s)) (rafQueue (world s)) (nextTick (world s)) []
           (log (world s))) (anim s).

(** No frame is awaited by the driver. *)
Definition calm (fs : list Frame.t) : Prop := ∀ fid f, fs !! fid = Some f → ¬ walking f.

(** What the loop of [getFrameQueue] keeps true of its variables. *)
Definition building_ok (o : gmap nat FrameVal) (b : Building) : Prop :=
  (∀ k, k ∈ b_frameKeys b → is_Some (o !! k))
  ∧ (∀ fid, fid ∈ b_frameQueue b → fid < length (frames (b_world b)))
  ∧ (∀ k fid, o !! k = Some (VFrame fid) → fid < length (frames (b_world b))).

(** A frame as [new Frame(fun)] leaves it. *)
Definition unrequested (f : Frame.t) : Prop :=
  Frame.defer f = None ∧ Frame.tick f = None.

(** States of one animation: built by the constructor in a world user code
    has prepared, then driven by tasks. *)
Inductive reachable (Bezier : option BezierLib) (duration : Q) (tf : TimingArg)
    (fr : FramesArg) : Sys → Prop :=
| reachable_new w w1 a :
    quiet w →
    animation Bezier duration tf fr w = (w1, Normal a) →
    reachable Bezier duration tf fr (mkSys w1 a)
| reachable_step s act :
    reachable Bezier duration tf fr s →
    reachable Bezier duration tf fr (step act s).

(** [w'] is [w] with freshly constructed frames added and nothing else
    touched. *)
Definition grown (w w' : World) : Prop :=
  ∃ fresh,
    Forall unrequested fresh
    ∧ w' = mkWorld (frames w ++ fresh) (rafQueue w) (nextTick w) (microtasks w) (log w).

(** The fields the constructor fixes. *)
Record setup (Bezier : option BezierLib) (duration : Q) (tf : TimingArg)
    (a : Animation) : Prop := mkSetup {
  su_percent : framePercent a = (1 / (duration / INTERVAL))%Q;
  su_timing : timingFunction a = tf;
  su_bezier : getBezier Bezier tf = Normal (Some (bezier a))
}.

(** Every frame of [w] is still there in [w'], with the deferreds its
    requests had replaced by then kept as they were. *)
Definition keeps_replaced (w w' : World) : Prop :=
  ∀ fid f, frames w !! fid = Some f →
    ∃ f', frames w' !! fid = Some f' ∧ Frame.replaced f `prefix_of` Frame.replaced f'.


(** ** Worlds the frame operations can produce *)

Inductive made : World → Prop :=
| made_empty : made empty_world
| made_new fn w : made w → made (new_Frame fn w).2
| made_request fid args w : made w → made (Frame_request fid args w)
| made_cancel fid w : made w → made (Frame_cancel fid w)
| made_then fid r w : made w → made (Frame_then fid r w)
| made_tick w : made w → made (run_tick w)
| made_emit e w : made w → made (emit e w).

(** Bookkeeping of tokens that every such world satisfies: the scheduler
    holds callbacks oldest first under ever larger tokens; a queued callback
    belongs to a frame whose tracked token is at least as recent; tracked
    tokens differ from frame to frame; a pending future has its token
    queued; and a frame whose tracked token has fired has no callback left
    in the queue. *)
Record tidy (w : World) : Prop := mkTidy {
  td_sorted : StronglySorted (λ e1 e2, (e1.1 < e2.1)%positive) (rafQueue w);
  td_fresh : ∀ e, e ∈ rafQueue w → (e.1 < nextTick w)%positive;
  td_owner : ∀ t fid args,
      (t, (fid, args)) ∈ rafQueue w →
      ∃ f tok, frames w !! fid = Some f ∧ Frame.tick f = Some tok ∧ (t ≤ tok)%positive;
  td_ticks : ∀ fid f tok,
      frames w !! fid = Some f → Frame.tick f = Some tok → (tok < nextTick w)%positive;
  td_unique : ∀ fid1 fid2 f1 f2 tok,
      frames w !! fid1 = Some f1 → frames w !! fid2 = Some f2 →
      Frame.tick f1 = Some tok → Frame.tick f2 = Some tok → fid1 = fid2;
  td_await : ∀ fid f,
      frames w !! fid = Some f → awaiting f = true →
      Frame.isCancel f = false
      ∧ ∃ tok args, Frame.tick f = Some tok ∧ (tok, (fid, args)) ∈ rafQueue w;
  td_gone : ∀ fid f tok,
      frames w !! fid = Some f → Frame.tick f = Some tok →
      tok ∉ (rafQueue w).*1 → Frame.isCancel f = false →
      ∀ e, e ∈ rafQueue w → e.2.1 ≠ fid
}.

(** ** A walk from start to end *)

(** Calls of wrapped functions, newest first. *)
Definition calls (l : list Event) : list (Fn * list Val) :=
  omap (λ e, match e with EvCall f args => Some (f, args) | _ => None end) l.

(** The walk is under way and the scheduler holds the tick of the frame at
    the current index, under the token the frame tracks, and nothing else. *)
Definition walk_pending (s : Sys) : Prop :=
  isPlaying (anim s) = true
  ∧ ∃ tok fid f,
      rafQueue (world s) = [(tok, (fid, args_at (anim s) (frameIndex (anim s))))]
      ∧ frameQueue (anim s) !! frameIndex (anim s) = Some fid
      ∧ frames (world s) !! fid = Some f
      ∧ Frame.tick f = Some tok
      ∧ Frame.isCancel f = false ∧ walking f.

(** Every frame of the queue is in the store. *)
Definition queue_stored (s : Sys) : Prop :=
  Forall (λ fid, fid < length (frames (world s))) (frameQueue (anim s)).

(** The wrapped function of a frame. *)
Definition fun_of (w : World) (fid : nat) : option Fn :=
  Frame.fun_ <$> frames w !! fid.

(** ** The choice of the scheduler

    The module reads eight properties of [window] once, when it is loaded:
    the request and the cancel function under the standard name and under
    the prefixes ms, webkit and moz. *)

Inductive Vendor := Standard | Ms | Webkit | Moz.

Definition rank (v : Vendor) : nat :=
  match v with Standard => 0 | Ms => 1 | Webkit => 2 | Moz => 3 end.

(** Which of the properties hold a (truthy) function. *)
Record Window := mkWindow {
  has_request : Vendor → bool;
  has_cancel : Vendor → bool
}.

Inductive RequestImpl :=
| RequestHost (v : Vendor)
| RequestTimeout.

Inductive CancelImpl :=
| CancelHost (v : Vendor)
| CancelTimeout.

(** [window.x || window.msX || window.webkitX || window.mozX || fallback] *)
Definition first_defined {A} (has : Vendor → bool) (host : Vendor → A) (fallback : A) : A :=
  if has Standard then host Standard
  else if has Ms then host Ms
  else if has Webkit then host Webkit
  else if has Moz then host Moz
  else fallback.

Definition is_request_timeout (r : RequestImpl) : bool :=
  match r with RequestTimeout => true | RequestHost _ => false end.

Definition is_cancel_timeout (c : CancelImpl) : bool :=
  match c with CancelTimeout => true | CancelHost _ => false end.

(** The pair of module variables [requestAnimationFrame] and
    [cancelAnimationFrame] after the [if] that follows their
    initialisation; [RequestTimeout] is [setTimeoutFrame] and
    [CancelTimeout] is [clearTimeoutFrame]. *)
Definition choose_scheduler (window : Window) : RequestImpl * CancelImpl :=
  let request := first_defined (has_request window) RequestHost RequestTimeout in
  let cancel := first_defined (has_cancel window) CancelHost CancelTimeout in
  if is_request_timeout request || is_cancel_timeout cancel
  then (RequestTimeout, CancelTimeout)
  else (request, cancel).

(** ** The timer fallback *)

(** Timers of the host: the clock, the next timer id, and the pending
    timers in the order they were set, each with the time it is due and
    its callback (the tick closure of a frame, as in [rafQueue]). *)
Record Timers := mkTimers {
  now : Q;
  nextId : positive;
  pending : list (positive * (Q * (nat * list Val)))
}.

Definition no_timers : Timers := mkTimers 0 1%positive [].

(** [setTimeout(cb, delay)] and [clearTimeout(id)] of the host. *)
Definition setTimeout (cb : nat * list Val) (delay : Q) (t : Timers) : positive * Timers :=
  (nextId t,
   mkTimers (now t) (Pos.succ (nextId t))
     (pending t ++ [(nextId t, ((now t + delay)%Q, cb))])).

Definition clearTimeout (id : positive) (t : Timers) : Timers :=
  mkTimers (now t) (nextId t) (filter (λ e, e.1 ≠ id) (pending t)).

Definition setTimeoutFrame (cb : nat * list Val) (t : Timers) : positive * Timers :=
  setTimeout cb INTERVAL t.

Definition clearTimeoutFrame (tick : positive) (t : Timers) : Timers :=
  clearTimeout tick t.

(** The timer the host runs next: the one due first, the one set earlier
    among timers due at the same time. *)
Fixpoint next_timer (l : list (positive * (Q * (nat * list Val))))
    : option (positive * (Q * (nat * list Val))) :=
  match l with
  | [] => None
  | e :: l' =>
    match next_timer l' with
    | None => Some e
    | Some e' => if Qle_bool e.2.1 e'.2.1 then Some e else Some e'
    end
  end.

(** The host runs the next timer: it is taken from the pending ones and the
    clock stands at its due time, or later. *)
Definition fire_timer (t : Timers) : option ((nat * list Val) * Timers) :=
  match next_timer (pending t) with
  | None => None
  | Some e =>
    Some (e.2.2,
          mkTimers (if Qle_bool (now t) e.2.1 then e.2.1 else now t) (nextId t)
            (filter (λ e', e'.1 ≠ e.1) (pending t)))
  end.

(** Time passes. *)
Definition wait (dt : Q) (t : Timers) : Timers :=
  mkTimers (now t + dt) (nextId t) (pending t).

(** Timer states of a page on which only this module sets timers. *)
Inductive scheduled : Timers → Prop :=
| scheduled_none : scheduled no_timers
| scheduled_set cb t : scheduled t → scheduled (setTimeoutFrame cb t).2
| scheduled_clear tick t : scheduled t → scheduled (clearTimeoutFrame tick t)
| scheduled_fire t cb t' : scheduled t → fire_timer t = Some (cb, t') → scheduled t'
| scheduled_wait dt t : (0 <= dt)%Q → scheduled t → scheduled (wait dt t).

(** The timers as the queue of the scheduler in [World]. *)
Definition queue_of (t : Timers) : list (positive * (nat * list Val)) :=
  (λ e, (e.1, e.2.2)) <$> pending t.

Definition with_timers (t : Timers) (w : World) : World :=
  mkWorld (frames w) (queue_of t) (nextId t) (microtasks w) (log w).

(** What every such timer state satisfies: pending timers are in the order
    they come due, carry ever larger ids, and none is due later than one
    interval from now. *)
Record punctual (t : Timers) : Prop := mkPunctual {
  pu_due : StronglySorted (λ e1 e2, (e1.2.1 <= e2.2.1)%Q) (pending t);
  pu_ids : StronglySorted (λ e1 e2, (e1.1 < e2.1)%positive) (pending t);
  pu_fresh : ∀ e, e ∈ pending t → (e.1 < nextId t)%positive;
  pu_ahead : ∀ e, e ∈ pending t → (e.2.1 <= now t + INTERVAL)%Q
}.

(** ** Reading a numeral back

    [request] multiplies [framePercent] by the string
    [(frameIndex + 1).toFixed(10)], and the frame functions are handed
    strings; a decimal numeral is read back as follows ([None]: the string
    is not of the form [digits.digits] or [digits], with or without a
    leading minus sign, the only forms [toFixed] produces). *)

Definition digit_value (c : Ascii.ascii) : option N :=
  let n := Ascii.N_of_ascii c in
  if ((48 <=? n) && (n <=? 57))%N then Some (n - 48)%N else None.

Fixpoint digits_value (acc : N) (s : string) : option N :=
  match s with
  | EmptyString => Some acc
  | String c s' =>
    match digit_value c with
    | Some d => digits_value (acc * 10 + d) s'
    | None => None
    end
  end.

(** The part before the first point, and the part after it if there is a
    point. *)
Fixpoint split_dot (s : string) : string * option string :=
  match s with
  | EmptyString => (EmptyString, None)
  | String c rest =>
    if decide (String c EmptyString = ".") then (EmptyString, Some rest)
    else (String c (split_dot rest).1, (split_dot rest).2)
  end.

Definition unsigned_value (s : string) : option Q :=
  let i := (split_dot s).1 in
  if decide (i = EmptyString) then None
  else
    match digits_value 0 i with
    | None => None
    | Some iv =>
      match (split_dot s).2 with
      | None => Some (inject_Z (Z.of_N iv))
      | Some fs =>
        match digits_value 0 fs with
        | None => None
        | Some fv =>
          Some (inject_Z (Z.of_N iv)
                + inject_Z (Z.of_N fv) / inject_Z (10 ^ Z.of_nat (String.length fs)))%Q
        end
      end
    end.

Definition ToNumber (s : string) : option Q :=
  match s with
  | EmptyString => None
  | String c rest =>
    if decide (String c EmptyString = "-") then Qopp <$> unsigned_value rest
    else unsigned_value s
  end.

(** [framePercent * (frameIndex + 1).toFixed(10)] as [request] writes it. *)
Definition percent_written (a : Animation) : option Q :=
  (λ q, framePercent a * q)%Q
    <$> ToNumber (toFixed10 (inject_Z (Z.of_nat (frameIndex a + 1)))).

(** The [k] low decimal digits of [x], leading zeros included. *)
Fixpoint digits_of (k : nat) (x : N) : string :=
  match k with
  | O => EmptyString
  | S k' => digits_of k' (x / 10)%N +:+ String (pretty_N_char (x mod 10)%N) EmptyString
  end.

(** ** Sample inputs *)

Definition f_demo : Fn := mkFn "draw" (λ args, VNumber (Z.of_nat (length args) # 1)).

Definition ease_demo : Q → Q := λ x, (x * x)%Q.

Definition lib_demo : BezierLib :=
  mkBezierLib (λ name, if decide (name = "linear") then Some (λ x, x) else None)
    (λ _ _ _ _ x, x).

(** A 50 ms animation of [f_demo]: three ticks. *)
Definition anim_demo : Animation :=
  mkAnimation None (getFrameQueue 50 (FramesFunction f_demo) empty_world).1
    (1 / (50 / INTERVAL)) 0 (TFunction ease_demo) ease_demo false [].

Definition start_demo : Sys :=
  mkSys (getFrameQueue 50 (FramesFunction f_demo) empty_world).2 anim_demo.

(** ** Frame objects: request, cancel, tick *)

Lemma World_eta w :
  mkWorld (frames w) (rafQueue w) (nextTick w) (microtasks w) (log w) = w.
Proof. by destruct w. Qed.

Section FrameOps.
Context (w : World) (fid : nat) (f : Frame.t).
Hypothesis Hf : frames w !! fid = Some f.

Lemma fid_lt : fid < length (frames w).
Proof using Hf. by eapply lookup_lt_Some. Qed.

Lemma Frame_request_unfold args :
  Frame_request fid args w =
  mkWorld
    (<[fid := Frame.mk (Frame.fun_ f) (Some PromiseDefer) (Some (nextTick w)) false
                (Frame.replaced f ++ option_list (Frame.defer f))]> (frames w))
    (rafQueue w ++ [(nextTick w, (fid, args))]) (Pos.succ (nextTick w))
    (microtasks w) (log w).
Proof using Hf. unfold Frame_request. by rewrite Hf. Qed.

Lemma Frame_cancel_unfold tok :
  Frame.tick f = Some tok →
  Frame_cancel fid w =
  Frame_settle fid (Rejected (VString "CANCEL"))
    (mkWorld
       (<[fid := Frame.mk (Frame.fun_ f) (Frame.defer f) (Some tok) true
                   (Frame.replaced f)]> (frames w))
       (filter (λ e, e.1 ≠ tok) (rafQueue w)) (nextTick w) (microtasks w) (log w)).
Proof using Hf. intros Ht. unfold Frame_cancel. by rewrite Hf, Ht. Qed.
End FrameOps.

Lemma filter_tokens_id (tok : positive) (q : list (positive * (nat * list Val))) :
  tok ∉ q.*1 → filter (λ e, e.1 ≠ tok) q = q.
Proof.
  induction q as [|e q IH]; [done|]; intros Hn.
  rewrite filter_cons. rewrite decide_True.
  - f_equal. apply IH. intros ?. apply Hn. by right.
  - intros He. apply Hn. rewrite fmap_cons, He. by left.
Qed.

Lemma filter_tokens_gone (tok : positive) (q : list (positive * (nat * list Val))) :
  tok ∉ (filter (λ e, e.1 ≠ tok) q).*1.
Proof.
  intros [e [-> He]]%list_elem_of_fmap. by apply list_elem_of_filter in He as [? _].
Qed.

Lemma filter_tokens_idemp (tok : positive) (q : list (positive * (nat * list Val))) :
  filter (λ e, e.1 ≠ tok) (filter (λ e, e.1 ≠ tok) q) = filter (λ e, e.1 ≠ tok) q.
Proof. apply filter_tokens_id, filter_tokens_gone. Qed.

Lemma Frame_settle_pending w fid f d o :
  frames w !! fid = Some f → Frame.defer f = Some d → settled d = None →
  Frame_settle fid o w =
  mkWorld
    (<[fid := Frame.mk (Frame.fun_ f) (Some (mkDeferred (Some o) (reactions d)))
                (Frame.tick f) (Frame.isCancel f) (Frame.replaced f)]> (frames w))
    (rafQueue w) (nextTick w) (microtasks w ++ ((λ r, (r, o)) <$> reactions d))
    (EvSettle fid (Frame.cycle f) o :: log w).
Proof.
  intros Hf Hd Hs. unfold Frame_settle, settle. by rewrite Hf, Hd, Hs.
Qed.

Lemma Frame_settle_idle w fid f o :
  frames w !! fid = Some f →
  (∀ d, Frame.defer f = Some d → settled d ≠ None) →
  Frame_settle fid o w = w.
Proof.
  intros Hf Hd. unfold Frame_settle. rewrite Hf.
  destruct (Frame.defer f) as [d|] eqn:E; [|done].
  specialize (Hd d eq_refl). by destruct (settled d).
Qed.

Lemma Frame_settle_missing w fid o :
  frames w !! fid = None → Frame_settle fid o w = w.
Proof. intros Hf. unfold Frame_settle. by rewrite Hf. Qed.

Lemma tick_callback_cancelled w fid f args :
  frames w !! fid = Some f → Frame.isCancel f = true →
  tick_callback fid args w = w.
Proof. intros Hf Hc. unfold tick_callback. by rewrite Hf, Hc. Qed.

Lemma tick_callback_pending w fid f d args :
  frames w !! fid = Some f → Frame.isCancel f = false →
  Frame.defer f = Some d → settled d = None →
  tick_callback fid args w =
  mkWorld
    (<[fid := Frame.mk (Frame.fun_ f)
                (Some (mkDeferred (Some (Fulfilled (fn_body (Frame.fun_ f) args)))
                         (reactions d)))
                (Frame.tick f) false (Frame.replaced f)]> (frames w))
    (rafQueue w) (nextTick w)
    (microtasks w ++ ((λ r, (r, Fulfilled (fn_body (Frame.fun_ f) args))) <$> reactions d))
    (EvSettle fid (Frame.cycle f) (Fulfilled (fn_body (Frame.fun_ f) args))
       :: EvCall (Frame.fun_ f) args :: log w).
Proof.
  intros Hf Hc Hd Hs. unfold tick_callback. rewrite Hf, Hc, Hd.
  erewrite Frame_settle_pending; [|exact Hf|exact Hd|exact Hs].
  by rewrite <- Hc.
Qed.

(** The state [cancel] leaves when the frame holds a token. *)
Lemma Frame_cancel_frame w fid f tok :
  frames w !! fid = Some f → Frame.tick f = Some tok →
  frames (Frame_cancel fid w) !! fid =
  Some (Frame.mk (Frame.fun_ f)
          (match Frame.defer f with
           | Some d => Some (settle (Rejected (VString "CANCEL")) d).1
           | None => None
           end)
          (Some tok) true (Frame.replaced f))
  ∧ rafQueue (Frame_cancel fid w) = filter (λ e, e.1 ≠ tok) (rafQueue w)
  ∧ ∀ fid', fid' ≠ fid → frames (Frame_cancel fid w) !! fid' = frames w !! fid'.
Proof.
  intros Hf Ht. pose proof (fid_lt _ _ _ Hf) as Hlt.
  rewrite (Frame_cancel_unfold _ _ _ Hf _ Ht).
  set (f1 := Frame.mk _ _ _ _ _). set (w1 := mkWorld _ _ _ _ _).
  assert (H1 : frames w1 !! fid = Some f1) by by apply list_lookup_insert_eq.
  destruct (Frame.defer f) as [d|] eqn:Ed.
  - destruct (settled d) as [o|] eqn:Es.
    + rewrite (Frame_settle_idle _ _ _ _ H1).
      * unfold settle. rewrite Es. split_and!; [done|done|].
        intros fid' Hne. by apply list_lookup_insert_ne.
      * simpl. intros d' [= <-]. by rewrite Es.
    + rewrite (Frame_settle_pending _ _ _ d _ H1 eq_refl Es). simpl.
      rewrite list_insert_insert_eq. unfold settle. rewrite Es. split_and!.
      * by apply list_lookup_insert_eq.
      * done.
      * intros fid' Hne. by apply list_lookup_insert_ne.
  - rewrite (Frame_settle_idle _ _ _ _ H1); [|done]. split_and!; [done|done|].
    intros fid' Hne. by apply list_lookup_insert_ne.
Qed.

(** Cancelling a frame whose token is gone and whose deferred is settled
    changes nothing but the flag. *)
Lemma Frame_cancel_settled w fid f tok :
  frames w !! fid = Some f → Frame.tick f = Some tok →
  tok ∉ (rafQueue w).*1 →
  (∀ d, Frame.defer f = Some d → settled d ≠ None) →
  Frame_cancel fid w =
  set_frames
    <[fid := Frame.mk (Frame.fun_ f) (Frame.defer f) (Frame.tick f) true
               (Frame.replaced f)]> w.
Proof.
  intros Hf Ht Hq Hd. pose proof (fid_lt _ _ _ Hf) as Hlt.
  rewrite (Frame_cancel_unfold _ _ _ Hf _ Ht), (filter_tokens_id _ _ Hq).
  erewrite Frame_settle_idle.
  - unfold set_frames. by rewrite Ht.
  - simpl. by apply list_lookup_insert_eq.
  - done.
Qed.

Lemma Frame_cancel_idemp w fid :
  Frame_cancel fid (Frame_cancel fid w) = Frame_cancel fid w.
Proof.
  destruct (frames w !! fid) as [f|] eqn:Hf; [|unfold Frame_cancel at 2; by rewrite Hf].
  destruct (Frame.tick f) as [tok|] eqn:Ht;
    [|unfold Frame_cancel at 2; by rewrite Hf, Ht].
  destruct (Frame_cancel_frame _ _ _ _ Hf Ht) as (Hf1 & Hq & _).
  rewrite (Frame_cancel_settled (Frame_cancel fid w) fid _ tok Hf1 eq_refl).
  - unfold set_frames. rewrite list_insert_id by exact Hf1. apply World_eta.
  - rewrite Hq. apply filter_tokens_gone.
  - simpl. destruct (Frame.defer f) as [d|]; [|done].
    intros d' [= <-]. unfold settle. destruct (settled d) eqn:Es; simpl; congruence.
Qed.

(** requestFrame *)
(** C9 (as amended). [requestFrame(fn)] constructs a frame and requests it
    with no arguments, whatever else it was called with: one callback is
    registered, and when it fires [fn] is called once, with no arguments,
    and the future is fulfilled with what [fn] returns. *)
Theorem requestFrame_spec (w : World) (fn : Fn) (extra : list Val) :
  let fid := (requestFrame fn extra w).1 in
  let w1 := (requestFrame fn extra w).2 in
  fid = length (frames w)
  ∧ rafQueue w1 = rafQueue w ++ [(nextTick w, (fid, []))]
  ∧ frames w1 !! fid = Some (Frame.mk fn (Some PromiseDefer) (Some (nextTick w)) false [])
  ∧ tick_callback fid [] w1 =
      mkWorld
        (<[fid := Frame.mk fn (Some (mkDeferred (Some (Fulfilled (fn_body fn []))) []))
                    (Some (nextTick w)) false []]> (frames w1))
        (rafQueue w1) (nextTick w1) (microtasks w)
        (EvSettle fid 0 (Fulfilled (fn_body fn [])) :: EvCall fn [] :: log w)
  ∧ (rafQueue w = [] →
       rafQueue (run_tick w1) = []
       ∧ log (run_tick w1) =
           EvSettle fid 0 (Fulfilled (fn_body fn [])) :: EvCall fn [] :: log w).
Proof.
  intros fid w1. subst fid w1. unfold requestFrame, new_Frame. simpl.
  set (w0 := set_frames _ w).
  assert (H0 : frames w0 !! length (frames w) = Some (Frame.mk fn None None false [])).
  { simpl. by rewrite lookup_app_r, Nat.sub_diag. }
  rewrite (Frame_request_unfold _ _ _ H0). simpl.
  assert (Hlt : length (frames w) < length (frames w ++ [Frame.mk fn None None false []])).
  { rewrite length_app. simpl. lia. }
  assert (Htc : ∀ q,
    tick_callback (length (frames w)) []
      (mkWorld (<[length (frames w) := Frame.mk fn (Some PromiseDefer) (Some (nextTick w))
                   false []]> (frames w ++ [Frame.mk fn None None false []]))
         q (Pos.succ (nextTick w)) (microtasks w) (log w)) =
    mkWorld
      (<[length (frames w) := Frame.mk fn (Some (mkDeferred (Some (Fulfilled (fn_body fn []))) []))
                  (Some (nextTick w)) false []]>
         (<[length (frames w) := Frame.mk fn (Some PromiseDefer) (Some (nextTick w)) false []]>
            (frames w ++ [Frame.mk fn None None false []])))
      q (Pos.succ (nextTick w)) (microtasks w)
      (EvSettle (length (frames w)) 0 (Fulfilled (fn_body fn [])) :: EvCall fn [] :: log w)).
  { intros q.
    rewrite (tick_callback_pending _ _
               (Frame.mk fn (Some PromiseDefer) (Some (nextTick w)) false [])
               PromiseDefer); simpl; [|by apply list_lookup_insert_eq|done..].
    by rewrite app_nil_r. }
  split_and!; [done|done| |apply Htc|].
  - by apply list_lookup_insert_eq.
  - intros ->. unfold run_tick. simpl. by rewrite Htc.
Qed.

(** ** getFrameQueue *)

Lemma Object_keys_elem (o : gmap nat FrameVal) (k : nat) :
  k ∈ Object_keys o ↔ is_Some (o !! k).
Proof.
  unfold Object_keys. rewrite merge_sort_Permutation, elem_of_elements.
  apply elem_of_dom.
Qed.


Lemma due_dec frameCount i key :
  Qle_bool (inject_Z (Z.of_nat key)) ((1 / frameCount) * inject_Z i * 100) = true
  ↔ due frameCount i key.
Proof. apply Qle_bool_iff. Qed.

Section Builder.
Context (o : gmap nat FrameVal) (frameCount : Q).

Lemma push_clone_spec i b :
  building_ok o b →
  (∀ key, head (b_frameKeys b) = Some key → ¬ due frameCount i key) →
  spec_tick o frameCount i b (push_clone b) ∧ building_ok o (push_clone b).
Proof.
  intros (Hk & Hq & Hv) Hnd. destruct b as [keys q w]. unfold push_clone. simpl in *.
  destruct (last q) as [prev|] eqn:El.
  - assert (Hp : prev < length (frames w)).
    { apply Hq. apply last_Some in El as [q' ->]. set_solver. }
    apply lookup_lt_is_Some_2 in Hp as [f Hf].
    unfold Frame_clone. rewrite Hf. simpl. split.
    + eapply spec_tick_clone; [done|done|]. unfold Frame_clone. by rewrite Hf.
    + split_and!; simpl; [done| |].
      * intros fid [Hin| ->%list_elem_of_singleton]%elem_of_app; rewrite length_app; simpl.
        -- specialize (Hq _ Hin). lia.
        -- lia.
      * intros k fid Hl. rewrite length_app. specialize (Hv _ _ Hl). lia.
  - apply last_None in El as ->. split; [by constructor|done].
Qed.

Lemma loop_body_spec i b :
  building_ok o b →
  spec_tick o frameCount i b (loop_body o (1 / frameCount) i b)
  ∧ building_ok o (loop_body o (1 / frameCount) i b).
Proof.
  intros Hok. unfold loop_body.
  destruct (b_frameKeys b) as [|key rest] eqn:Ek.
  { apply push_clone_spec; [done|]. rewrite Ek. naive_solver. }
  destruct (Qle_bool _ _) eqn:Ed.
  - apply due_dec in Ed. destruct Hok as (Hk & Hq & Hv).
    destruct b as [keys q w]. simpl in *. subst keys.
    destruct (Hk key) as [v Hv']; [set_solver|]. rewrite Hv'.
    assert (Hk' : ∀ k, k ∈ rest → is_Some (o !! k)) by (intros; apply Hk; set_solver).
    destruct v as [fid|fn]; simpl.
    + split.
      * eapply spec_tick_key; [done|]. unfold materialize. by rewrite Hv'.
      * split_and!; simpl; [done| |done].
        intros fid' [Hin| ->%list_elem_of_singleton]%elem_of_app; eauto.
    + split.
      * eapply spec_tick_key; [done|]. unfold materialize. by rewrite Hv'.
      * split_and!; simpl; [done| |].
        -- intros fid' [Hin| ->%list_elem_of_singleton]%elem_of_app;
             rewrite length_app; simpl; [specialize (Hq _ Hin)|]; lia.
        -- intros k fid Hl. rewrite length_app. specialize (Hv _ _ Hl). lia.
  - apply push_clone_spec; [done|]. rewrite Ek. simpl. intros key' [= <-] Hd.
    apply due_dec in Hd. congruence.
Qed.

End Builder.





(** The builder only constructs frames. *)

Lemma grown_refl w : grown w w.
Proof. exists []. split; [done|]. rewrite app_nil_r. by destruct w. Qed.

Lemma grown_trans w1 w2 w3 : grown w1 w2 → grown w2 w3 → grown w1 w3.
Proof.
  intros (f1 & H1 & ->) (f2 & H2 & ->). exists (f1 ++ f2). split.
  - by apply Forall_app.
  - simpl. by rewrite app_assoc.
Qed.

Lemma grown_new_Frame fn w : grown w (new_Frame fn w).2.
Proof. exists [Frame.mk fn None None false []]. split; [|done]. by repeat constructor. Qed.

Lemma grown_push_clone b : grown (b_world b) (b_world (push_clone b)).
Proof.
  unfold push_clone. destruct (last (b_frameQueue b)); [|apply grown_refl].
  unfold Frame_clone. destruct (frames (b_world b) !! n); [|apply grown_refl].
  apply grown_new_Frame.
Qed.

Lemma grown_loop_body o framePercent i b :
  grown (b_world b) (b_world (loop_body o framePercent i b)).
Proof.
  unfold loop_body. destruct (b_frameKeys b) as [|key rest]; [apply grown_push_clone|].
  destruct (Qle_bool _ _); [|apply grown_push_clone].
  destruct (o !! key) as [[fid|fn]|]; simpl; [apply grown_refl| |apply grown_refl].
  apply grown_new_Frame.
Qed.

Lemma grown_for_loop o frameCount framePercent i b :
  grown (b_world b) (b_world (for_loop o frameCount framePercent i b)).
Proof.
  funelim (for_loop o frameCount framePercent i b); [|apply grown_refl].
  eapply grown_trans; [apply grown_loop_body|done].
Qed.

Lemma grown_getFrameQueue duration fr w : grown w (getFrameQueue duration fr w).2.
Proof. unfold getFrameQueue. simpl. apply (grown_for_loop _ _ _ _ (mkBuilding _ _ w)). Qed.

Lemma grown_lookup w w' fid f :
  grown w w' → frames w' !! fid = Some f → frames w !! fid = Some f ∨ unrequested f.
Proof.
  intros (fresh & Hfr & ->). simpl. intros [?|[_ Hin]]%lookup_app_Some; [by left|right].
  rewrite Forall_forall in Hfr. apply Hfr. by eapply list_elem_of_lookup_2.
Qed.

(** ** What each operation does to the frame it is called on *)

Lemma Frame_eta f :
  Frame.mk (Frame.fun_ f) (Frame.defer f) (Frame.tick f) (Frame.isCancel f)
    (Frame.replaced f) = f.
Proof. by destruct f. Qed.

Lemma alter_insert_lookup {A} (g : A → A) (l : list A) i x :
  l !! i = Some x → <[i := g x]> l = alter g i l.
Proof.
  intros H. apply list_eq. intros j. destruct (decide (j = i)) as [->|Hne].
  - rewrite list_lookup_insert_eq by by eapply lookup_lt_Some.
    by rewrite list_lookup_alter_eq, H.
  - rewrite list_lookup_insert_ne by done. by rewrite list_lookup_alter_ne.
Qed.

Lemma alter_fixed {A} (g : A → A) (l : list A) i :
  (∀ x, l !! i = Some x → g x = x) → alter g i l = l.
Proof.
  intros H. apply list_eq. intros j. destruct (decide (j = i)) as [->|Hne].
  - rewrite list_lookup_alter_eq. destruct (l !! i) eqn:E; [|done]. simpl. by rewrite H.
  - by rewrite list_lookup_alter_ne.
Qed.

Lemma Frame_settle_frames fid o w :
  frames (Frame_settle fid o w) = alter (settled_with o) fid (frames w).
Proof.
  unfold Frame_settle.
  destruct (frames w !! fid) as [f|] eqn:Hf; [|by rewrite alter_fixed by congruence].
  destruct (Frame.defer f) as [d|] eqn:Hd.
  - destruct (settled d) eqn:Hs.
    + rewrite alter_fixed; [done|]. intros x. rewrite Hf. intros [= <-].
      unfold settled_with, settle. rewrite Hd. simpl. rewrite Hs. simpl.
      rewrite <- Hd. apply Frame_eta.
    + simpl. rewrite <- (alter_insert_lookup _ _ _ _ Hf).
      unfold settled_with. by rewrite Hd.
  - rewrite alter_fixed; [done|]. intros x. rewrite Hf. intros [= <-].
    unfold settled_with. rewrite Hd. simpl. rewrite <- Hd. apply Frame_eta.
Qed.

Lemma Frame_request_frames fid args w :
  frames (Frame_request fid args w) = alter (requested (nextTick w)) fid (frames w).
Proof.
  unfold Frame_request.
  destruct (frames w !! fid) as [f|] eqn:Hf; [|by rewrite alter_fixed by congruence].
  simpl. by rewrite <- (alter_insert_lookup _ _ _ _ Hf).
Qed.

Lemma Frame_cancel_frames fid w :
  frames (Frame_cancel fid w) = alter cancelled fid (frames w).
Proof.
  unfold Frame_cancel.
  destruct (frames w !! fid) as [f|] eqn:Hf; [|by rewrite alter_fixed by congruence].
  destruct (Frame.tick f) as [tok|] eqn:Ht.
  - rewrite Frame_settle_frames. unfold cancelAnimationFrame, set_frames. cbn [frames].
    rewrite (alter_insert_lookup (λ f, Frame.mk (Frame.fun_ f) (Frame.defer f)
               (Some tok) true (Frame.replaced f)) _ _ _ Hf).
    rewrite list_alter_alter_eq. apply list_alter_ext; [|done].
    intros x. rewrite Hf. intros [= <-]. simpl. unfold cancelled. by rewrite Ht.
  - rewrite alter_fixed; [done|]. intros x. rewrite Hf. intros [= <-].
    unfold cancelled. by rewrite Ht.
Qed.

Lemma tick_callback_frames fid args w :
  frames (tick_callback fid args w) = alter (fired args) fid (frames w).
Proof.
  unfold tick_callback.
  destruct (frames w !! fid) as [f|] eqn:Hf; [|by rewrite alter_fixed by congruence].
  destruct (Frame.isCancel f) eqn:Hc.
  { rewrite alter_fixed; [done|]. intros x. rewrite Hf. intros [= <-].
    unfold fired. by rewrite Hc. }
  destruct (Frame.defer f) as [d|] eqn:Hd.
  - rewrite Frame_settle_frames. simpl. apply list_alter_ext; [|done].
    intros x. rewrite Hf. intros [= <-]. unfold fired. by rewrite Hc.
  - rewrite alter_fixed; [done|]. intros x. rewrite Hf. intros [= <-].
    unfold fired, settled_with. rewrite Hc, Hd. simpl. rewrite <- Hd, <- Hc.
    apply Frame_eta.
Qed.

Lemma Frame_then_frames fid r w :
  frames (Frame_then fid r w) = alter (reacting r) fid (frames w).
Proof.
  unfold Frame_then.
  destruct (frames w !! fid) as [f|] eqn:Hf; [|by rewrite alter_fixed by congruence].
  destruct (Frame.defer f) as [d|] eqn:Hd.
  - simpl. rewrite <- (alter_insert_lookup _ _ _ _ Hf). unfold reacting. by rewrite Hd.
  - rewrite alter_fixed; [done|]. intros x. rewrite Hf. intros [= <-].
    unfold reacting. rewrite Hd. simpl. rewrite <- Hd. apply Frame_eta.
Qed.

Lemma lookup_alter_Some {A} (g : A → A) (l : list A) (i j : nat) (y : A) :
  alter g i l !! j = Some y →
  (j = i ∧ ∃ x, l !! i = Some x ∧ y = g x) ∨ (j ≠ i ∧ l !! j = Some y).
Proof.
  destruct (decide (j = i)) as [->|Hne].
  - rewrite list_lookup_alter_eq. destruct (l !! i) as [x|]; [|done].
    intros [= <-]. left. eauto.
  - rewrite list_lookup_alter_ne by done. eauto.
Qed.

(** The other fields of the world after each operation. *)

Lemma Frame_settle_world fid o w f :
  frames w !! fid = Some f →
  Frame_settle fid o w =
  mkWorld (alter (settled_with o) fid (frames w)) (rafQueue w) (nextTick w)
    (microtasks w ++ settle_jobs o f) (settle_events fid o f ++ log w).
Proof.
  intros Hf. rewrite <- Frame_settle_frames.
  unfold Frame_settle, settle_jobs, settle_events, pending_reactions, awaiting, settle.
  rewrite Hf. destruct (Frame.defer f) as [d|]; [destruct (settled d)|]; simpl;
    rewrite ?app_nil_r; try done; by rewrite World_eta.
Qed.

Lemma Frame_request_world fid args w f :
  frames w !! fid = Some f →
  Frame_request fid args w =
  mkWorld (alter (requested (nextTick w)) fid (frames w))
    (rafQueue w ++ [(nextTick w, (fid, args))]) (Pos.succ (nextTick w))
    (microtasks w) (log w).
Proof.
  intros Hf. rewrite <- (Frame_request_frames fid args).
  unfold Frame_request. by rewrite Hf.
Qed.

Lemma Frame_request_missing fid args w :
  frames w !! fid = None → Frame_request fid args w = w.
Proof. intros Hf. unfold Frame_request. by rewrite Hf. Qed.

Lemma Frame_then_missing fid r w :
  frames w !! fid = None → Frame_then fid r w = w.
Proof. intros Hf. unfold Frame_then. by rewrite Hf. Qed.

Lemma Frame_cancel_missing fid w :
  frames w !! fid = None → Frame_cancel fid w = w.
Proof. intros Hf. unfold Frame_cancel. by rewrite Hf. Qed.

(** [frame.request(args).then(r)] *)
Lemma Frame_request_then_world fid args r w f :
  frames w !! fid = Some f →
  Frame_then fid r (Frame_request fid args w) =
  mkWorld (alter (reacting r ∘ requested (nextTick w)) fid (frames w))
    (rafQueue w ++ [(nextTick w, (fid, args))]) (Pos.succ (nextTick w))
    (microtasks w) (log w).
Proof.
  intros Hf. pose proof (lookup_lt_Some _ _ _ Hf) as Hlt.
  rewrite (Frame_request_world _ _ _ _ Hf). rewrite <- list_alter_alter_eq.
  set (w1 := mkWorld _ _ _ _ _).
  change (alter (requested (nextTick w)) fid (frames w)) with (frames w1).
  rewrite <- Frame_then_frames. unfold Frame_then.
  assert (H1 : frames w1 !! fid = Some (requested (nextTick w) f)).
  { subst w1. cbn [frames]. by rewrite list_lookup_alter_eq, Hf. }
  rewrite H1. cbn [Frame.defer requested then_ settled PromiseDefer snd].
  unfold push_jobs, set_frames. subst w1. cbn [frames rafQueue nextTick microtasks log].
  by rewrite app_nil_r.
Qed.

Lemma Frame_cancel_world fid w f :
  frames w !! fid = Some f →
  Frame_cancel fid w =
  mkWorld (alter cancelled fid (frames w)) (cancel_queue f (rafQueue w)) (nextTick w)
    (microtasks w ++ cancel_jobs f) (cancel_events fid f ++ log w).
Proof.
  intros Hf. pose proof (lookup_lt_Some _ _ _ Hf) as Hlt.
  assert (Hfr := Frame_cancel_frames fid w). revert Hfr.
  unfold Frame_cancel, cancel_jobs, cancel_events, cancel_queue. rewrite Hf.
  destruct (Frame.tick f) as [tok|] eqn:Ht.
  - set (f1 := Frame.mk _ _ _ true _). set (w1 := cancelAnimationFrame tok _).
    assert (H1 : frames w1 !! fid = Some f1) by by apply list_lookup_insert_eq.
    rewrite (Frame_settle_world _ _ _ _ H1). cbn [frames]. by intros ->.
  - intros _. simpl. rewrite app_nil_r.
    rewrite alter_fixed; [by rewrite World_eta|].
    intros x. rewrite Hf. intros [= <-]. unfold cancelled. by rewrite Ht.
Qed.

Lemma tick_callback_world fid args w f :
  frames w !! fid = Some f →
  tick_callback fid args w =
  mkWorld (alter (fired args) fid (frames w)) (rafQueue w) (nextTick w)
    (microtasks w ++ fire_jobs args f) (fire_events fid args f ++ log w).
Proof.
  intros Hf. rewrite <- tick_callback_frames.
  unfold tick_callback, fire_jobs, fire_events. rewrite Hf.
  destruct (Frame.isCancel f).
  { simpl. rewrite app_nil_r. by rewrite World_eta. }
  destruct (Frame.defer f) as [d|] eqn:Hd.
  - erewrite Frame_settle_world; [|exact Hf]. rewrite <- Frame_settle_frames.
    cbn [rafQueue nextTick microtasks log emit]. by rewrite <- app_assoc.
  - unfold settle_jobs, pending_reactions. rewrite Hd. simpl.
    rewrite app_nil_r. by rewrite World_eta.
Qed.

Lemma tick_callback_missing fid args w :
  frames w !! fid = None → tick_callback fid args w = w.
Proof. intros Hf. unfold tick_callback. by rewrite Hf. Qed.

(** ** Frames awaited by the driver *)

Lemma shaped_requested tok f : shaped (requested tok f).
Proof. intros d [= <-]. simpl. eauto. Qed.

Lemma not_walking_requested tok f : ¬ walking (requested tok f).
Proof. intros (d & [= <-] & _ & Hr). done. Qed.

Lemma shaped_reacting_requested tok f : shaped (reacting RWalk (requested tok f)).
Proof. intros d [= <-]. simpl. eauto. Qed.

Lemma walking_reacting_requested tok f : walking (reacting RWalk (requested tok f)).
Proof. eexists. simpl. eauto. Qed.

Lemma shaped_settled_with o f : shaped f → shaped (settled_with o f).
Proof.
  intros Hs d. unfold settled_with. simpl.
  destruct (Frame.defer f) as [d0|] eqn:Hd; [|done]. simpl. intros [= <-].
  destruct (Hs d0 Hd) as [Ht Hr]. split; [done|].
  unfold settle. by destruct (settled d0).
Qed.

Lemma not_walking_settled_with o f : ¬ walking (settled_with o f).
Proof.
  intros (d & Hd & Hs & _). unfold settled_with in Hd. simpl in Hd.
  destruct (Frame.defer f) as [d0|]; [|done]. simpl in Hd. injection Hd as <-.
  unfold settle in Hs. by destruct (settled d0) eqn:E; simpl in Hs; congruence.
Qed.

Lemma shaped_cancelled f : shaped f → shaped (cancelled f).
Proof.
  intros Hs. unfold cancelled. destruct (Frame.tick f) eqn:Ht; [|done].
  apply shaped_settled_with. intros d Hd. simpl in *. destruct (Hs d Hd) as [_ Hr].
  split; [eauto|done].
Qed.

Lemma not_walking_cancelled f : shaped f → ¬ walking (cancelled f).
Proof.
  intros Hs. unfold cancelled. destruct (Frame.tick f) eqn:Ht.
  - apply not_walking_settled_with.
  - intros (d & Hd & _). destruct (Hs d Hd) as [[? Ht'] _]. congruence.
Qed.

Lemma shaped_fired args f : shaped f → shaped (fired args f).
Proof.
  intros Hs. unfold fired. destruct (Frame.isCancel f); [done|].
  by apply shaped_settled_with.
Qed.

Lemma walking_fired args f : walking (fired args f) → Frame.isCancel f = true.
Proof.
  unfold fired. destruct (Frame.isCancel f); [done|].
  intros H. by apply not_walking_settled_with in H.
Qed.

Lemma fired_cancelled args f : Frame.isCancel f = true → fired args f = f.
Proof. intros H. unfold fired. by rewrite H. Qed.

Lemma cycle_settled_with o f : Frame.cycle (settled_with o f) = Frame.cycle f.
Proof. done. Qed.

Lemma cycle_fired args f : Frame.cycle (fired args f) = Frame.cycle f.
Proof. unfold fired. by destruct (Frame.isCancel f). Qed.

Lemma cycle_cancelled f : Frame.cycle (cancelled f) = Frame.cycle f.
Proof. unfold cancelled. by destruct (Frame.tick f). Qed.

Lemma pending_reactions_shaped f :
  shaped f →
  (pending_reactions f = [] ∧ ¬ walking f)
  ∨ (pending_reactions f = [RWalk] ∧ walking f).
Proof.
  intros Hs. unfold pending_reactions, walking.
  destruct (Frame.defer f) as [d|] eqn:Hd; [|left; split; [done|]; by intros (?&?&_)].
  destruct (Hs d Hd) as [_ Hr].
  destruct (settled d) eqn:Es.
  { left. split; [done|]. intros (d' & [= <-] & ? & _). congruence. }
  destruct Hr as [Hr|Hr]; rewrite Hr.
  - left. split; [done|]. intros (d' & [= <-] & _ & ?). congruence.
  - right. split; [done|]. eauto.
Qed.

(** ** Traces *)

Lemma requests_quiet evs l : Forall quiet_event evs → requests (evs ++ l) = requests l.
Proof.
  induction 1 as [|e evs He _ IH]; [done|]. simpl. unfold requests in *. simpl.
  destruct e; simpl in *; done.
Qed.

Lemma finishes_quiet evs l : Forall quiet_event evs → finishes (evs ++ l) = finishes l.
Proof.
  induction 1 as [|e evs He _ IH]; [done|]. simpl. unfold finishes in *. simpl.
  destruct e; simpl in *; done.
Qed.

Lemma fulfilled_before_app n evs l : fulfilled_before n l → fulfilled_before n (evs ++ l).
Proof.
  intros (fid & gen & args & v & la & lb & lc & ->).
  exists fid, gen, args, v, (evs ++ la), lb, lc. by rewrite <- app_assoc.
Qed.

Lemma sequenced_quiet evs l : Forall quiet_event evs → sequenced l → sequenced (evs ++ l).
Proof.
  induction 1 as [|e evs He _ IH]; [done|]. intros Hl. simpl. split; [|by apply IH].
  by destruct e.
Qed.

Lemma elem_of_quiet_app e evs l :
  Forall quiet_event evs → ¬ quiet_event e → e ∈ evs ++ l → e ∈ l.
Proof.
  intros Hq Hn [Hin|Hin]%elem_of_app; [|done].
  rewrite Forall_forall in Hq. by apply Hq in Hin.
Qed.

Lemma settle_events_quiet fid o f : Forall quiet_event (settle_events fid o f).
Proof. unfold settle_events. destruct (awaiting f); by repeat constructor. Qed.

Lemma cancel_events_quiet fid f : Forall quiet_event (cancel_events fid f).
Proof. unfold cancel_events. destruct (Frame.tick f); [apply settle_events_quiet|done]. Qed.

Lemma fire_events_quiet fid args f : Forall quiet_event (fire_events fid args f).
Proof.
  unfold fire_events. destruct (Frame.isCancel f); [done|].
  destruct (Frame.defer f); [|done].
  apply Forall_app. split; [apply settle_events_quiet|by repeat constructor].
Qed.

Lemma head_requests_elem l idx fid gen :
  head (requests l) = Some (idx, fid, gen) →
  ∃ args lb lc, l = lb ++ EvRequest idx fid gen args :: lc.
Proof.
  intros Hh.
  assert (Hin : (idx, fid, gen) ∈ requests l).
  { destruct (requests l); [done|]. injection Hh as ->. by left. }
  apply list_elem_of_omap in Hin as (e & Hin & He).
  destruct e; try done. injection He as -> -> ->.
  apply list_elem_of_split in Hin as (lb & lc & ->). eauto.
Qed.

(** ** The invariant of the driver *)

Lemma args_at_same a a' idx : same_setup a a' → args_at a' idx = args_at a idx.
Proof. intros (_ & Hp & _ & Hb). unfold args_at, percent_at. by rewrite Hp, Hb. Qed.

(** Steady facts survive a change of one frame and quiet events. *)
Lemma steady_quiet fs l a g F evs a' :
  steady fs l a →
  (∀ f, shaped f → shaped (g f)) →
  Forall quiet_event evs →
  same_setup a a' → frameIndex a' = frameIndex a →
  finished a' = finished a →
  (∀ d, defer a' = Some d → settled d = None) →
  steady (alter g F fs) (evs ++ l) a'.
Proof.
  intros [st_timing0 st_shaped0 st_seq0 st_index0 st_args0 st_pending0 st_finishes0 st_finished0] Hg Hq (Hfq & Hfp & Htf & Hbz) Hidx Hfin Hpend.
  split.
  - by rewrite Htf, Hbz.
  - intros fid f [(-> & f0 & Hf0 & ->)|(_ & Hf)]%lookup_alter_Some; eauto.
  - by apply sequenced_quiet.
  - intros n Hn. apply fulfilled_before_app. apply st_index0. congruence.
  - intros idx fid gen args Hin. apply elem_of_quiet_app in Hin; [|done|by intros []].
    rewrite Hfq. rewrite (args_at_same a a') by done. by eapply st_args0.
  - done.
  - rewrite finishes_quiet by done. by rewrite Hfin.
  - intros d. rewrite Hfin. apply st_finished0.
Qed.

Lemma steady_same fs l a a' :
  steady fs l a →
  same_setup a a' → frameIndex a' = frameIndex a →
  finished a' = finished a →
  (∀ d, defer a' = Some d → settled d = None) →
  steady fs l a'.
Proof.
  intros Hst Hs Hi Hf Hp.
  rewrite <- (list_alter_id id fs 0) by done.
  by apply (steady_quiet fs l a id 0 [] a').
Qed.

(** *** request() *)

Lemma clear_jobs_id s : microtasks (world s) = [] → clear_jobs s = s.
Proof. destruct s as [[] ?]. simpl. by intros ->. Qed.

Lemma drain_nil s : microtasks (world s) = [] → drain s = s.
Proof. intros H. unfold drain. rewrite H. simpl. rewrite <- H. by destruct s as [[] ?]. Qed.

Lemma run_rejections s rs x : foldl run_job s ((λ r, (r, Rejected x)) <$> rs) = s.
Proof. induction rs as [|[] rs IH]; simpl; [done|apply IH]. Qed.

Lemma drain_rejections s rs x :
  microtasks (world s) = (λ r, (r, Rejected x)) <$> rs → drain s = clear_jobs s.
Proof. intros H. unfold drain. rewrite H. apply run_rejections. Qed.

Lemma drain_fulfilled s v :
  microtasks (world s) = [(RWalk, Fulfilled v)] → drain s = on_fulfilled (clear_jobs s).
Proof. intros H. unfold drain. by rewrite H. Qed.

Lemma request_Normal s F b :
  timingFunction (anim s) = TFunction b →
  frameQueue (anim s) !! frameIndex (anim s) = Some F →
  request s =
  Normal
    (mkSys
       (emit
          (EvRequest (frameIndex (anim s)) F
             (default 0 (Frame.cycle <$>
                frames (Frame_request F
                  [VString (toFixed10 (percent_at (anim s) (frameIndex (anim s))));
                   VString (toFixed10 (b (percent_at (anim s) (frameIndex (anim s)))))]
                  (world s)) !! F))
             [VString (toFixed10 (percent_at (anim s) (frameIndex (anim s))));
              VString (toFixed10 (b (percent_at (anim s) (frameIndex (anim s)))))])
          (Frame_then F RWalk
             (Frame_request F
                [VString (toFixed10 (percent_at (anim s) (frameIndex (anim s))));
                 VString (toFixed10 (b (percent_at (anim s) (frameIndex (anim s)))))]
                (world s))))
       (anim s)).
Proof. intros Ht Hq. unfold request. by rewrite Hq, Ht. Qed.

Lemma request_Throw s :
  frameQueue (anim s) !! frameIndex (anim s) = None → request s = Throw TypeError.
Proof. intros Hq. unfold request. by rewrite Hq. Qed.

(** A request issued while no frame is awaited establishes the invariant. *)
Lemma request_invariant s F :
  steady (frames (world s)) (log (world s)) (anim s) →
  microtasks (world s) = [] →
  calm (frames (world s)) →
  isPlaying (anim s) = true → is_Some (defer (anim s)) →
  frameQueue (anim s) !! frameIndex (anim s) = Some F →
  ∃ s' gen,
    request s = Normal s' ∧ invariant s' ∧ anim s' = anim s
    ∧ log (world s') =
        EvRequest (frameIndex (anim s)) F gen (args_at (anim s) (frameIndex (anim s)))
          :: log (world s).
Proof.
  intros Hst Hj Hcalm Hp Hd Hq.
  pose proof Hst as [st_timing0 st_shaped0 st_seq0 st_index0 st_args0 st_pending0 st_finishes0 st_finished0].
  rewrite (request_Normal s F _ st_timing0 Hq).
  fold (args_at (anim s) (frameIndex (anim s))).
  set (args := args_at _ _). set (w := world s) in *. set (a := anim s) in *.
  eexists _, (default 0 (Frame.cycle <$> frames (Frame_request F args w) !! F)).
  split; [reflexivity|].
  assert (Hsteady' : ∀ fs', (∀ fid f, fs' !! fid = Some f → shaped f) →
    ∀ gen, steady fs' (EvRequest (frameIndex a) F gen args :: log w) a).
  { intros fs' Hsh gen. split; try done.
    - simpl. split; [|done]. destruct (frameIndex a) eqn:E; [done|]. by apply st_index0.
    - intros n Hn. apply (fulfilled_before_app n [_]). by apply st_index0.
    - intros idx fid gen' args' [Heq|Hin]%elem_of_cons; [|by eapply st_args0].
      by injection Heq as -> -> -> ->. }
  destruct (frames w !! F) as [f|] eqn:Hf.
  - rewrite (Frame_request_then_world _ _ _ _ _ Hf).
    rewrite (Frame_request_world _ _ _ _ Hf). cbn [frames].
    rewrite list_lookup_alter_eq, Hf. simpl.
    assert (Hlk : ∀ fid f',
      alter (reacting RWalk ∘ requested (nextTick w)) F (frames w) !! fid = Some f' →
      (fid = F ∧ f' = reacting RWalk (requested (nextTick w) f))
      ∨ (fid ≠ F ∧ frames w !! fid = Some f')).
    { intros fid f' [(-> & f0 & Hf0 & ->)|?]%lookup_alter_Some; [left|by right].
      rewrite Hf in Hf0. by injection Hf0 as <-. }
    split; [|done]. split; simpl.
    + apply Hsteady'. intros fid f' [[-> ->]|[_ Hf']]%Hlk.
      * apply shaped_reacting_requested.
      * by eapply st_shaped0.
    + done.
    + intros fid f' [[-> ->]|[_ Hf']]%Hlk Hw; [done|]. by eapply Hcalm in Hw.
    + intros fid _ Hq'. rewrite Hq in Hq'. injection Hq' as <-. eauto.
    + done.
  - rewrite (Frame_request_missing _ _ _ Hf), (Frame_then_missing _ _ _ Hf).
    split; [|done]. split; simpl.
    + apply Hsteady'. apply st_shaped0.
    + done.
    + intros fid f' Hf' Hw. by eapply Hcalm in Hw.
    + intros fid _ Hq'. rewrite Hq in Hq'. injection Hq' as <-. rewrite Hf. eauto.
    + done.
Qed.

(** *** The actions *)

Lemma cancel_jobs_rejections f :
  ∃ rs, cancel_jobs f = (λ r, (r, Rejected (VString "CANCEL"))) <$> rs.
Proof.
  unfold cancel_jobs, settle_jobs. destruct (Frame.tick f); [eauto|]. by exists [].
Qed.

Lemma invariant_idle_calm s :
  invariant s → isPlaying (anim s) = false → calm (frames (world s)).
Proof.
  intros Hinv Hp fid f Hf Hw. destruct (inv_walk s Hinv fid f Hf Hw) as [Hp' _].
  congruence.
Qed.

Lemma same_setup_set_anim s d i p fin : same_setup (anim s) (set_anim s d i p fin).
Proof. done. Qed.

Lemma invariant_play s : invariant s → invariant (step Play s).
Proof.
  intros Hinv. pose proof Hinv as [Hst Hj Hw Hc Hd].
  unfold step, task, play. destruct (isPlaying (anim s)) eqn:Hp.
  { simpl. by rewrite drain_nil. }
  set (d' := match defer (anim s) with None => Some PromiseDefer | Some d => Some d end).
  set (s1 := mkSys (world s) (set_anim s d' (frameIndex (anim s)) true (finished (anim s)))).
  assert (Hst1 : steady (frames (world s1)) (log (world s1)) (anim s1)).
  { apply (steady_same _ _ (anim s)); try done.
    intros d. simpl. subst d'. destruct (defer (anim s)) as [d0|] eqn:E.
    - intros [= <-]. exact (st_pending _ _ _ Hst d0 E).
    - intros Hx. injection Hx as Hx. by rewrite <- Hx. }
  assert (Hd1 : is_Some (defer (anim s1))).
  { simpl. subst d'. destruct (defer (anim s)); eauto. }
  destruct (frameQueue (anim s) !! frameIndex (anim s)) as [F|] eqn:Hq.
  - destruct (request_invariant s1 F) as (s' & gen & Hr & Hinv' & _); try done.
    { by apply (invariant_idle_calm s). }
    rewrite Hr. simpl. rewrite drain_nil; [done|]. by apply inv_jobs.
  - rewrite request_Throw by done. simpl. rewrite drain_nil by done.
    split; try done.
    + intros fid f Hf Hwk. by eapply (invariant_idle_calm s) in Hwk.
    + simpl. intros fid _. by rewrite Hq.
Qed.

Lemma invariant_stop s : invariant s → invariant (step Stop s).
Proof.
  intros Hinv. pose proof Hinv as [Hst Hj Hw Hc Hd].
  unfold step, task, stop. destruct (isPlaying (anim s)) eqn:Hp; simpl.
  2:{ by rewrite drain_nil. }
  set (a1 := set_anim s _ _ false _).
  assert (Hst1 : ∀ g F evs, (∀ f, shaped f → shaped (g f)) → Forall quiet_event evs →
            steady (alter g F (frames (world s))) (evs ++ log (world s)) a1).
  { intros g F evs Hg Hq. apply (steady_quiet _ _ (anim s)); try done.
    apply (st_pending _ _ _ Hst). }
  destruct (frameQueue (anim s) !! frameIndex (anim s)) as [F|] eqn:Hq.
  - destruct (frames (world s) !! F) as [f|] eqn:Hf.
    + rewrite (Frame_cancel_world _ _ _ Hf).
      destruct (cancel_jobs_rejections f) as [rs Hrs].
      rewrite (drain_rejections _ rs (VString "CANCEL")) by (simpl; by rewrite Hj).
      unfold clear_jobs. simpl. split; simpl; try done.
      * apply Hst1; [apply shaped_cancelled|apply cancel_events_quiet].
      * intros fid f' [(-> & f0 & Hf0 & ->)|(Hne & Hf')]%lookup_alter_Some Hwk.
        -- exfalso. eapply not_walking_cancelled; [|done].
           by eapply (st_shaped _ _ _ Hst).
        -- exfalso. destruct (Hw fid f' Hf' Hwk) as (_ & Hq' & _). congruence.
    + rewrite (Frame_cancel_missing _ _ Hf). rewrite drain_nil by done.
      split; simpl; try done.
      * rewrite <- (list_alter_id id (frames (world s)) 0) by done.
        by apply (Hst1 id 0 []).
      * intros fid f' Hf' Hwk. exfalso.
        destruct (Hw fid f' Hf' Hwk) as (_ & Hq' & _). congruence.
  - rewrite drain_nil by done. split; simpl; try done.
    + rewrite <- (list_alter_id id (frames (world s)) 0) by done.
      by apply (Hst1 id 0 []).
    + intros fid f' Hf' Hwk. exfalso.
      destruct (Hw fid f' Hf' Hwk) as (_ & Hq' & _). congruence.
Qed.

Lemma invariant_user_request s fid args :
  invariant s → invariant (step (UserRequest fid args) s).
Proof.
  intros Hinv. pose proof Hinv as [Hst Hj Hw Hc Hd]. unfold step, task.
  destruct (frames (world s) !! fid) as [f|] eqn:Hf.
  - rewrite (Frame_request_world _ _ _ _ Hf). rewrite drain_nil by done.
    split; simpl; try done.
    + apply (steady_quiet _ _ (anim s) _ _ []); try done.
      * intros f0 _. apply shaped_requested.
      * apply (st_pending _ _ _ Hst).
    + intros fid' f' [(-> & f0 & Hf0 & ->)|(Hne & Hf')]%lookup_alter_Some Hwk.
      * by apply not_walking_requested in Hwk.
      * by apply Hw.
  - rewrite (Frame_request_missing _ _ _ Hf). rewrite drain_nil by done.
    by destruct s.
Qed.

Lemma invariant_user_cancel s fid :
  invariant s → invariant (step (UserCancel fid) s).
Proof.
  intros Hinv. pose proof Hinv as [Hst Hj Hw Hc Hd]. unfold step, task.
  destruct (frames (world s) !! fid) as [f|] eqn:Hf.
  - rewrite (Frame_cancel_world _ _ _ Hf).
    destruct (cancel_jobs_rejections f) as [rs Hrs].
    rewrite (drain_rejections _ rs (VString "CANCEL")) by (simpl; by rewrite Hj).
    unfold clear_jobs. simpl.
    pose proof (cancel_events_quiet fid f) as Hqe.
    split; simpl; try done.
    + apply (steady_quiet _ _ (anim s)); try done.
      * apply shaped_cancelled.
      * apply (st_pending _ _ _ Hst).
    + intros fid' f' [(-> & f0 & Hf0 & ->)|(Hne & Hf')]%lookup_alter_Some Hwk.
      * exfalso. eapply not_walking_cancelled; [|done]. by eapply (st_shaped _ _ _ Hst).
      * rewrite requests_quiet by done. by apply Hw.
    + intros F Hp Hq. rewrite requests_quiet by done. by apply Hc.
  - rewrite (Frame_cancel_missing _ _ Hf). rewrite drain_nil by done. by destruct s.
Qed.

Lemma walking_awaiting f : walking f → awaiting f = true ∧ pending_reactions f = [RWalk].
Proof.
  intros (d & Hd & Hs & Hr). unfold awaiting, pending_reactions. by rewrite Hd, Hs.
Qed.

Lemma fire_walking fid args f :
  Frame.isCancel f = false → walking f →
  fire_jobs args f = [(RWalk, Fulfilled (fn_body (Frame.fun_ f) args))]
  ∧ fire_events fid args f =
      [EvSettle fid (Frame.cycle f) (Fulfilled (fn_body (Frame.fun_ f) args));
       EvCall (Frame.fun_ f) args].
Proof.
  intros Hc Hw. destruct (walking_awaiting f Hw) as [Ha Hp].
  destruct Hw as (d & Hd & _).
  unfold fire_jobs, fire_events, settle_jobs, settle_events. by rewrite Hc, Hd, Ha, Hp.
Qed.

Lemma fire_not_walking args f :
  shaped f → ¬ (Frame.isCancel f = false ∧ walking f) → fire_jobs args f = [].
Proof.
  intros Hs Hn. unfold fire_jobs, settle_jobs.
  destruct (Frame.isCancel f) eqn:Hc; [done|].
  destruct (pending_reactions_shaped f Hs) as [[-> _]|[_ Hw]]; [done|].
  exfalso. by apply Hn.
Qed.

Lemma finishes_cons_finish h l : finishes (EvFinish h :: l) = h :: finishes l.
Proof. done. Qed.

Lemma invariant_tick s : invariant s → invariant (step Tick s).
Proof.
  intros Hinv. pose proof Hinv as [Hst Hj Hw Hc Hd]. unfold step, task, run_tick.
  destruct (rafQueue (world s)) as [|[tok [fid args]] rest] eqn:Hq0.
  { rewrite drain_nil by done. by destruct s. }
  set (w0 := mkWorld _ rest _ _ _).
  destruct (frames (world s) !! fid) as [f|] eqn:Hf.
  2:{ rewrite (tick_callback_missing fid args w0 Hf). rewrite drain_nil by done.
      by split. }
  rewrite (tick_callback_world fid args w0 f Hf). subst w0.
  cbn [frames rafQueue nextTick microtasks log].
  rewrite Hj. cbn [app].
  pose proof (st_shaped _ _ _ Hst fid f Hf) as Hsh.
  pose proof (fire_events_quiet fid args f) as Hqe.
  assert (Hcase : (Frame.isCancel f = false ∧ walking f)
                  ∨ ¬ (Frame.isCancel f = false ∧ walking f)).
  { destruct (Frame.isCancel f); [right; by intros [? _]|].
    destruct (pending_reactions_shaped f Hsh) as [[_ ?]|[_ ?]]; [right|left]; tauto. }
  destruct Hcase as [[Hcf Hwf]|Hn].
  - (* the awaited future is fulfilled *)
    destruct (fire_walking fid args f Hcf Hwf) as [Hjobs Hevs].
    rewrite Hjobs. rewrite (drain_fulfilled _ (fn_body (Frame.fun_ f) args)) by done.
    unfold clear_jobs. cbn [world anim frames rafQueue nextTick microtasks log].
    destruct (Hw fid f Hf Hwf) as (Hp & Hq & Hh).
    set (l1 := fire_events fid args f ++ log (world s)).
    set (fs1 := alter (fired args) fid (frames (world s))).
    assert (Hcalm : calm fs1).
    { intros fid' f' [(-> & f0 & Hf0 & ->)|(Hne & Hf')]%lookup_alter_Some Hwk.
      - apply walking_fired in Hwk. rewrite Hf in Hf0. injection Hf0 as <-. congruence.
      - destruct (Hw fid' f' Hf' Hwk) as (_ & Hq' & _). congruence. }
    assert (Hst1 : ∀ a', same_setup (anim s) a' → frameIndex a' = frameIndex (anim s) →
              finished a' = finished (anim s) →
              (∀ d, defer a' = Some d → settled d = None) → steady fs1 l1 a').
    { intros a' ????. apply (steady_quiet _ _ (anim s)); try done. apply shaped_fired. }
    unfold on_fulfilled. cbn [world anim]. rewrite Hp. cbn [negb].
    destruct (decide _) as [Hlast|Hlast].
    + (* the last frame: FINISH *)
      destruct (Hd Hp) as [d Hdef]. rewrite Hdef.
      pose proof (st_pending _ _ _ Hst d Hdef) as Hpend.
      specialize (Hst1 (anim s) ltac:(done) eq_refl eq_refl (st_pending _ _ _ Hst)).
      destruct Hst1 as [st_timing0 st_shaped0 st_seq0 st_index0 st_args0 st_pending0 st_finishes0 st_finished0].
      split; cbn [world anim frames log microtasks emit]; try done.
      * split; try done.
        -- intros n Hn. apply (fulfilled_before_app n [_]). by apply st_index0.
        -- intros idx fid' gen args' [Heq|Hin]%elem_of_cons; [done|]. by eapply st_args0.
        -- rewrite finishes_cons_finish, st_finishes0. cbn [finished set_anim].
           rewrite length_app. cbn [length]. by rewrite Nat.add_1_r, seq_S, rev_app_distr.
        -- simpl. intros d' [Hin| ->%list_elem_of_singleton]%elem_of_app.
           ++ by apply st_finished0.
           ++ unfold settle. by rewrite Hpend.
      * intros fid' f' Hf' Hwk. by eapply Hcalm in Hwk.
    + (* advance and request the next frame *)
      set (s1 := mkSys _ (set_anim _ _ _ _ _)).
      assert (Hlen : frameIndex (anim s) + 1 < length (frameQueue (anim s))).
      { apply lookup_lt_Some in Hq. lia. }
      apply lookup_lt_is_Some_2 in Hlen as [F' HF'].
      destruct (request_invariant s1 F') as (s' & gen & Hr & Hinv' & _); try done.
      * subst s1. cbn [world anim frames log].
        pose proof (Hst1 (anim s) ltac:(done) eq_refl eq_refl (st_pending _ _ _ Hst))
          as [st_timing0 st_shaped0 st_seq0 st_index0 st_args0 st_pending0 st_finishes0 st_finished0].
        split; try done.
        intros n Hn. simpl in Hn. assert (n = frameIndex (anim s)) as -> by lia.
        apply head_requests_elem in Hh as (args0 & lb & lc & Hl).
        subst l1. rewrite Hevs, Hl.
        exists fid, (Frame.cycle f), args0, (fn_body (Frame.fun_ f) args), [],
          (EvCall (Frame.fun_ f) args :: lb), lc. done.
      * subst s1. simpl. by apply Hd.
      * by rewrite Hr.
  - (* nothing the driver waits for *)
    rewrite (fire_not_walking args f Hsh Hn). rewrite drain_nil by done.
    split; cbn [world anim frames log microtasks]; try done.
    + apply (steady_quiet _ _ (anim s)); try done.
      * apply shaped_fired.
      * apply (st_pending _ _ _ Hst).
    + intros fid' f' [(-> & f0 & Hf0 & ->)|(Hne & Hf')]%lookup_alter_Some Hwk.
      * pose proof (walking_fired _ _ Hwk) as Hcf.
        rewrite fired_cancelled in Hwk |- * by done.
        rewrite requests_quiet by done. by apply Hw.
      * rewrite requests_quiet by done. by apply Hw.
    + intros F Hp Hq. rewrite requests_quiet by done. by apply Hc.
Qed.

(** ** Token bookkeeping *)

Lemma StronglySorted_filter {A} (R : relation A) (P : A → Prop)
    `{∀ x, Decision (P x)} (l : list A) :
  StronglySorted R l → StronglySorted R (filter P l).
Proof.
  induction 1 as [|x l Hl IH Hx]; [constructor|].
  rewrite filter_cons. destruct (decide (P x)); [|done].
  constructor; [done|]. rewrite Forall_forall in Hx |- *.
  intros y [_ Hy]%list_elem_of_filter. by apply Hx.
Qed.

Lemma in_flight_nil fid w :
  (∀ e, e ∈ rafQueue w → e.2.1 ≠ fid) → in_flight fid w = [].
Proof.
  intros Hno. unfold in_flight.
  destruct (filter _ _) as [|e l] eqn:E; [done|].
  assert (Hin : e ∈ filter (λ e, e.2.1 = fid) (rafQueue w)) by (rewrite E; by left).
  apply list_elem_of_filter in Hin as [He Hin]. by apply Hno in Hin.
Qed.

Lemma awaiting_settled_with o f : awaiting (settled_with o f) = false.
Proof.
  unfold awaiting, settled_with, settle. simpl.
  destruct (Frame.defer f) as [d|]; [|done]. simpl. by destruct (settled d) eqn:E; simpl; rewrite ?E.
Qed.

Lemma awaiting_reacting r f : awaiting (reacting r f) = awaiting f.
Proof.
  unfold awaiting, reacting, then_. simpl.
  destruct (Frame.defer f) as [d|]; [|done]. simpl. by destruct (settled d) eqn:E; simpl; rewrite ?E.
Qed.

Lemma tidy_empty : tidy empty_world.
Proof.
  split; simpl; try done; try (intros; by rewrite lookup_nil in * ).
  all: try constructor.
  all: intros; repeat match goal with H : _ ∈ [] |- _ => by apply elem_of_nil in H end.
Qed.

Lemma tidy_new fn w : tidy w → tidy (new_Frame fn w).2.
Proof.
  intros [Hs Hfr Ho Ht Hu Ha Hg]. unfold new_Frame, set_frames. simpl.
  assert (Hlk : ∀ fid f, (frames w ++ [Frame.mk fn None None false []]) !! fid = Some f →
            frames w !! fid = Some f ∨ f = Frame.mk fn None None false []).
  { intros fid f [?|[_ Hf]]%lookup_app_Some; [by left|right].
    apply list_lookup_singleton_Some in Hf as [_ <-]. done. }
  split; simpl; try done.
  - intros t fid args Hin. destruct (Ho t fid args Hin) as (f & tok & Hf & Htk & Hle).
    exists f, tok. split; [|done]. by apply lookup_app_l_Some.
  - intros fid f tok [Hf| ->]%Hlk; [by eapply Ht|done].
  - intros fid1 fid2 f1 f2 tok [Hf1| ->]%Hlk [Hf2| ->]%Hlk; try done. by eapply Hu.
  - intros fid f [Hf| ->]%Hlk; [by eapply Ha|done].
  - intros fid f tok [Hf| ->]%Hlk; [by eapply Hg|done].
Qed.

Lemma tidy_request fid args w : tidy w → tidy (Frame_request fid args w).
Proof.
  intros Htd. pose proof Htd as [Hs Hfr Ho Ht Hu Ha Hg].
  destruct (frames w !! fid) as [f|] eqn:Hf;
    [|by rewrite (Frame_request_missing _ _ _ Hf)].
  rewrite (Frame_request_world _ _ _ _ Hf).
  assert (Hlk : ∀ fid' f', alter (requested (nextTick w)) fid (frames w) !! fid' = Some f' →
            (fid' = fid ∧ f' = requested (nextTick w) f)
            ∨ (fid' ≠ fid ∧ frames w !! fid' = Some f')).
  { intros fid' f' [(-> & f0 & Hf0 & ->)|?]%lookup_alter_Some; [left|by right].
    rewrite Hf in Hf0. by injection Hf0 as <-. }
  split; cbn [frames rafQueue nextTick].
  - apply StronglySorted_app_2; [|done|by repeat constructor].
    intros e1 e2 H1 ->%list_elem_of_singleton. simpl. by apply Hfr.
  - intros e [He| ->%list_elem_of_singleton]%elem_of_app; simpl; [|lia].
    specialize (Hfr e He). lia.
  - intros t fid' args' [Hin|Heq%list_elem_of_singleton]%elem_of_app.
    + destruct (Ho t fid' args' Hin) as (f' & tok & Hf' & Htk & Hle).
      destruct (decide (fid' = fid)) as [->|Hne].
      * rewrite list_lookup_alter_eq, Hf. simpl. eexists _, _. split; [done|].
        simpl. split; [done|]. specialize (Hfr _ Hin). simpl in Hfr. lia.
      * rewrite list_lookup_alter_ne by done. eauto.
    + injection Heq as -> -> ->. rewrite list_lookup_alter_eq, Hf. simpl.
      eexists _, _. split; [done|]. simpl. split; [done|lia].
  - intros fid' f' tok [[-> ->]|[_ Hf']]%Hlk; simpl.
    + intros [= <-]. lia.
    + intros Htk. specialize (Ht _ _ _ Hf' Htk). lia.
  - intros fid1 fid2 f1 f2 tok [[-> ->]|[Hn1 Hf1]]%Hlk [[-> ->]|[Hn2 Hf2]]%Hlk; simpl;
      try done.
    + intros [= <-] Htk. specialize (Ht _ _ _ Hf2 Htk). lia.
    + intros Htk [= <-]. specialize (Ht _ _ _ Hf1 Htk). lia.
    + by eapply Hu.
  - intros fid' f' [[-> ->]|[Hne Hf']]%Hlk Haw.
    + split; [done|]. exists (nextTick w), args. split; [done|].
      apply elem_of_app. right. by left.
    + destruct (Ha _ _ Hf' Haw) as (Hc & tok & args' & Htk & Hin). split; [done|].
      exists tok, args'. split; [done|]. apply elem_of_app. by left.
  - intros fid' f' tok [[-> ->]|[Hne Hf']]%Hlk; simpl.
    + intros [= <-] Hn. exfalso. apply Hn. rewrite fmap_app. apply elem_of_app.
      right. by left.
    + intros Htk Hn Hc e [He| ->%list_elem_of_singleton]%elem_of_app; [|by simpl].
      eapply Hg; try done. intros Hin. apply Hn. rewrite fmap_app. apply elem_of_app.
      by left.
Qed.

Lemma awaiting_cancelled f : awaiting f = true → is_Some (Frame.tick f) →
  awaiting (cancelled f) = false.
Proof.
  intros _ [tok Ht]. unfold cancelled. rewrite Ht. apply awaiting_settled_with.
Qed.

Lemma tidy_cancel fid w : tidy w → tidy (Frame_cancel fid w).
Proof.
  intros Htd. pose proof Htd as [Hs Hfr Ho Ht Hu Ha Hg].
  destruct (frames w !! fid) as [f|] eqn:Hf;
    [|by rewrite (Frame_cancel_missing _ _ Hf)].
  rewrite (Frame_cancel_world _ _ _ Hf).
  destruct (Frame.tick f) as [tok|] eqn:Htk.
  2:{ assert (Hc : cancelled f = f) by (unfold cancelled; by rewrite Htk).
      rewrite alter_fixed; [|intros x; rewrite Hf; by intros [= <-]].
      unfold cancel_queue. rewrite Htk. by split. }
  assert (Hq : cancel_queue f (rafQueue w) = filter (λ e, e.1 ≠ tok) (rafQueue w)).
  { unfold cancel_queue. by rewrite Htk. }
  rewrite Hq. clear Hq.
  assert (Hcf : cancelled f =
                settled_with (Rejected (VString "CANCEL"))
                  (Frame.mk (Frame.fun_ f) (Frame.defer f) (Some tok) true (Frame.replaced f))).
  { unfold cancelled. by rewrite Htk. }
  assert (Hlk : ∀ fid' f', alter cancelled fid (frames w) !! fid' = Some f' →
            (fid' = fid ∧ f' = cancelled f) ∨ (fid' ≠ fid ∧ frames w !! fid' = Some f')).
  { intros fid' f' [(-> & f0 & Hf0 & ->)|?]%lookup_alter_Some; [left|by right].
    rewrite Hf in Hf0. by injection Hf0 as <-. }
  assert (Htick : ∀ fid' f', alter cancelled fid (frames w) !! fid' = Some f' →
            ∃ f0, frames w !! fid' = Some f0 ∧ Frame.tick f' = Frame.tick f0).
  { intros fid' f' [[-> ->]|[_ Hf']]%Hlk; [|eauto]. exists f. split; [done|].
    rewrite Hcf. simpl. by rewrite Htk. }
  split; cbn [frames rafQueue nextTick].
  - by apply StronglySorted_filter.
  - intros e [_ He]%list_elem_of_filter. by apply Hfr.
  - intros t fid' args [_ Hin]%list_elem_of_filter.
    destruct (Ho t fid' args Hin) as (f' & tok' & Hf' & Htk' & Hle).
    destruct (decide (fid' = fid)) as [->|Hne].
    + rewrite list_lookup_alter_eq, Hf. simpl. rewrite Hf in Hf'. injection Hf' as <-.
      exists (cancelled f), tok'. split; [done|]. split; [|done].
      rewrite Hcf. simpl. congruence.
    + rewrite list_lookup_alter_ne by done. eauto.
  - intros fid' f' tok' (f0 & Hf0 & ->)%Htick Htk'. by eapply Ht.
  - intros fid1 fid2 f1 f2 tok' (f01 & Hf01 & ->)%Htick (f02 & Hf02 & ->)%Htick.
    by eapply Hu.
  - intros fid' f' [[-> ->]|[Hne Hf']]%Hlk Haw.
    + rewrite Hcf, awaiting_settled_with in Haw. done.
    + destruct (Ha _ _ Hf' Haw) as (Hc & tok' & args' & Htk' & Hin). split; [done|].
      exists tok', args'. split; [done|]. apply list_elem_of_filter. split; [|done].
      simpl. intros ->. apply Hne. by eapply Hu.
  - intros fid' f' tok' [[-> ->]|[Hne Hf']]%Hlk.
    + rewrite Hcf. simpl. done.
    + intros Htk' Hn Hc e [He Hin]%list_elem_of_filter.
      eapply Hg; try done. intros Hin'. apply Hn.
      apply list_elem_of_fmap in Hin' as (e' & -> & He').
      apply list_elem_of_fmap. exists e'. split; [done|].
      apply list_elem_of_filter. split; [|done].
      intros Heq. apply Hne. rewrite Heq in *. by eapply Hu.
Qed.

Lemma tidy_then fid r w : tidy w → tidy (Frame_then fid r w).
Proof.
  intros Htd. pose proof Htd as [Hs Hfr Ho Ht Hu Ha Hg].
  destruct (frames w !! fid) as [f|] eqn:Hf;
    [|by rewrite (Frame_then_missing _ _ _ Hf)].
  assert (Hfs := Frame_then_frames fid r w).
  assert (Hq : rafQueue (Frame_then fid r w) = rafQueue w
               ∧ nextTick (Frame_then fid r w) = nextTick w).
  { unfold Frame_then. rewrite Hf. by destruct (Frame.defer f). }
  destruct Hq as [Hq Hn].
  assert (Hlk : ∀ fid' f', frames (Frame_then fid r w) !! fid' = Some f' →
            ∃ f0, frames w !! fid' = Some f0 ∧ Frame.tick f' = Frame.tick f0
                  ∧ Frame.isCancel f' = Frame.isCancel f0 ∧ awaiting f' = awaiting f0).
  { intros fid' f'. rewrite Hfs.
    intros [(-> & f0 & Hf0 & ->)|[_ Hf']]%lookup_alter_Some; [|eauto].
    exists f0. split; [done|]. split_and!; [done|done|apply awaiting_reacting]. }
  split; rewrite ?Hq, ?Hn; try done.
  - intros t fid' args Hin. destruct (Ho t fid' args Hin) as (f' & tok & Hf' & Htk & Hle).
    rewrite Hfs. destruct (decide (fid' = fid)) as [->|Hne].
    + rewrite list_lookup_alter_eq, Hf'. simpl. eauto.
    + rewrite list_lookup_alter_ne by done. eauto.
  - intros fid' f' tok (f0 & Hf0 & -> & _)%Hlk. by eapply Ht.
  - intros fid1 fid2 f1 f2 tok (f01 & Hf01 & -> & _)%Hlk (f02 & Hf02 & -> & _)%Hlk.
    by eapply Hu.
  - intros fid' f' (f0 & Hf0 & -> & -> & ->)%Hlk. by eapply Ha.
  - intros fid' f' tok (f0 & Hf0 & -> & -> & _)%Hlk. by eapply Hg.
Qed.

Lemma tidy_tick w : tidy w → tidy (run_tick w).
Proof.
  intros Htd. pose proof Htd as [Hs Hfr Ho Ht Hu Ha Hg]. unfold run_tick.
  destruct (rafQueue w) as [|[t0 [fid0 args0]] rest] eqn:Hq; [done|].
  set (w0 := mkWorld _ rest _ _ _).
  destruct (Ho t0 fid0 args0) as (f & tok0 & Hf & Htk0 & Hle0); [by left|].
  rewrite (tick_callback_world fid0 args0 w0 f Hf). subst w0.
  cbn [frames rafQueue nextTick microtasks log].
  apply StronglySorted_inv in Hs as [Hs Hhd].
  assert (Hlk : ∀ fid' f', alter (fired args0) fid0 (frames w) !! fid' = Some f' →
            ∃ f0, frames w !! fid' = Some f0 ∧ Frame.tick f' = Frame.tick f0
                  ∧ Frame.isCancel f' = Frame.isCancel f0
                  ∧ (awaiting f' = true → awaiting f0 = true ∧ fid' ≠ fid0)).
  { intros fid' f' [(-> & f0 & Hf0 & ->)|[Hne Hf']]%lookup_alter_Some; [|eauto 10].
    exists f0. split; [done|]. unfold fired.
    destruct (Frame.isCancel f0) eqn:Hc.
    - split_and!; try done. intros Haw. destruct (Ha _ _ Hf0 Haw) as [Hc' _]. congruence.
    - split_and!; try done. by rewrite awaiting_settled_with. }
  split; cbn [frames rafQueue nextTick].
  - done.
  - intros e He. apply Hfr. by right.
  - intros t fid' args Hin. destruct (Ho t fid' args) as (f' & tok & Hf' & Htk & Hle);
      [by right|].
    destruct (decide (fid' = fid0)) as [->|Hne].
    + rewrite list_lookup_alter_eq, Hf'. simpl. eexists _, tok. split; [done|].
      split; [|done]. unfold fired. by destruct (Frame.isCancel f').
    + rewrite list_lookup_alter_ne by done. eauto.
  - intros fid' f' tok (f0 & Hf0 & -> & _)%Hlk. by eapply Ht.
  - intros fid1 fid2 f1 f2 tok (f01 & Hf01 & -> & _)%Hlk (f02 & Hf02 & -> & _)%Hlk.
    by eapply Hu.
  - intros fid' f' (f0 & Hf0 & Htk & Hc & Haw)%Hlk Haw'.
    destruct (Haw Haw') as [Haw0 Hne].
    destruct (Ha _ _ Hf0 Haw0) as (Hc0 & tok & args & Htk' & Hin).
    split; [congruence|]. exists tok, args. split; [congruence|].
    apply elem_of_cons in Hin as [Heq|Hin]; [|done]. by injection Heq as _ <- _.
  - intros fid' f' tok (f0 & Hf0 & Htk & Hc & _)%Hlk Htk' Hn Hc' e He.
    rewrite Htk in Htk'. rewrite Hc in Hc'.
    destruct (decide (tok = t0)) as [->|Hne].
    + (* the tracked callback is the one that fired *)
      intros Hfid. destruct e as [t [fid'' args]]. simpl in Hfid. subst fid''.
      destruct (Ho t fid' args) as (f1 & tok1 & Hf1 & Htk1 & Hle); [by right|].
      rewrite Hf0 in Hf1. injection Hf1 as <-. rewrite Htk' in Htk1. injection Htk1 as <-.
      rewrite Forall_forall in Hhd. specialize (Hhd _ He). simpl in Hhd. lia.
    + eapply (Hg fid' f0 tok); try done; [|by right].
      intros [Heq|Hin]%elem_of_cons; [done|]. by apply Hn.
Qed.

Lemma tidy_emit e w : tidy w → tidy (emit e w).
Proof. by intros []. Qed.

Lemma made_tidy w : made w → tidy w.
Proof.
  induction 1.
  - apply tidy_empty.
  - by apply tidy_new.
  - by apply tidy_request.
  - by apply tidy_cancel.
  - by apply tidy_then.
  - by apply tidy_tick.
  - by apply tidy_emit.
Qed.

(** A frame whose tracked token has left the scheduler has a settled
    future. *)
Lemma tidy_gone_settled w fid f tok :
  tidy w → frames w !! fid = Some f → Frame.tick f = Some tok →
  tok ∉ (rafQueue w).*1 → ∀ d, Frame.defer f = Some d → settled d ≠ None.
Proof.
  intros Htd Hf Htk Hn d Hd Hs.
  destruct (td_await _ Htd fid f Hf) as (_ & tok' & args & Htk' & Hin).
  { unfold awaiting. by rewrite Hd, Hs. }
  apply Hn. rewrite Htk in Htk'. injection Htk' as <-.
  apply list_elem_of_fmap. by exists (tok, (fid, args)).
Qed.

Lemma made_requestFrame fn extra w : made w → made (requestFrame fn extra w).2.
Proof. intros H. unfold requestFrame, new_Frame. simpl. apply made_request, (made_new fn), H. Qed.

(** C7. [cancel] on a frame holding a token sets the cancellation flag,
    takes the token from the scheduler and rejects a pending future with
    CANCEL, and a tick of the frame that still fires afterwards is dropped
    without calling the wrapped function. On a frame that was never
    requested it changes nothing; on a frame whose token is no longer
    pending it leaves scheduler, futures and events alone: it only sets the
    private flag, which no callback of the frame is left to read and the
    next [request] resets. Cancelling twice is cancelling once. *)
Theorem Frame_cancel_spec (w : World) (fid : nat) (f : Frame.t) :
  made w → frames w !! fid = Some f →
  (∀ tok, Frame.tick f = Some tok →
     frames (Frame_cancel fid w) !! fid =
       Some (Frame.mk (Frame.fun_ f)
               (match Frame.defer f with
                | Some d => Some (settle (Rejected (VString "CANCEL")) d).1
                | None => None
                end)
               (Some tok) true (Frame.replaced f))
     ∧ (∀ d, settled d = None →
          (settle (Rejected (VString "CANCEL")) d).1
          = mkDeferred (Some (Rejected (VString "CANCEL"))) (reactions d))
     ∧ rafQueue (Frame_cancel fid w) = filter (λ e, e.1 ≠ tok) (rafQueue w)
     ∧ (tok ∉ (rafQueue (Frame_cancel fid w)).*1)
     ∧ (∀ args, tick_callback fid args (Frame_cancel fid w) = Frame_cancel fid w))
  ∧ (Frame.tick f = None → Frame_cancel fid w = w)
  ∧ (∀ tok, Frame.tick f = Some tok → tok ∉ (rafQueue w).*1 →
       Frame_cancel fid w =
         set_frames
           <[fid := Frame.mk (Frame.fun_ f) (Frame.defer f) (Frame.tick f) true
                      (Frame.replaced f)]> w
       ∧ (Frame.isCancel f = false → in_flight fid w = [])
       ∧ ∀ args, Frame_request fid args (Frame_cancel fid w) = Frame_request fid args w)
  ∧ Frame_cancel fid (Frame_cancel fid w) = Frame_cancel fid w.
Proof.
  intros Hm Hf. pose proof (made_tidy w Hm) as Htd. split_and!.
  - intros tok Ht. destruct (Frame_cancel_frame _ _ _ _ Hf Ht) as (Hf1 & Hq & _).
    split_and!; [done| |done| |].
    + intros d Hs. unfold settle. by rewrite Hs.
    + rewrite Hq. apply filter_tokens_gone.
    + intros args. by eapply tick_callback_cancelled.
  - intros Ht. unfold Frame_cancel. by rewrite Hf, Ht.
  - intros tok Ht Hq. pose proof (fid_lt _ _ _ Hf) as Hlt.
    pose proof (tidy_gone_settled w fid f tok Htd Hf Ht Hq) as Hd.
    rewrite (Frame_cancel_settled _ _ _ _ Hf Ht Hq Hd). split_and!; [done| |].
    + intros Hc. apply in_flight_nil. by eapply (td_gone _ Htd fid f tok).
    + intros args. unfold Frame_request, set_frames. simpl.
      rewrite list_lookup_insert_eq by done. rewrite Hf. simpl.
      by rewrite list_insert_insert_eq.
  - apply Frame_cancel_idemp.
Qed.

Lemma Frame_cancel_spec_witness :
  Frame_cancel 0 (Frame_cancel 0 (requestFrame f_demo [] empty_world).2)
  = Frame_cancel 0 (requestFrame f_demo [] empty_world).2.
Proof.
  exact (proj2 (proj2 (proj2
    (Frame_cancel_spec (requestFrame f_demo [] empty_world).2 0
       (Frame.mk f_demo (Some PromiseDefer) (Some 1%positive) false [])
       (made_requestFrame f_demo [] empty_world made_empty) eq_refl)))).
Defined.

(** ** Reachable states *)

Lemma animation_Normal Bezier duration tf fr w w1 a :
  animation Bezier duration tf fr w = (w1, Normal a) →
  ∃ f, tf = TFunction f
    ∧ getBezier Bezier tf = Normal (Some f)
    ∧ w1 = (getFrameQueue duration fr w).2
    ∧ a = mkAnimation None (getFrameQueue duration fr w).1
            (1 / (duration / INTERVAL)) 0 (TFunction f) f false [].
Proof.
  unfold animation. destruct (getFrameQueue duration fr w) as [q w'].
  destruct tf as [name|points|f|]; simpl.
  - destruct Bezier; by intros [= ].
  - destruct Bezier; [by intros [= ]|]. destruct (decide _); by intros [= ].
  - intros [= <- <-]. eauto.
  - by intros [= ].
Qed.

Lemma unrequested_shaped f : unrequested f → shaped f ∧ ¬ walking f.
Proof.
  intros [Hd Ht]. split.
  - intros d. by rewrite Hd.
  - intros (d & Hd' & _). congruence.
Qed.

Lemma requests_quiet_log l : Forall quiet_event l → requests l = [] ∧ finishes l = [].
Proof.
  intros H. rewrite <- (app_nil_r l). by rewrite requests_quiet, finishes_quiet.
Qed.

Lemma sequenced_quiet_log l : Forall quiet_event l → sequenced l.
Proof. intros H. rewrite <- (app_nil_r l). by apply sequenced_quiet. Qed.

Lemma invariant_new Bezier duration tf fr w w1 a :
  quiet w → animation Bezier duration tf fr w = (w1, Normal a) →
  invariant (mkSys w1 a).
Proof.
  intros [Hj Hsh Hidle Hlog] (f & -> & _ & -> & ->)%animation_Normal.
  pose proof (grown_getFrameQueue duration fr w) as Hg.
  assert (Hfr : ∀ fid f0, frames (getFrameQueue duration fr w).2 !! fid = Some f0 →
            shaped f0 ∧ ¬ walking f0).
  { intros fid f0 [Hf0|Hf0]%(grown_lookup _ _ _ _ Hg); [|by apply unrequested_shaped].
    split; [by eapply Hsh|by eapply Hidle]. }
  destruct Hg as (fresh & _ & Hw1). rewrite Hw1 in Hfr |- *. simpl in *.
  destruct (requests_quiet_log _ Hlog) as [Hreq Hfin].
  split; simpl; try done.
  - split; simpl; try done.
    + intros fid f0 Hf0. by apply (Hfr fid f0).
    + by apply sequenced_quiet_log.
    + intros idx fid gen args Hin. rewrite Forall_forall in Hlog. by apply Hlog in Hin.
    + intros d Hin. by apply elem_of_nil in Hin.
  - intros fid f0 Hf0 Hwk. by apply (Hfr fid f0) in Hwk.
Qed.

Lemma invariant_step s act : invariant s → invariant (step act s).
Proof.
  destruct act.
  - apply invariant_play.
  - apply invariant_stop.
  - apply invariant_tick.
  - apply invariant_user_request.
  - apply invariant_user_cancel.
Qed.

(** *** What a task leaves of the animation *)

Lemma same_setup_refl a : same_setup a a.
Proof. done. Qed.

Lemma same_setup_trans a b c : same_setup a b → same_setup b c → same_setup a c.
Proof. intros (?&?&?&?) (?&?&?&?). repeat split; congruence. Qed.

Lemma request_anim s s' : request s = Normal s' → anim s' = anim s.
Proof.
  unfold request. destruct (frameQueue _ !! _); [|done].
  destruct (call_timing _ _); [|done]. by intros [= <-].
Qed.

Lemma keeps_replaced_alter g F w w' :
  frames w' = alter g F (frames w) →
  (∀ f, Frame.replaced f `prefix_of` Frame.replaced (g f)) →
  keeps_replaced w w'.
Proof.
  intros Hw Hg fid f Hf. rewrite Hw. destruct (decide (fid = F)) as [->|Hne].
  - rewrite list_lookup_alter_eq, Hf. simpl. eauto.
  - rewrite list_lookup_alter_ne by done. eauto.
Qed.

Lemma request_world_keeps s s' : request s = Normal s' → keeps_replaced (world s) (world s').
Proof.
  unfold request. destruct (frameQueue _ !! _) as [F|]; [|done].
  destruct (call_timing _ _); [|done]. intros [= <-]. cbn [world].
  eapply keeps_replaced_alter.
  - unfold emit. cbn [frames]. rewrite Frame_then_frames, Frame_request_frames.
    apply list_alter_alter_eq.
  - intros f. simpl. by apply prefix_app_r.
Qed.

Lemma keeps_replaced_refl w : keeps_replaced w w.
Proof. intros fid f Hf. eauto. Qed.

Lemma keeps_replaced_trans w1 w2 w3 :
  keeps_replaced w1 w2 → keeps_replaced w2 w3 → keeps_replaced w1 w3.
Proof.
  intros H1 H2 fid f Hf. destruct (H1 fid f Hf) as (f' & Hf' & Hp).
  destruct (H2 fid f' Hf') as (f'' & Hf'' & Hp'). exists f''. split; [done|].
  by etrans.
Qed.

Lemma keeps_replaced_request fid args w : keeps_replaced w (Frame_request fid args w).
Proof.
  eapply keeps_replaced_alter; [apply Frame_request_frames|].
  intros f. simpl. by apply prefix_app_r.
Qed.

Lemma keeps_replaced_cancel fid w : keeps_replaced w (Frame_cancel fid w).
Proof.
  eapply keeps_replaced_alter; [apply Frame_cancel_frames|].
  intros f. unfold cancelled. by destruct (Frame.tick f).
Qed.

Lemma keeps_replaced_tick w : keeps_replaced w (run_tick w).
Proof.
  unfold run_tick. destruct (rafQueue w) as [|[tok [fid args]] rest]; [apply keeps_replaced_refl|].
  eapply keeps_replaced_alter; [by rewrite tick_callback_frames|].
  intros f. unfold fired. by destruct (Frame.isCancel f).
Qed.

Lemma on_fulfilled_facts s :
  same_setup (anim s) (anim (on_fulfilled s))
  ∧ keeps_replaced (world s) (world (on_fulfilled s)).
Proof.
  unfold on_fulfilled. destruct (isPlaying (anim s)); simpl;
    [|split; [done|apply keeps_replaced_refl]].
  destruct (decide _).
  - destruct (defer (anim s)); simpl; (split; [done|]); intros fid f Hf; eauto.
  - destruct (request _) as [s2|e] eqn:Hr; simpl; [|split; [done|apply keeps_replaced_refl]].
    rewrite (request_anim _ _ Hr). split; [done|].
    by apply request_world_keeps in Hr.
Qed.

Lemma drain_facts s :
  same_setup (anim s) (anim (drain s))
  ∧ keeps_replaced (world s) (world (drain s)).
Proof.
  unfold drain.
  set (s0 := mkSys _ (anim s)).
  assert (H0 : same_setup (anim s) (anim s0) ∧ keeps_replaced (world s) (world s0)).
  { split; [done|]. intros fid f Hf. eauto. }
  revert H0. generalize s0. clear s0.
  induction (microtasks (world s)) as [|[[] o] js IH]; intros s0 [H1 H2]; [done|].
  simpl. apply IH. destruct o; simpl; [|done].
  destruct (on_fulfilled_facts s0) as [H3 H4]. split.
  - by eapply same_setup_trans.
  - by eapply keeps_replaced_trans.
Qed.

Lemma play_facts s :
  same_setup (anim s) (anim (play s).1)
  ∧ keeps_replaced (world s) (world (play s).1).
Proof.
  unfold play. destruct (isPlaying (anim s)); simpl; [split; [done|apply keeps_replaced_refl]|].
  destruct (request _) as [s2|e] eqn:Hr; simpl; [|split; [done|apply keeps_replaced_refl]].
  rewrite (request_anim _ _ Hr). split; [done|]. by apply request_world_keeps in Hr.
Qed.

Lemma stop_facts s :
  same_setup (anim s) (anim (stop s))
  ∧ keeps_replaced (world s) (world (stop s)).
Proof.
  unfold stop. destruct (isPlaying (anim s)); simpl; [|split; [done|apply keeps_replaced_refl]].
  destruct (frameQueue _ !! _); simpl; (split; [done|]);
    [apply keeps_replaced_cancel|apply keeps_replaced_refl].
Qed.

Lemma step_facts s act :
  same_setup (anim s) (anim (step act s))
  ∧ keeps_replaced (world s) (world (step act s)).
Proof.
  unfold step. destruct (drain_facts (task act s)) as [H1 H2].
  assert (H0 : same_setup (anim s) (anim (task act s))
               ∧ keeps_replaced (world s) (world (task act s))).
  { destruct act; simpl.
    - apply play_facts.
    - apply stop_facts.
    - split; [done|apply keeps_replaced_tick].
    - split; [done|apply keeps_replaced_request].
    - split; [done|apply keeps_replaced_cancel]. }
  destruct H0 as [H3 H4]. split.
  - by eapply same_setup_trans.
  - by eapply keeps_replaced_trans.
Qed.

Lemma run_keeps_replaced acts s : keeps_replaced (world s) (world (run acts s)).
Proof.
  revert s. induction acts as [|act acts IH]; intros s; [apply keeps_replaced_refl|].
  simpl. eapply keeps_replaced_trans; [apply step_facts|apply IH].
Qed.

Lemma setup_same Bezier duration tf a a' :
  setup Bezier duration tf a → same_setup a a' → setup Bezier duration tf a'.
Proof.
  intros [H1 H2 H3] (_ & Hp & Ht & Hb). split; [by rewrite Hp|by rewrite Ht|by rewrite Hb].
Qed.

Lemma reachable_invariant Bezier duration tf fr s :
  reachable Bezier duration tf fr s →
  invariant s ∧ setup Bezier duration tf (anim s).
Proof.
  induction 1 as [w w1 a Hq Ha|s act _ [IH1 IH2]].
  - split; [by eapply invariant_new|].
    apply animation_Normal in Ha as (f & -> & Hb & _ & ->). by split.
  - split; [by apply invariant_step|].
    eapply setup_same; [done|apply step_facts].
Qed.

(** ** The sample animation *)

Lemma quiet_empty_world : quiet empty_world.
Proof. split; simpl; try done; intros fid f Hf; by rewrite lookup_nil in Hf. Qed.

Lemma reachable_start_demo :
  reachable (Some lib_demo) 50 (TFunction ease_demo) (FramesFunction f_demo) start_demo.
Proof. by apply (reachable_new _ _ _ _ empty_world); [apply quiet_empty_world|]. Qed.

Lemma reachable_run Bezier duration tf fr s acts :
  reachable Bezier duration tf fr s → reachable Bezier duration tf fr (run acts s).
Proof.
  revert s. induction acts as [|act acts IH]; intros s Hs; [done|].
  apply IH. by constructor.
Qed.

(** ** play *)




(** ** stop *)

Lemma stop_idle s : isPlaying (anim s) = false → stop s = s.
Proof. intros H. unfold stop. by rewrite H. Qed.

Lemma stop_playing s :
  isPlaying (anim s) = true →
  anim (stop s) = set_anim s (defer (anim s)) (frameIndex (anim s)) false (finished (anim s))
  ∧ world (stop s) =
      match frameQueue (anim s) !! frameIndex (anim s) with
      | Some currentFrame => Frame_cancel currentFrame (world s)
      | None => world s
      end.
Proof.
  intros H. unfold stop. rewrite H. simpl. by destruct (frameQueue _ !! _).
Qed.

Lemma Frame_cancel_jobs fid w :
  ∃ rs, microtasks (Frame_cancel fid w)
        = microtasks w ++ ((λ r, (r, Rejected (VString "CANCEL"))) <$> rs).
Proof.
  destruct (frames w !! fid) as [f|] eqn:Hf.
  - rewrite (Frame_cancel_world _ _ _ Hf). simpl.
    destruct (cancel_jobs_rejections f) as [rs ->]. eauto.
  - rewrite (Frame_cancel_missing _ _ Hf). exists []. by rewrite app_nil_r.
Qed.

Lemma step_Stop s :
  microtasks (world s) = [] → step Stop s = clear_jobs (stop s).
Proof.
  intros Hj. unfold step, task. destruct (isPlaying (anim s)) eqn:Hp.
  - destruct (stop_playing s Hp) as [Ha Hw].
    destruct (frameQueue (anim s) !! frameIndex (anim s)) as [F|].
    + destruct (Frame_cancel_jobs F (world s)) as [rs Hrs].
      apply (drain_rejections _ rs (VString "CANCEL")). by rewrite Hw, Hrs, Hj.
    + rewrite drain_nil, clear_jobs_id; by rewrite ?Hw.
  - rewrite stop_idle by done. by rewrite drain_nil, clear_jobs_id.
Qed.




(** ** FINISH *)

Lemma step_Tick_awaited s tok fid args rest f :
  microtasks (world s) = [] →
  rafQueue (world s) = (tok, (fid, args)) :: rest →
  frames (world s) !! fid = Some f → Frame.isCancel f = false → walking f →
  step Tick s =
  on_fulfilled
    (mkSys
       (mkWorld (alter (fired args) fid (frames (world s))) rest (nextTick (world s)) []
          (EvSettle fid (Frame.cycle f) (Fulfilled (fn_body (Frame.fun_ f) args))
             :: EvCall (Frame.fun_ f) args :: log (world s)))
       (anim s)).
Proof.
  intros Hj Hq Hf Hc Hw. unfold step, task, run_tick. rewrite Hq.
  set (w0 := mkWorld _ rest _ _ _).
  rewrite (tick_callback_world fid args w0 f Hf). subst w0.
  cbn [frames rafQueue nextTick microtasks log]. rewrite Hj. cbn [app].
  destruct (fire_walking fid args f Hc Hw) as [-> ->].
  by rewrite (drain_fulfilled _ (fn_body (Frame.fun_ f) args)).
Qed.

Lemma on_fulfilled_idle s : isPlaying (anim s) = false → on_fulfilled s = s.
Proof. intros H. unfold on_fulfilled. by rewrite H. Qed.

Lemma run_jobs_idle s js : isPlaying (anim s) = false → foldl run_job s js = s.
Proof.
  intros H. induction js as [|[[] [v|r]] js IH]; simpl; [done| |done].
  by rewrite on_fulfilled_idle.
Qed.

Lemma drain_idle s : isPlaying (anim s) = false → drain s = clear_jobs s.
Proof. intros H. unfold drain. by apply run_jobs_idle. Qed.

Lemma run_tick_log w : ∃ evs, Forall quiet_event evs ∧ log (run_tick w) = evs ++ log w.
Proof.
  unfold run_tick. destruct (rafQueue w) as [|[tok [fid args]] rest]; [by exists []|].
  set (w0 := mkWorld _ rest _ _ _).
  destruct (frames w !! fid) as [f|] eqn:Hf.
  - rewrite (tick_callback_world fid args w0 f Hf). simpl. eexists. split; [|done].
    apply fire_events_quiet.
  - rewrite (tick_callback_missing fid args w0 Hf). by exists [].
Qed.

Lemma Frame_cancel_log fid w :
  ∃ evs, Forall quiet_event evs ∧ log (Frame_cancel fid w) = evs ++ log w.
Proof.
  destruct (frames w !! fid) as [f|] eqn:Hf.
  - rewrite (Frame_cancel_world _ _ _ Hf). simpl. eexists. split; [|done].
    apply cancel_events_quiet.
  - rewrite (Frame_cancel_missing _ _ Hf). by exists [].
Qed.

Lemma Frame_request_log fid args w : log (Frame_request fid args w) = log w.
Proof.
  destruct (frames w !! fid) as [f|] eqn:Hf.
  - by rewrite (Frame_request_world _ _ _ _ Hf).
  - by rewrite (Frame_request_missing _ _ _ Hf).
Qed.

(** While the animation is stopped, only [play] touches it. *)
Lemma step_idle s act :
  isPlaying (anim s) = false → act ≠ Play →
  anim (step act s) = anim s
  ∧ finishes (log (world (step act s))) = finishes (log (world s))
  ∧ requests (log (world (step act s))) = requests (log (world s)).
Proof.
  intros Hp Hact.
  assert (Ht : anim (task act s) = anim s
               ∧ ∃ evs, Forall quiet_event evs
                        ∧ log (world (task act s)) = evs ++ log (world s)).
  { destruct act; simpl; try done.
    - rewrite stop_idle by done. split; [done|]. by exists [].
    - split; [done|]. apply run_tick_log.
    - split; [done|]. exists []. split; [done|]. apply Frame_request_log.
    - split; [done|]. apply Frame_cancel_log. }
  destruct Ht as (Ha & evs & Hq & Hl).
  unfold step. rewrite drain_idle by by rewrite Ha. simpl.
  by rewrite Ha, Hl, finishes_quiet, requests_quiet.
Qed.





(** ** Frame.request *)

(** C8 (as amended). [request] registers exactly one callback with the
    scheduler and cancels none: callbacks of earlier requests stay queued.
    The frame keeps track of the new token and a fresh pending future only;
    the future it held before is set aside and nothing that happens later
    changes it. A callback of an earlier request that fires afterwards
    still calls the wrapped function, with its own arguments, and settles
    the new future. *)
Theorem Frame_request_spec (s : Sys) (fid : nat) (f : Frame.t) (args : list Val) :
  frames (world s) !! fid = Some f →
  let w' := Frame_request fid args (world s) in
  let f' := Frame.mk (Frame.fun_ f) (Some PromiseDefer) (Some (nextTick (world s)))
              false (Frame.replaced f ++ option_list (Frame.defer f)) in
  rafQueue w' = rafQueue (world s) ++ [(nextTick (world s), (fid, args))]
  ∧ frames w' !! fid = Some f'
  ∧ (∀ fid', fid' ≠ fid → frames w' !! fid' = frames (world s) !! fid')
  ∧ (∀ args0,
       tick_callback fid args0 w' =
       mkWorld
         (<[fid := Frame.mk (Frame.fun_ f)
                     (Some (mkDeferred (Some (Fulfilled (fn_body (Frame.fun_ f) args0))) []))
                     (Some (nextTick (world s))) false (Frame.replaced f')]> (frames w'))
         (rafQueue w') (nextTick w') (microtasks (world s))
         (EvSettle fid (Frame.cycle f') (Fulfilled (fn_body (Frame.fun_ f) args0))
            :: EvCall (Frame.fun_ f) args0 :: log (world s)))
  ∧ (∀ acts, ∃ f'',
       frames (world (run acts (mkSys w' (anim s)))) !! fid = Some f''
       ∧ Frame.replaced f' `prefix_of` Frame.replaced f'').
Proof.
  intros Hf w' f'. pose proof (lookup_lt_Some _ _ _ Hf) as Hlt.
  assert (Hw' : w' = mkWorld (<[fid := f']> (frames (world s)))
                  (rafQueue (world s) ++ [(nextTick (world s), (fid, args))])
                  (Pos.succ (nextTick (world s))) (microtasks (world s)) (log (world s))).
  { subst w'. by rewrite (Frame_request_unfold _ _ _ Hf). }
  assert (Hf' : frames w' !! fid = Some f').
  { rewrite Hw'. by apply list_lookup_insert_eq. }
  split_and!.
  - by rewrite Hw'.
  - done.
  - intros fid' Hne. rewrite Hw'. by apply list_lookup_insert_ne.
  - intros args0.
    rewrite (tick_callback_pending w' fid f' PromiseDefer args0 Hf' eq_refl eq_refl eq_refl).
    rewrite Hw'. simpl. by rewrite app_nil_r.
  - intros acts.
    exact (run_keeps_replaced acts (mkSys w' (anim s)) fid f' Hf').
Qed.

Lemma Frame_request_spec_witness :
  rafQueue (Frame_request 0 [VNumber 2] (requestFrame f_demo [] empty_world).2)
  = [(1%positive, (0, [])); (2%positive, (0, [VNumber 2]))].
Proof.
  exact (proj1
    (Frame_request_spec (mkSys (requestFrame f_demo [] empty_world).2 anim_demo) 0
       (Frame.mk f_demo (Some PromiseDefer) (Some 1%positive) false [])
       [VNumber 2] eq_refl)).
Defined.

(** C8 as stated fails: after two requests the scheduler holds two callbacks
    of the same frame. *)
Lemma request_twice_two_in_flight :
  ¬ (length
       (in_flight 0
          (Frame_request 0 [VNumber 2]
             (Frame_request 0 [VNumber 1] (new_Frame f_demo empty_world).2))) ≤ 1).
Proof. vm_compute. lia. Qed.

(** ** requestFrame *)

(** C9 as stated fails: an argument given to [requestFrame] does not reach
    the function. *)
Lemma requestFrame_drops_arguments :
  ¬ (EvCall f_demo [VNumber 7]
       ∈ log (run_tick (requestFrame f_demo [VNumber 7] empty_world).2)).
Proof.
  vm_compute. intros H.
  apply elem_of_cons in H as [H|H]; [discriminate H|].
  apply elem_of_cons in H as [H|H]; [discriminate H|].
  by apply elem_of_nil in H.
Qed.

Lemma requestFrame_spec_witness :
  log (run_tick (requestFrame f_demo [VNumber 7] empty_world).2)
  = [EvSettle 0 0 (Fulfilled (fn_body f_demo [])); EvCall f_demo []].
Proof.
  exact (proj2 (proj2 (proj2 (proj2 (proj2
    (requestFrame_spec empty_world f_demo [VNumber 7])))) eq_refl)).
Defined.

(** ** getBezier and the constructor *)

(** C1 (the code departs from it). With the easing library loaded,
    [getBezier] looks nothing up: every string and every array resolves to
    nothing, a named curve the library has ("linear") and an array of four
    numbers included; a function resolves to itself and any other value to
    nothing. The lookup and the cubic-bezier construction sit in the branch
    taken only when the library is missing. *)
Theorem getBezier_with_library (lib : BezierLib) :
  (∀ name, getBezier (Some lib) (TString name) = Normal None)
  ∧ (∀ points, getBezier (Some lib) (TArray points) = Normal None)
  ∧ (∀ f, getBezier (Some lib) (TFunction f) = Normal (Some f))
  ∧ getBezier (Some lib) TOther = Normal None
  ∧ (is_Some (named lib_demo "linear")
     ∧ getBezier (Some lib_demo) (TString "linear") = Normal None)
  ∧ getBezier (Some lib_demo) (TArray [0; 0; 1; 1]%Q) = Normal None.
Proof. split_and!; first [done | by eexists]. Qed.



(** ** play on an empty queue *)




(** ** The queue builder, tick by tick *)

Lemma frameCount_scale (duration : Q) : (duration / INTERVAL == duration * (3 # 50))%Q.
Proof. unfold INTERVAL, FPS. field. Qed.


Lemma frameCount_nonpos (duration : Q) : (duration <= 0)%Q → (duration / INTERVAL <= 0)%Q.
Proof. intros H. rewrite frameCount_scale. lra. Qed.


Lemma for_loop_ge o frameCount framePercent i b :
  (frameCount <= inject_Z i)%Q → for_loop o frameCount framePercent i b = b.
Proof.
  intros Hge. rewrite for_loop_equation_1.
  destruct (Qlt_le_dec (inject_Z i) frameCount) as [Hlt|?]; [|done].
  exfalso. by apply (Qlt_not_le _ _ Hlt).
Qed.




Lemma for_loop_ok o frameCount i b :
  building_ok o b → building_ok o (for_loop o frameCount (1 / frameCount) i b).
Proof.
  funelim (for_loop o frameCount (1 / frameCount) i b); intros Hok; [|done].
  apply H. by apply loop_body_spec.
Qed.





Lemma building_ok_start (o : gmap nat FrameVal) (w : World) :
  (∀ key fid, o !! key = Some (VFrame fid) → fid < length (frames w)) →
  building_ok o (mkBuilding (Object_keys o) [] w).
Proof.
  intros Hv. split_and!; simpl; [|set_solver|done].
  intros k. apply Object_keys_elem.
Qed.







(** X4. With a duration of zero or less the loop body never runs: the queue
    is empty whatever [frames] holds, and no frame is constructed. *)
Theorem getFrameQueue_nonpositive (duration : Q) (fr : FramesArg) (w : World) :
  (duration <= 0)%Q → getFrameQueue duration fr w = ([], w).
Proof.
  intros Hd. unfold getFrameQueue.
  rewrite for_loop_ge; [done|]. by apply frameCount_nonpos.
Qed.

Lemma getFrameQueue_nonpositive_witness :
  getFrameQueue 0 (FramesFunction f_demo) empty_world = ([], empty_world).
Proof. apply (getFrameQueue_nonpositive 0). discriminate. Defined.

(** *** Keys the last tick does not reach *)




Lemma filter_every {A} (P : A → Prop) `{!∀ x, Decision (P x)} (l : list A) :
  Forall P l → filter P l = l.
Proof.
  induction 1 as [|x l Hx _ IH]; [done|]. rewrite filter_cons_True by done. by f_equal.
Qed.






(** ** The constructor *)

(** X5. The constructor only builds: whether it returns or throws, it adds
    freshly constructed frames to the world and touches nothing else (no
    callback is registered with the scheduler, no job queued, no function
    called), and an animation it returns is not playing, stands at index 0,
    holds no completion handle and has the queue of [getFrameQueue]. *)
Theorem animation_is_passive Bezier (duration : Q) (tf : TimingArg) (fr : FramesArg)
    (w : World) :
  grown w (animation Bezier duration tf fr w).1
  ∧ match (animation Bezier duration tf fr w).2 with
    | Normal a =>
      isPlaying a = false ∧ frameIndex a = 0 ∧ defer a = None ∧ finished a = []
      ∧ frameQueue a = (getFrameQueue duration fr w).1
      ∧ timingFunction a = tf
    | Throw _ => True
    end.
Proof.
  pose proof (grown_getFrameQueue duration fr w) as Hg.
  unfold animation. destruct (getFrameQueue duration fr w) as [q w1]. simpl in Hg.
  destruct (getBezier Bezier tf) as [[b|]|e] eqn:Hb; simpl; done.
Qed.

(** ** A walk from start to end *)

Lemma request_world s F f :
  timingFunction (anim s) = TFunction (bezier (anim s)) →
  frameQueue (anim s) !! frameIndex (anim s) = Some F →
  frames (world s) !! F = Some f →
  request s =
  Normal
    (mkSys
       (mkWorld
          (alter (reacting RWalk ∘ requested (nextTick (world s))) F (frames (world s)))
          (rafQueue (world s)
             ++ [(nextTick (world s), (F, args_at (anim s) (frameIndex (anim s))))])
          (Pos.succ (nextTick (world s))) (microtasks (world s))
          (EvRequest (frameIndex (anim s)) F
             (Frame.cycle (requested (nextTick (world s)) f))
             (args_at (anim s) (frameIndex (anim s)))
             :: log (world s)))
       (anim s)).
Proof.
  intros Ht Hq Hf. rewrite (request_Normal s F _ Ht Hq).
  fold (args_at (anim s) (frameIndex (anim s))).
  rewrite (Frame_request_then_world _ _ _ _ _ Hf), (Frame_request_world _ _ _ _ Hf).
  cbn [frames]. rewrite list_lookup_alter_eq, Hf. done.
Qed.

Lemma fun_alter_lookup (g : Frame.t → Frame.t) (fid x : nat) (fs : list Frame.t) :
  (∀ f, Frame.fun_ (g f) = Frame.fun_ f) →
  Frame.fun_ <$> alter g fid fs !! x = Frame.fun_ <$> fs !! x.
Proof.
  intros Hg. destruct (decide (x = fid)) as [->|Hne].
  - rewrite list_lookup_alter_eq. destruct (fs !! fid); simpl; [|done]. by rewrite Hg.
  - by rewrite list_lookup_alter_ne.
Qed.

Lemma fun_fired args f : Frame.fun_ (fired args f) = Frame.fun_ f.
Proof. unfold fired. by destruct (Frame.isCancel f). Qed.

Lemma walk_pending_requested (w : World) (a : Animation) (F : nat) (f : Frame.t)
    (g : list Event) :
  isPlaying a = true →
  frameQueue a !! frameIndex a = Some F →
  frames w !! F = Some f →
  rafQueue w = [] →
  walk_pending
    (mkSys
       (mkWorld (alter (reacting RWalk ∘ requested (nextTick w)) F (frames w))
          (rafQueue w ++ [(nextTick w, (F, args_at a (frameIndex a)))])
          (Pos.succ (nextTick w)) (microtasks w) g)
       a).
Proof.
  intros Hp Hq Hf Hr. split; [done|]. cbn [world anim rafQueue frames].
  exists (nextTick w), F, (reacting RWalk (requested (nextTick w) f)).
  rewrite Hr. split_and!; try done.
  - by rewrite list_lookup_alter_eq, Hf.
  - apply walking_reacting_requested.
Qed.

(** A tick of the walk before the last frame: the function of the current
    frame is called and the next frame requested. *)
Lemma tick_advances s :
  invariant s → walk_pending s → queue_stored s →
  frameIndex (anim s) + 1 < length (frameQueue (anim s)) →
  ∃ fid f,
    frameQueue (anim s) !! frameIndex (anim s) = Some fid
    ∧ frames (world s) !! fid = Some f
    ∧ walk_pending (step Tick s)
    ∧ anim (step Tick s)
      = set_anim s (defer (anim s)) (frameIndex (anim s) + 1) true (finished (anim s))
    ∧ calls (log (world (step Tick s)))
      = (Frame.fun_ f, args_at (anim s) (frameIndex (anim s))) :: calls (log (world s))
    ∧ finishes (log (world (step Tick s))) = finishes (log (world s))
    ∧ (requests (log (world (step Tick s)))).*1.*1
      = (frameIndex (anim s) + 1) :: (requests (log (world s))).*1.*1
    ∧ (∀ x, fun_of (world (step Tick s)) x = fun_of (world s) x).
Proof.
  intros Hinv (Hp & tok & fid & f & Hq & Hcur & Hf & Htok & Hc & Hw) Hst Hlt.
  exists fid, f. split; [done|]. split; [done|].
  rewrite (step_Tick_awaited s tok fid _ [] f (inv_jobs s Hinv) Hq Hf Hc Hw).
  unfold on_fulfilled. cbn [world anim]. rewrite Hp. cbn [negb].
  destruct (decide _) as [Hlast|_]; [lia|].
  set (args := args_at (anim s) (frameIndex (anim s))).
  set (w1 := mkWorld _ [] _ [] _).
  set (a1 := set_anim _ _ _ _ _).
  destruct (lookup_lt_is_Some_2 _ _ Hlt) as [F' HF'].
  assert (HF'' : F' < length (frames w1)).
  { subst w1. cbn [frames]. rewrite length_alter.
    by apply (Forall_lookup_1 _ _ _ _ Hst HF'). }
  apply lookup_lt_is_Some_2 in HF'' as [f' Hf'].
  assert (Ht : timingFunction a1 = TFunction (bezier a1)).
  { apply (st_timing _ _ _ (inv_steady s Hinv)). }
  rewrite (request_world (mkSys w1 a1) F' f' Ht HF' Hf').
  cbn [world anim]. split_and!.
  - by apply (walk_pending_requested w1 a1 F' f').
  - done.
  - done.
  - done.
  - done.
  - intros x. unfold fun_of. subst w1. cbn [frames world].
    rewrite fun_alter_lookup by done. apply fun_alter_lookup, fun_fired.
Qed.

(** The tick of the last frame: its function is called and the handle
    resolved with FINISH. *)
Lemma tick_finishes s :
  invariant s → walk_pending s →
  frameIndex (anim s) + 1 = length (frameQueue (anim s)) →
  ∃ fid f d,
    frameQueue (anim s) !! frameIndex (anim s) = Some fid
    ∧ frames (world s) !! fid = Some f
    ∧ defer (anim s) = Some d ∧ settled d = None
    ∧ anim (step Tick s)
      = set_anim s None (frameIndex (anim s)) false
          (finished (anim s)
             ++ [mkDeferred (Some (Fulfilled (VString "FINISH"))) (reactions d)])
    ∧ rafQueue (world (step Tick s)) = []
    ∧ calls (log (world (step Tick s)))
      = (Frame.fun_ f, args_at (anim s) (frameIndex (anim s))) :: calls (log (world s))
    ∧ finishes (log (world (step Tick s)))
      = length (finished (anim s)) :: finishes (log (world s))
    ∧ requests (log (world (step Tick s))) = requests (log (world s))
    ∧ (∀ x, fun_of (world (step Tick s)) x = fun_of (world s) x).
Proof.
  intros Hinv (Hp & tok & fid & f & Hq & Hcur & Hf & Htok & Hc & Hw) Hlast.
  destruct (inv_defer s Hinv Hp) as [d Hd].
  pose proof (st_pending _ _ _ (inv_steady s Hinv) d Hd) as Hpend.
  exists fid, f, d. split_and!; try done;
    rewrite (step_Tick_awaited s tok fid _ [] f (inv_jobs s Hinv) Hq Hf Hc Hw);
    unfold on_fulfilled; cbn [world anim]; rewrite Hp; cbn [negb];
    (destruct (decide _) as [_|Hn]; [|lia]); rewrite Hd; try done.
  - cbn [anim]. unfold settle. by rewrite Hpend.
  - intros x. unfold fun_of. cbn [world frames emit]. apply fun_alter_lookup, fun_fired.
Qed.

(** [play] on a paused animation with nothing scheduled. *)
Lemma play_starts s F f :
  invariant s → isPlaying (anim s) = false → rafQueue (world s) = [] →
  frameQueue (anim s) !! frameIndex (anim s) = Some F →
  frames (world s) !! F = Some f →
  walk_pending (step Play s)
  ∧ anim (step Play s)
    = set_anim s (match defer (anim s) with
                  | None => Some PromiseDefer
                  | Some d => Some d
                  end) (frameIndex (anim s)) true (finished (anim s))
  ∧ calls (log (world (step Play s))) = calls (log (world s))
  ∧ finishes (log (world (step Play s))) = finishes (log (world s))
  ∧ (requests (log (world (step Play s)))).*1.*1
    = frameIndex (anim s) :: (requests (log (world s))).*1.*1
  ∧ (∀ x, fun_of (world (step Play s)) x = fun_of (world s) x).
Proof.
  intros Hinv Hp Hr Hq Hf. unfold step, task, play. rewrite Hp.
  set (d' := match defer (anim s) with None => Some PromiseDefer | Some d => Some d end).
  set (a1 := set_anim s d' (frameIndex (anim s)) true (finished (anim s))).
  assert (Ht : timingFunction a1 = TFunction (bezier a1)).
  { apply (st_timing _ _ _ (inv_steady s Hinv)). }
  rewrite (request_world (mkSys (world s) a1) F f Ht Hq Hf). cbn [fst world anim].
  rewrite drain_nil by (cbn [world microtasks]; apply (inv_jobs s Hinv)).
  cbn [world anim]. split_and!; try done.
  - by apply (walk_pending_requested (world s) a1 F f).
  - intros x. unfold fun_of. cbn [frames]. by apply fun_alter_lookup.
Qed.

Lemma fun_of_stored w x : x < length (frames w) ↔ is_Some (fun_of w x).
Proof. unfold fun_of. rewrite fmap_is_Some. symmetry. apply lookup_lt_is_Some. Qed.

Lemma queue_stored_same s s' :
  queue_stored s → frameQueue (anim s') = frameQueue (anim s) →
  (∀ x, fun_of (world s') x = fun_of (world s) x) → queue_stored s'.
Proof.
  intros Hst Hq Hfun. unfold queue_stored. rewrite Hq.
  eapply Forall_impl; [exact Hst|]. intros fid Hin. cbn beta in *.
  apply fun_of_stored. rewrite Hfun. by apply fun_of_stored.
Qed.

(** From a pending walk, as many ticks as frames remain call the function
    of each remaining frame in turn and resolve the handle with FINISH. *)
Lemma ride_to_end (n : nat) (s : Sys) :
  invariant s → walk_pending s → queue_stored s →
  frameIndex (anim s) + S n = length (frameQueue (anim s)) →
  isPlaying (anim (run (repeat Tick (S n)) s)) = false
  ∧ frameIndex (anim (run (repeat Tick (S n)) s)) = length (frameQueue (anim s)) - 1
  ∧ defer (anim (run (repeat Tick (S n)) s)) = None
  ∧ same_setup (anim s) (anim (run (repeat Tick (S n)) s))
  ∧ (∃ d, defer (anim s) = Some d ∧ settled d = None
        ∧ finished (anim (run (repeat Tick (S n)) s))
          = finished (anim s)
              ++ [mkDeferred (Some (Fulfilled (VString "FINISH"))) (reactions d)])
  ∧ rafQueue (world (run (repeat Tick (S n)) s)) = []
  ∧ finishes (log (world (run (repeat Tick (S n)) s)))
    = length (finished (anim s)) :: finishes (log (world s))
  ∧ (requests (log (world (run (repeat Tick (S n)) s)))).*1.*1
    = rev (seq (frameIndex (anim s) + 1) n) ++ (requests (log (world s))).*1.*1
  ∧ (∃ cs,
       calls (log (world (run (repeat Tick (S n)) s))) = rev cs ++ calls (log (world s))
       ∧ length cs = S n
       ∧ ∀ j fid, frameQueue (anim s) !! (frameIndex (anim s) + j) = Some fid →
           ∃ fn, fun_of (world s) fid = Some fn
                 ∧ cs !! j = Some (fn, args_at (anim s) (frameIndex (anim s) + j)))
  ∧ (∀ x, fun_of (world (run (repeat Tick (S n)) s)) x = fun_of (world s) x).
Proof.
  revert s. induction n as [|n IH]; intros s Hinv Hwp Hst Hlen.
  - destruct (tick_finishes s Hinv Hwp) as
      (fid & f & d & Hq & Hf & Hd & Hpend & Ha & Hr & Hc & Hfin & Hreq & Hfun); [lia|].
    cbn [repeat run foldl]. rewrite Ha. cbn [set_anim isPlaying frameIndex defer finished].
    split_and!; try done.
    + lia.
    + eauto.
    + by rewrite Hreq.
    + exists [(Frame.fun_ f, args_at (anim s) (frameIndex (anim s)))].
      split; [done|]. split; [done|]. intros j fid' Hj.
      assert (j = 0) as ->.
      { apply lookup_lt_Some in Hj. lia. }
      rewrite Nat.add_0_r in Hj |- *. rewrite Hq in Hj. injection Hj as <-.
      exists (Frame.fun_ f). split; [|done]. unfold fun_of. by rewrite Hf.
  - destruct (tick_advances s Hinv Hwp Hst) as
      (fid & f & Hq & Hf & Hwp1 & Ha & Hc & Hfin & Hreq & Hfun); [lia|].
    set (s1 := step Tick s) in *.
    assert (Hsetup : same_setup (anim s) (anim s1)) by by rewrite Ha.
    assert (Hargs : ∀ idx, args_at (anim s1) idx = args_at (anim s) idx) by by rewrite Ha.
    assert (Hq1 : frameQueue (anim s1) = frameQueue (anim s)) by by rewrite Ha.
    assert (Hi1 : frameIndex (anim s1) = frameIndex (anim s) + 1) by by rewrite Ha.
    destruct (IH s1) as
      (Hp' & Hi' & Hd' & Hs' & (d & Hd1 & Hpend & Hfin') & Hr' & Hfs' & Hrq' & (cs & Hcs & Hlcs & Hat) & Hfun');
      [by apply invariant_step|done|by apply (queue_stored_same s)|rewrite Hq1, Hi1; lia|].
    change (run (repeat Tick (S (S n))) s) with (run (repeat Tick (S n)) s1).
    split_and!; try done.
    + by rewrite Hi', Hq1.
    + by eapply same_setup_trans.
    + exists d. rewrite Hfin'. rewrite Ha in Hd1 |- *. done.
    + rewrite Hfs', Hfin. by rewrite Ha.
    + rewrite Hrq', Hreq, Hi1. cbn [seq rev]. rewrite <- app_assoc. simpl.
      by replace (frameIndex (anim s) + 1 + 1) with (S (frameIndex (anim s) + 1)) by lia.
    + exists ((Frame.fun_ f, args_at (anim s) (frameIndex (anim s))) :: cs).
      split; [|split].
      * rewrite Hcs, Hc. cbn [rev]. by rewrite <- app_assoc.
      * simpl. by rewrite Hlcs.
      * intros [|j] fid' Hj.
        -- rewrite Nat.add_0_r in Hj |- *. rewrite Hq in Hj. injection Hj as <-.
           exists (Frame.fun_ f). split; [|done]. unfold fun_of. by rewrite Hf.
        -- destruct (Hat j fid') as (fn & Hfn & Hl).
           { rewrite Hq1, Hi1. rewrite <- Hj. f_equal. lia. }
           exists fn. split; [by rewrite <- Hfun|].
           simpl. rewrite Hl, Hargs, Hi1. do 3 f_equal. lia.
    + intros x. by rewrite Hfun', Hfun.
Qed.

(** ** How a task moves the index *)

Lemma set_anim_id s :
  anim s = set_anim s (defer (anim s)) (frameIndex (anim s)) (isPlaying (anim s))
             (finished (anim s)).
Proof. by destruct s as [w []]. Qed.

(** A task leaves index and finished handles alone, or moves on to the next
    frame of the queue, or resolves the handle at the last frame. *)
Lemma step_anim s act :
  invariant s →
  (∃ d p, anim (step act s) = set_anim s d (frameIndex (anim s)) p (finished (anim s)))
  ∨ (frameIndex (anim s) + 1 < length (frameQueue (anim s))
     ∧ anim (step act s)
       = set_anim s (defer (anim s)) (frameIndex (anim s) + 1) true (finished (anim s)))
  ∨ (frameIndex (anim s) + 1 = length (frameQueue (anim s))
     ∧ ∃ d, anim (step act s)
            = set_anim s None (frameIndex (anim s)) false (finished (anim s) ++ [d])).
Proof.
  intros Hinv. pose proof Hinv as [Hst Hj Hw Hc Hd].
  assert (Hsame : ∀ s', anim s' = anim s →
    ∃ d p, anim s' = set_anim s d (frameIndex (anim s)) p (finished (anim s))).
  { intros s' ->. eexists _, _. apply set_anim_id. }
  destruct act.
  - (* play *)
    left. unfold step, task, play. destruct (isPlaying (anim s)) eqn:Hp.
    { rewrite drain_nil by done. by apply Hsame. }
    set (d' := match defer (anim s) with None => Some PromiseDefer | Some d => Some d end).
    set (s1 := mkSys (world s) (set_anim s d' (frameIndex (anim s)) true (finished (anim s)))).
    destruct (frameQueue (anim s) !! frameIndex (anim s)) as [F|] eqn:Hq.
    + destruct (request_invariant s1 F) as (s' & gen & Hr & Hinv' & Ha & _); try done.
      * apply (steady_same _ _ (anim s)); try done.
        intros d. simpl. subst d'. destruct (defer (anim s)) as [d0|] eqn:E.
        -- intros [= <-]. exact (st_pending _ _ _ Hst d0 E).
        -- intros Hx. injection Hx as Hx. by rewrite <- Hx.
      * by apply (invariant_idle_calm s).
      * simpl. subst d'. destruct (defer (anim s)); eauto.
      * rewrite Hr. cbn [fst]. rewrite drain_nil by apply (inv_jobs s' Hinv').
        rewrite Ha. eauto.
    + rewrite (request_Throw s1) by done. cbn [fst]. rewrite drain_nil by done. eauto.
  - (* stop *)
    left. rewrite step_Stop by done. cbn [clear_jobs anim].
    destruct (isPlaying (anim s)) eqn:Hp.
    + destruct (stop_playing s Hp) as [-> _]. eauto.
    + rewrite stop_idle by done. by apply Hsame.
  - (* tick *)
    unfold step, task, run_tick.
    destruct (rafQueue (world s)) as [|[tok [fid args]] rest] eqn:Hq0.
    { left. rewrite drain_nil by done. by apply Hsame. }
    set (w0 := mkWorld _ rest _ _ _).
    destruct (frames (world s) !! fid) as [f|] eqn:Hf.
    2:{ left. rewrite (tick_callback_missing fid args w0 Hf). rewrite drain_nil by done.
        by apply Hsame. }
    rewrite (tick_callback_world fid args w0 f Hf). subst w0.
    cbn [frames rafQueue nextTick microtasks log]. rewrite Hj. cbn [app].
    pose proof (st_shaped _ _ _ Hst fid f Hf) as Hsh.
    assert (Hcase : (Frame.isCancel f = false ∧ walking f)
                    ∨ ¬ (Frame.isCancel f = false ∧ walking f)).
    { destruct (Frame.isCancel f); [right; by intros [? _]|].
      destruct (pending_reactions_shaped f Hsh) as [[_ ?]|[_ ?]]; [right|left]; tauto. }
    destruct Hcase as [[Hcf Hwf]|Hn].
    + destruct (fire_walking fid args f Hcf Hwf) as [Hjobs _].
      rewrite Hjobs. rewrite (drain_fulfilled _ (fn_body (Frame.fun_ f) args)) by done.
      unfold clear_jobs. cbn [world anim frames rafQueue nextTick microtasks log].
      destruct (Hw fid f Hf Hwf) as (Hp & Hq & _).
      pose proof (lookup_lt_Some _ _ _ Hq) as Hlt.
      unfold on_fulfilled. cbn [world anim]. rewrite Hp. cbn [negb].
      destruct (decide _) as [Hlast|Hlast].
      * right. right. split; [lia|]. destruct (Hd Hp) as [d Hdef]. rewrite Hdef.
        cbn [anim]. eauto.
      * right. left. split; [lia|].
        destruct (request _) as [s2|e] eqn:Hr; [|done].
        by rewrite (request_anim _ _ Hr).
    + left. rewrite (fire_not_walking args f Hsh Hn). rewrite drain_nil by done.
      by apply Hsame.
  - (* a request of the user *)
    left. unfold step, task.
    rewrite drain_nil by (cbn [world]; rewrite <- Hj;
      destruct (frames (world s) !! fid) as [f|] eqn:Hf;
      [by rewrite (Frame_request_world _ _ _ _ Hf)
      |by rewrite (Frame_request_missing _ _ _ Hf)]).
    by apply Hsame.
  - (* a cancel of the user *)
    left. unfold step, task.
    destruct (Frame_cancel_jobs fid (world s)) as [rs Hrs].
    rewrite (drain_rejections _ rs (VString "CANCEL")) by (cbn [world]; by rewrite Hrs, Hj).
    by apply Hsame.
Qed.

Lemma index_step (a a' : Animation) :
  (frameIndex a < length (frameQueue a) ∨ frameIndex a = 0) →
  (finished a ≠ [] → frameIndex a + 1 = length (frameQueue a)) →
  frameQueue a' = frameQueue a →
  (frameIndex a' = frameIndex a ∧ finished a' = finished a)
  ∨ (frameIndex a + 1 < length (frameQueue a)
     ∧ frameIndex a' = frameIndex a + 1 ∧ finished a' = finished a)
  ∨ (frameIndex a + 1 = length (frameQueue a) ∧ frameIndex a' = frameIndex a) →
  (frameIndex a' < length (frameQueue a') ∨ frameIndex a' = 0)
  ∧ (finished a' ≠ [] → frameIndex a' + 1 = length (frameQueue a')).
Proof.
  intros Hb Hf Hq. rewrite Hq.
  intros [[-> ->]|[(Hlt & -> & ->)|[Hlast ->]]].
  - done.
  - split; [lia|]. intros Hne. specialize (Hf Hne). lia.
  - split; [lia|done].
Qed.

Lemma step_index s act :
  invariant s →
  frameQueue (anim (step act s)) = frameQueue (anim s)
  ∧ ((frameIndex (anim (step act s)) = frameIndex (anim s)
      ∧ finished (anim (step act s)) = finished (anim s))
     ∨ (frameIndex (anim s) + 1 < length (frameQueue (anim s))
        ∧ frameIndex (anim (step act s)) = frameIndex (anim s) + 1
        ∧ finished (anim (step act s)) = finished (anim s))
     ∨ (frameIndex (anim s) + 1 = length (frameQueue (anim s))
        ∧ frameIndex (anim (step act s)) = frameIndex (anim s))).
Proof.
  intros Hinv.
  destruct (step_anim s act Hinv) as [(d & p & ->)|[[Hlt ->]|[Hlast [d ->]]]];
    (split; [done|]); [left|right; left|right; right]; done.
Qed.

(** The index is inside the queue, and once a handle got FINISH it is the
    last one. *)
Lemma index_invariant Bezier duration tf fr s :
  reachable Bezier duration tf fr s →
  (frameIndex (anim s) < length (frameQueue (anim s)) ∨ frameIndex (anim s) = 0)
  ∧ (finished (anim s) ≠ [] → frameIndex (anim s) + 1 = length (frameQueue (anim s))).
Proof.
  induction 1 as [w w1 a Hq Ha|s act Hr [IH1 IH2]].
  - apply animation_Normal in Ha as (f & _ & _ & _ & ->). simpl. split; [by right|done].
  - destruct (reachable_invariant _ _ _ _ _ Hr) as [Hinv _].
    destruct (step_index s act Hinv) as [Hq Hcases].
    by apply (index_step (anim s)).
Qed.

(** *** The index *)

(** X8. The index only moves forward: no task ever lowers it, it stays
    inside the queue, and once a completion handle has been resolved with
    FINISH it is the last index; nothing resets it to the start. *)
Theorem frameIndex_never_decreases Bezier duration tf fr s acts :
  reachable Bezier duration tf fr s →
  frameIndex (anim s) ≤ frameIndex (anim (run acts s))
  ∧ (frameIndex (anim s) < length (frameQueue (anim s)) ∨ frameIndex (anim s) = 0)
  ∧ (finished (anim s) ≠ [] → frameIndex (anim s) + 1 = length (frameQueue (anim s))).
Proof.
  intros Hr. split; [|by eapply index_invariant].
  revert s Hr. induction acts as [|act acts IH]; intros s Hr; [done|].
  cbn [run foldl]. etrans; [|apply IH; by constructor].
  destruct (reachable_invariant _ _ _ _ _ Hr) as [Hinv _].
  destruct (step_index s act Hinv) as [_ [[-> _]|[(_ & -> & _)|[_ ->]]]]; lia.
Qed.

Lemma frameIndex_never_decreases_witness :
  frameIndex (anim (run [Play; Tick; Tick; Tick] start_demo))
    ≤ frameIndex (anim (run [Play; Tick] (run [Play; Tick; Tick; Tick] start_demo)))
  ∧ (frameIndex (anim (run [Play; Tick; Tick; Tick] start_demo))
       < length (frameQueue (anim (run [Play; Tick; Tick; Tick] start_demo)))
     ∨ frameIndex (anim (run [Play; Tick; Tick; Tick] start_demo)) = 0)
  ∧ (finished (anim (run [Play; Tick; Tick; Tick] start_demo)) ≠ [] →
       frameIndex (anim (run [Play; Tick; Tick; Tick] start_demo)) + 1
       = length (frameQueue (anim (run [Play; Tick; Tick; Tick] start_demo)))).
Proof.
  apply (frameIndex_never_decreases (Some lib_demo) 50 (TFunction ease_demo)
           (FramesFunction f_demo)).
  apply reachable_run, reachable_start_demo.
Defined.

(** ** The queue and the store *)

Lemma queue_stored_step s act : queue_stored s → queue_stored (step act s).
Proof.
  intros Hst. destruct (step_facts s act) as [(Hq & _) Hk].
  unfold queue_stored. rewrite Hq. eapply Forall_impl; [exact Hst|].
  intros fid Hlt. cbn beta in *.
  apply lookup_lt_is_Some_2 in Hlt as [f Hf].
  destruct (Hk fid f Hf) as (f' & Hf' & _). by eapply lookup_lt_Some.
Qed.

(** X23. Every entry of the queue refers to a frame that exists, at
    construction and ever after: when the Frame instances given as frames
    exist, the queue the constructor builds holds existing frames only, and
    no task removes a frame or changes the queue. *)
Theorem queue_stays_stored Bezier (duration : Q) (tf : TimingArg) (fr : FramesArg)
    (w w1 : World) (a : Animation) (acts : list Action) :
  (∀ key fid, frames_object fr !! key = Some (VFrame fid) → fid < length (frames w)) →
  animation Bezier duration tf fr w = (w1, Normal a) →
  queue_stored (run acts (mkSys w1 a))
  ∧ frameQueue (anim (run acts (mkSys w1 a))) = frameQueue a
  ∧ length (frames w1) ≤ length (frames (world (run acts (mkSys w1 a)))).
Proof.
  intros Hv Ha. apply animation_Normal in Ha as (f & _ & _ & -> & ->).
  set (s0 := mkSys _ _).
  assert (H0 : queue_stored s0).
  { unfold queue_stored, s0, getFrameQueue. cbn [world anim frameQueue fst snd].
    pose proof (for_loop_ok (frames_object fr) (duration / INTERVAL) 0 _
                  (building_ok_start (frames_object fr) w Hv)) as (_ & Hq & _).
    apply Forall_forall. exact Hq. }
  assert (Hgen : ∀ s, queue_stored s →
    queue_stored (run acts s)
    ∧ frameQueue (anim (run acts s)) = frameQueue (anim s)
    ∧ length (frames (world s)) ≤ length (frames (world (run acts s)))).
  { clear. induction acts as [|act acts IH]; intros s Hst; [done|].
    cbn [run foldl]. fold (run acts (step act s)).
    destruct (IH (step act s) (queue_stored_step s act Hst)) as (H1 & H2 & H3).
    destruct (step_facts s act) as [(Hq & _) Hk].
    split; [done|]. split; [by rewrite H2|].
    etrans; [|exact H3].
    destruct (decide (length (frames (world s)) ≤ length (frames (world (step act s)))))
      as [|Hgt]; [done|exfalso].
    assert (Hlt : length (frames (world (step act s))) < length (frames (world s))) by lia.
    apply lookup_lt_is_Some_2 in Hlt as [f0 Hf0].
    destruct (Hk _ f0 Hf0) as (f' & Hf' & _). apply lookup_lt_Some in Hf'. lia. }
  exact (Hgen s0 H0).
Qed.

Lemma queue_stays_stored_witness :
  queue_stored (run [Play; Tick; Stop; Play] start_demo).
Proof.
  destruct (queue_stays_stored (Some lib_demo) 50 (TFunction ease_demo) (FramesFunction f_demo)
              empty_world (world start_demo) (anim start_demo) [Play; Tick; Stop; Play])
    as [H _].
  - intros key fid H. cbn [frames_object] in H.
    apply lookup_singleton_Some in H as [_ H]. discriminate H.
  - reflexivity.
  - exact H.
Defined.

(** ** Whole walks *)

(** X7. From a paused state with nothing scheduled, [play] followed by as
    many ticks as frames remain from the current index completes the walk:
    the indices from the current one to the last are requested in order,
    the handle is resolved with FINISH, and the animation ends not playing,
    on the last index, with nothing left in the scheduler. After [stop] the
    walk thus resumes at the index it was stopped on, not at the start. *)
Theorem walk_completes Bezier duration tf fr s :
  reachable Bezier duration tf fr s →
  isPlaying (anim s) = false → rafQueue (world s) = [] → queue_stored s →
  frameIndex (anim s) < length (frameQueue (anim s)) →
  let n := length (frameQueue (anim s)) - frameIndex (anim s) in
  let s' := run (Play :: repeat Tick n) s in
  isPlaying (anim s') = false
  ∧ defer (anim s') = None
  ∧ frameIndex (anim s') = length (frameQueue (anim s)) - 1
  ∧ length (finished (anim s')) = S (length (finished (anim s)))
  ∧ finishes (log (world s')) = length (finished (anim s)) :: finishes (log (world s))
  ∧ (requests (log (world s'))).*1.*1
    = rev (seq (frameIndex (anim s)) n) ++ (requests (log (world s))).*1.*1
  ∧ length (calls (log (world s'))) = n + length (calls (log (world s)))
  ∧ rafQueue (world s') = [].
Proof.
  intros Hr Hp Hq Hst Hlt n s'.
  destruct (reachable_invariant _ _ _ _ _ Hr) as [Hinv _].
  destruct (lookup_lt_is_Some_2 _ _ Hlt) as [F HF].
  pose proof (Forall_lookup_1 _ _ _ _ Hst HF) as HFs.
  apply lookup_lt_is_Some_2 in HFs as [f Hf].
  destruct (play_starts s F f Hinv Hp Hq HF Hf) as (Hwp & Ha & Hc & Hfin & Hreq & Hfun).
  set (s1 := step Play s) in *.
  assert (Hq1 : frameQueue (anim s1) = frameQueue (anim s)) by by rewrite Ha.
  assert (Hi1 : frameIndex (anim s1) = frameIndex (anim s)) by by rewrite Ha.
  assert (Hf1 : finished (anim s1) = finished (anim s)) by by rewrite Ha.
  assert (Hn : n = S (n - 1)) by lia.
  destruct (ride_to_end (n - 1) s1) as
    (Hp' & Hi' & Hd' & Hs' & (d & Hd1 & Hpend & Hfin') & Hr' & Hfs' & Hrq' & (cs & Hcs & Hlcs & _) & _);
    [by apply invariant_step|done|by apply (queue_stored_same s)|rewrite Hq1, Hi1; lia|].
  subst s'. cbn [run foldl]. fold s1. fold (run (repeat Tick n) s1).
  rewrite Hn. split_and!; try done.
  - by rewrite Hi', Hq1.
  - rewrite Hfin', Hf1, length_app. simpl. lia.
  - by rewrite Hfs', Hf1, Hfin.
  - rewrite Hrq', Hreq, Hi1. rewrite <- Hn.
    replace n with (S (n - 1)) at 2 by lia. cbn [seq rev]. rewrite <- app_assoc.
    by rewrite Nat.add_1_r.
  - rewrite Hcs, length_app, length_rev, Hlcs, Hc. lia.
Qed.

Lemma walk_completes_witness :
  isPlaying (anim (run (Play :: repeat Tick 2) (run [Play; Tick; Stop] start_demo))) = false
  ∧ frameIndex (anim (run (Play :: repeat Tick 2) (run [Play; Tick; Stop] start_demo))) = 2
  ∧ finishes (log (world (run (Play :: repeat Tick 2)
                            (run [Play; Tick; Stop] start_demo)))) = [0]
  ∧ (requests (log (world (run (Play :: repeat Tick 2)
                             (run [Play; Tick; Stop] start_demo))))).*1.*1
    = [2; 1; 1; 0].
Proof.
  destruct (walk_completes (Some lib_demo) 50 (TFunction ease_demo) (FramesFunction f_demo)
              (run [Play; Tick; Stop] start_demo))
    as (H1 & _ & H3 & _ & H5 & H6 & _).
  - apply reachable_run, reachable_start_demo.
  - reflexivity.
  - reflexivity.
  - unfold queue_stored. vm_compute. repeat constructor.
  - vm_compute. lia.
  - split; [exact H1|]. split; [exact H3|]. split; [exact H5|exact H6].
Defined.

(** X9. Replay after the end plays the last frame only: once a handle has
    been resolved with FINISH, [play] on the paused animation requests the
    last index again and the next tick resolves the new handle with FINISH,
    after a single call of a frame function. *)
Theorem replay_plays_last_frame Bezier duration tf fr s :
  reachable Bezier duration tf fr s →
  finished (anim s) ≠ [] →
  isPlaying (anim s) = false → rafQueue (world s) = [] → queue_stored s →
  (requests (log (world (run [Play; Tick] s)))).*1.*1
    = (length (frameQueue (anim s)) - 1) :: (requests (log (world s))).*1.*1
  ∧ finishes (log (world (run [Play; Tick] s)))
    = length (finished (anim s)) :: finishes (log (world s))
  ∧ length (calls (log (world (run [Play; Tick] s)))) = S (length (calls (log (world s))))
  ∧ isPlaying (anim (run [Play; Tick] s)) = false
  ∧ frameIndex (anim (run [Play; Tick] s)) = frameIndex (anim s).
Proof.
  intros Hr Hfin Hp Hq Hst.
  destruct (index_invariant _ _ _ _ _ Hr) as [_ Hlast]. specialize (Hlast Hfin).
  destruct (reachable_invariant _ _ _ _ _ Hr) as [Hinv _].
  assert (Hlt : frameIndex (anim s) < length (frameQueue (anim s))) by lia.
  destruct (lookup_lt_is_Some_2 _ _ Hlt) as [F HF].
  pose proof (Forall_lookup_1 _ _ _ _ Hst HF) as HFs.
  apply lookup_lt_is_Some_2 in HFs as [f Hf].
  destruct (play_starts s F f Hinv Hp Hq HF Hf) as (Hwp & Ha & Hc & Hfs & Hreq & Hfun).
  set (s1 := step Play s) in *.
  assert (Hq1 : frameQueue (anim s1) = frameQueue (anim s)) by by rewrite Ha.
  assert (Hi1 : frameIndex (anim s1) = frameIndex (anim s)) by by rewrite Ha.
  assert (Hf1 : finished (anim s1) = finished (anim s)) by by rewrite Ha.
  destruct (tick_finishes s1) as
    (fid & f' & d & _ & _ & _ & _ & Ha' & _ & Hc' & Hfin' & Hreq' & _);
    [by apply invariant_step|done|rewrite Hq1, Hi1; lia|].
  change (run [Play; Tick] s) with (step Tick s1).
  split_and!.
  - rewrite Hreq', Hreq. f_equal. lia.
  - by rewrite Hfin', Hfs, Hf1.
  - rewrite Hc', Hc. done.
  - by rewrite Ha'.
  - by rewrite Ha'.
Qed.

Lemma replay_plays_last_frame_witness :
  (requests (log (world (run [Play; Tick]
                           (run [Play; Tick; Tick; Tick] start_demo))))).*1.*1
    = [2; 2; 1; 0]
  ∧ finishes (log (world (run [Play; Tick]
                            (run [Play; Tick; Tick; Tick] start_demo)))) = [1; 0].
Proof.
  destruct (replay_plays_last_frame (Some lib_demo) 50 (TFunction ease_demo)
              (FramesFunction f_demo) (run [Play; Tick; Tick; Tick] start_demo))
    as (H1 & H2 & _).
  - apply reachable_run, reachable_start_demo.
  - vm_compute. discriminate.
  - reflexivity.
  - reflexivity.
  - unfold queue_stored. vm_compute. repeat constructor.
  - split; [exact H1|exact H2].
Defined.



(** ** play and stop out of turn *)

Lemma step_Play_playing s : invariant s → isPlaying (anim (step Play s)) = true.
Proof.
  intros Hinv. pose proof Hinv as [Hst Hj Hw Hc Hd].
  unfold step, task, play. destruct (isPlaying (anim s)) eqn:Hp.
  { by rewrite drain_nil. }
  set (d' := match defer (anim s) with None => Some PromiseDefer | Some d => Some d end).
  set (s1 := mkSys (world s) (set_anim s d' (frameIndex (anim s)) true (finished (anim s)))).
  destruct (frameQueue (anim s) !! frameIndex (anim s)) as [F|] eqn:Hq.
  - destruct (request_invariant s1 F) as (s' & gen & Hr & Hinv' & Ha & _); try done.
    + apply (steady_same _ _ (anim s)); try done.
      intros d. simpl. subst d'. destruct (defer (anim s)) as [d0|] eqn:E.
      * intros [= <-]. exact (st_pending _ _ _ Hst d0 E).
      * intros Hx. injection Hx as Hx. by rewrite <- Hx.
    + by apply (invariant_idle_calm s).
    + simpl. subst d'. destruct (defer (anim s)); eauto.
    + rewrite Hr. cbn [fst]. rewrite drain_nil by apply (inv_jobs s' Hinv'). by rewrite Ha.
  - rewrite (request_Throw s1) by done. cbn [fst]. by rewrite drain_nil.
Qed.

Lemma step_Play_again s :
  invariant s → isPlaying (anim s) = true → step Play s = s ∧ play s = (s, Normal tt).
Proof.
  intros Hinv Hp. unfold step, task, play. rewrite Hp. cbn [fst]. split; [|done].
  apply drain_nil, (inv_jobs s Hinv).
Qed.

(** X10. [play] on an animation that is playing does nothing and returns
    normally; in particular a second [play] in a row changes nothing, even
    when the first one threw. *)
Theorem play_twice Bezier duration tf fr s :
  reachable Bezier duration tf fr s →
  (isPlaying (anim s) = true → step Play s = s)
  ∧ step Play (step Play s) = step Play s
  ∧ play (step Play s) = (step Play s, Normal tt).
Proof.
  intros Hr. destruct (reachable_invariant _ _ _ _ _ Hr) as [Hinv _].
  split; [intros Hp; by apply step_Play_again|].
  apply step_Play_again; [by apply invariant_step|by apply step_Play_playing].
Qed.

Lemma play_twice_witness :
  step Play (step Play start_demo) = step Play start_demo
  ∧ play (step Play start_demo) = (step Play start_demo, Normal tt).
Proof.
  apply (play_twice (Some lib_demo) 50 (TFunction ease_demo) (FramesFunction f_demo)).
  apply reachable_start_demo.
Defined.

(** X11. While the animation is not playing, nothing but [play] touches the
    driver: whatever ticks fire and whatever the user requests or cancels,
    the index, the handle and the flags stay as they are, no frame is
    requested by the driver and no handle is resolved. *)
Theorem idle_until_play (s : Sys) (acts : list Action) :
  isPlaying (anim s) = false → Play ∉ acts →
  anim (run acts s) = anim s
  ∧ requests (log (world (run acts s))) = requests (log (world s))
  ∧ finishes (log (world (run acts s))) = finishes (log (world s)).
Proof.
  revert s. induction acts as [|act acts IH]; intros s Hp Hn; [done|].
  cbn [run foldl]. fold (run acts (step act s)).
  destruct (step_idle s act Hp) as (Ha & Hf & Hq).
  { intros ->. apply Hn. by left. }
  destruct (IH (step act s)) as (Ha' & Hq' & Hf'); [by rewrite Ha| |].
  { intros Hin. apply Hn. by right. }
  by rewrite Ha', Hq', Hf', Ha, Hq, Hf.
Qed.

Lemma idle_until_play_witness :
  anim (run [Tick; UserRequest 0 []; Tick; Stop] (run [Play; Tick; Stop] start_demo))
  = anim (run [Play; Tick; Stop] start_demo).
Proof.
  apply (idle_until_play (run [Play; Tick; Stop] start_demo)
           [Tick; UserRequest 0 []; Tick; Stop]).
  - reflexivity.
  - intros H. repeat (apply elem_of_cons in H as [H|H]; [discriminate H|]).
    by apply elem_of_nil in H.
Defined.

(** ** An empty queue *)

Lemma requests_none l :
  (∀ idx fid gen args, EvRequest idx fid gen args ∉ l) → requests l = [].
Proof.
  induction l as [|e l IH]; intros Hno; [done|].
  destruct e as [f args|fid gen o|idx fid gen args|h]; simpl.
  - apply IH. intros ???? Hin. eapply Hno. by right.
  - apply IH. intros ???? Hin. eapply Hno. by right.
  - exfalso. eapply Hno. by left.
  - apply IH. intros ???? Hin. eapply Hno. by right.
Qed.

(** X12. An animation with an empty queue never requests a frame and never
    resolves a handle. [play] on it throws a TypeError after it has set the
    playing flag and created the handle, and touches nothing else: the
    animation is left flagged as playing, so a further [play] returns
    silently, and the handle stays pending. *)
Theorem empty_queue_stuck Bezier duration tf fr s :
  reachable Bezier duration tf fr s →
  frameQueue (anim s) = [] →
  frameIndex (anim s) = 0
  ∧ finished (anim s) = []
  ∧ requests (log (world s)) = []
  ∧ finishes (log (world s)) = []
  ∧ (∀ d, defer (anim s) = Some d → settled d = None)
  ∧ (isPlaying (anim s) = false →
       (play s).2 = Throw TypeError
       ∧ world (play s).1 = world s
       ∧ isPlaying (anim (play s).1) = true
       ∧ is_Some (defer (anim (play s).1)))
  ∧ (isPlaying (anim s) = true → play s = (s, Normal tt)).
Proof.
  intros Hr Hq. destruct (reachable_invariant _ _ _ _ _ Hr) as [Hinv _].
  destruct (index_invariant _ _ _ _ _ Hr) as [Hb Hf]. rewrite Hq in Hb, Hf. simpl in Hb, Hf.
  pose proof (inv_steady s Hinv) as Hst.
  assert (Hi : frameIndex (anim s) = 0) by lia.
  assert (Hfin : finished (anim s) = []).
  { destruct (finished (anim s)) as [|d l] eqn:E; [done|]. exfalso.
    assert (d :: l ≠ []) as Hne by done. specialize (Hf Hne). lia. }
  split_and!; try done.
  - apply requests_none. intros idx fid gen args Hin.
    destruct (st_args _ _ _ Hst idx fid gen args Hin) as [Hl _]. by rewrite Hq in Hl.
  - by rewrite (st_finishes _ _ _ Hst), Hfin.
  - apply (st_pending _ _ _ Hst).
  - intros Hp. unfold play. rewrite Hp.
    rewrite request_Throw by (cbn [anim set_anim frameQueue frameIndex]; by rewrite Hq).
    cbn [fst snd world anim set_anim isPlaying defer]. split_and!; try done.
    destruct (defer (anim s)); eauto.
  - intros Hp. by apply step_Play_again.
Qed.

Lemma empty_queue_stuck_witness :
  (play (mkSys empty_world
           (mkAnimation None [] (1 / (0 / INTERVAL)) 0 (TFunction ease_demo) ease_demo
              false []))).2
  = Throw TypeError.
Proof.
  destruct (empty_queue_stuck None 0 (TFunction ease_demo) (FramesFunction f_demo)
              (mkSys empty_world
                 (mkAnimation None [] (1 / (0 / INTERVAL)) 0 (TFunction ease_demo)
                    ease_demo false [])))
    as (_ & _ & _ & _ & _ & H & _).
  - apply (reachable_new _ _ _ _ empty_world); [apply quiet_empty_world|reflexivity].
  - reflexivity.
  - apply H. reflexivity.
Defined.

(** ** Clones *)

(** X13. A clone shares the wrapped function and nothing else: [clone]
    constructs a fresh, never requested frame of the same function, leaves
    the original and the scheduler alone, and from then on the two are
    independent (cancelling the clone does nothing, requesting it leaves
    the original as it is, cancelling the original leaves the clone as it
    is). *)
Theorem Frame_clone_independent (w : World) (fid : nat) (f : Frame.t) :
  frames w !! fid = Some f →
  let c := length (frames w) in
  let w' := set_frames (λ fs, fs ++ [Frame.mk (Frame.fun_ f) None None false []]) w in
  Frame_clone fid w = Some (c, w')
  ∧ c ≠ fid
  ∧ frames w' !! fid = Some f
  ∧ rafQueue w' = rafQueue w
  ∧ Frame_cancel c w' = w'
  ∧ (∀ args, frames (Frame_request c args w') !! fid = Some f)
  ∧ frames (Frame_cancel fid w') !! c = Some (Frame.mk (Frame.fun_ f) None None false [])
  ∧ (∀ args, frames (Frame_request fid args w') !! c
             = Some (Frame.mk (Frame.fun_ f) None None false [])).
Proof.
  intros Hf c w'. pose proof (lookup_lt_Some _ _ _ Hf) as Hlt.
  assert (Hc : frames w' !! c = Some (Frame.mk (Frame.fun_ f) None None false [])).
  { subst w' c. cbn [set_frames frames]. by rewrite lookup_app_r, Nat.sub_diag. }
  assert (Hf' : frames w' !! fid = Some f).
  { subst w'. cbn [set_frames frames]. by rewrite lookup_app_l. }
  assert (Hne : c ≠ fid) by (subst c; lia).
  split_and!; try done.
  - unfold Frame_clone. by rewrite Hf.
  - unfold Frame_cancel. by rewrite Hc.
  - intros args. rewrite Frame_request_frames. by rewrite list_lookup_alter_ne.
  - rewrite Frame_cancel_frames. by rewrite list_lookup_alter_ne.
  - intros args. rewrite Frame_request_frames. by rewrite list_lookup_alter_ne.
Qed.

Lemma Frame_clone_independent_witness :
  Frame_clone 0 (Frame_request 0 [] (new_Frame f_demo empty_world).2)
  = Some (1, set_frames (λ fs, fs ++ [Frame.mk f_demo None None false []])
               (Frame_request 0 [] (new_Frame f_demo empty_world).2)).
Proof.
  destruct (Frame_clone_independent (Frame_request 0 [] (new_Frame f_demo empty_world).2) 0
              (Frame.mk f_demo (Some PromiseDefer) (Some 1%positive) false []))
    as [H _].
  - reflexivity.
  - exact H.
Defined.

(** ** The percent handed to the frames *)



(** ** Cancelling the frame the walk waits for *)

Lemma cancel_awaited_world (w : World) (tok : positive) (fid : nat) (args : list Val)
    (f : Frame.t) :
  rafQueue w = [(tok, (fid, args))] → frames w !! fid = Some f →
  Frame.tick f = Some tok → walking f →
  Frame_cancel fid w
  = mkWorld (alter cancelled fid (frames w)) [] (nextTick w)
      (microtasks w ++ [(RWalk, Rejected (VString "CANCEL"))])
      (EvSettle fid (Frame.cycle f) (Rejected (VString "CANCEL")) :: log w).
Proof.
  intros Hq Hf Htok Hw. rewrite (Frame_cancel_world _ _ _ Hf).
  destruct (walking_awaiting f Hw) as [Ha Hp].
  unfold cancel_queue, cancel_jobs, cancel_events, settle_jobs, settle_events.
  rewrite Htok, Ha, Hp, Hq. f_equal.
  rewrite filter_cons_False; [done|]. simpl. tauto.
Qed.

Lemma tick_nothing s :
  rafQueue (world s) = [] → microtasks (world s) = [] → step Tick s = s.
Proof.
  intros Hq Hj. unfold step, task, run_tick. rewrite Hq.
  rewrite drain_nil by done. by destruct s.
Qed.

Lemma ticks_nothing s n :
  rafQueue (world s) = [] → microtasks (world s) = [] → run (repeat Tick n) s = s.
Proof.
  intros Hq Hj. induction n as [|n IH]; [done|].
  cbn [repeat run foldl]. rewrite tick_nothing by done. exact IH.
Qed.

(** X15. [stop] during a walk whose tick is the only one scheduled takes
    that tick from the scheduler: afterwards the scheduler is empty, ticks
    change nothing at all, and no frame function is called until [play] is
    called again. *)
Theorem stop_silences Bezier duration tf fr s :
  reachable Bezier duration tf fr s → walk_pending s →
  isPlaying (anim (step Stop s)) = false
  ∧ frameIndex (anim (step Stop s)) = frameIndex (anim s)
  ∧ rafQueue (world (step Stop s)) = []
  ∧ calls (log (world (step Stop s))) = calls (log (world s))
  ∧ ∀ n, run (repeat Tick n) (step Stop s) = step Stop s.
Proof.
  intros Hr Hwp. destruct (reachable_invariant _ _ _ _ _ Hr) as [Hinv _].
  pose proof (invariant_step s Stop Hinv) as Hinv1.
  destruct Hwp as (Hp & tok & fid & f & Hq & Hcur & Hf & Htok & Hc & Hw).
  assert (Hs : step Stop s
    = mkSys (mkWorld (alter cancelled fid (frames (world s))) [] (nextTick (world s)) []
               (EvSettle fid (Frame.cycle f) (Rejected (VString "CANCEL"))
                  :: log (world s)))
        (set_anim s (defer (anim s)) (frameIndex (anim s)) false (finished (anim s)))).
  { rewrite step_Stop by apply (inv_jobs s Hinv).
    destruct (stop_playing s Hp) as [Ha Hwd]. rewrite Hcur in Hwd.
    rewrite (cancel_awaited_world _ tok fid _ f Hq Hf Htok Hw) in Hwd.
    unfold clear_jobs. by rewrite Ha, Hwd. }
  split_and!; try by rewrite Hs.
  intros n. apply ticks_nothing; [by rewrite Hs|apply (inv_jobs _ Hinv1)].
Qed.

Lemma stop_silences_witness :
  rafQueue (world (step Stop (run [Play; Tick] start_demo))) = []
  ∧ run (repeat Tick 5) (step Stop (run [Play; Tick] start_demo))
    = step Stop (run [Play; Tick] start_demo).
Proof.
  destruct (stop_silences (Some lib_demo) 50 (TFunction ease_demo) (FramesFunction f_demo)
              (run [Play; Tick] start_demo)) as (_ & _ & H3 & _ & H5).
  - apply reachable_run, reachable_start_demo.
  - split; [vm_compute; reflexivity|].
    exists 2%positive, 1,
      (Frame.mk f_demo (Some (mkDeferred None [RWalk])) (Some 2%positive) false []).
    split_and!; [vm_compute; reflexivity..|].
    exists (mkDeferred None [RWalk]). split_and!; reflexivity.
  - split; [exact H3|exact (H5 5)].
Defined.

(** X16. The rejection handler of the walk does nothing. When the frame the
    walk waits for is cancelled directly (not through [stop]), the
    animation stays flagged as playing with nothing scheduled: ticks change
    nothing, [play] changes nothing, and no handle is resolved; [stop]
    followed by [play] requests the same index again. *)
Theorem cancelled_frame_stalls_walk Bezier duration tf fr s fid :
  reachable Bezier duration tf fr s → walk_pending s →
  frameQueue (anim s) !! frameIndex (anim s) = Some fid →
  anim (step (UserCancel fid) s) = anim s
  ∧ rafQueue (world (step (UserCancel fid) s)) = []
  ∧ finishes (log (world (step (UserCancel fid) s))) = finishes (log (world s))
  ∧ (∀ n, run (repeat Tick n) (step (UserCancel fid) s) = step (UserCancel fid) s)
  ∧ step Play (step (UserCancel fid) s) = step (UserCancel fid) s
  ∧ walk_pending (run [Stop; Play] (step (UserCancel fid) s))
  ∧ frameIndex (anim (run [Stop; Play] (step (UserCancel fid) s))) = frameIndex (anim s).
Proof.
  intros Hr Hwp Hfid. destruct (reachable_invariant _ _ _ _ _ Hr) as [Hinv _].
  pose proof (invariant_step s (UserCancel fid) Hinv) as Hinv1.
  destruct Hwp as (Hp & tok & fid' & f & Hq & Hcur & Hf & Htok & Hc & Hw).
  rewrite Hfid in Hcur. injection Hcur as <-.
  set (s1 := step (UserCancel fid) s) in *.
  assert (Hs : s1
    = mkSys (mkWorld (alter cancelled fid (frames (world s))) [] (nextTick (world s)) []
               (EvSettle fid (Frame.cycle f) (Rejected (VString "CANCEL"))
                  :: log (world s)))
        (anim s)).
  { subst s1. unfold step, task.
    rewrite (cancel_awaited_world _ tok fid _ f Hq Hf Htok Hw).
    rewrite (drain_rejections _ [RWalk] (VString "CANCEL"))
      by (cbn [world microtasks]; by rewrite (inv_jobs s Hinv)).
    done. }
  assert (Hp1 : isPlaying (anim s1) = true) by by rewrite Hs.
  assert (Hq1 : rafQueue (world s1) = []) by by rewrite Hs.
  assert (Hf1 : frames (world s1) !! fid = Some (cancelled f)).
  { rewrite Hs. cbn [world frames]. by rewrite list_lookup_alter_eq, Hf. }
  pose proof (invariant_step s1 Stop Hinv1) as Hinv2.
  assert (Hs2 : anim (step Stop s1)
                = set_anim s (defer (anim s)) (frameIndex (anim s)) false (finished (anim s))
                ∧ rafQueue (world (step Stop s1)) = []
                ∧ is_Some (frames (world (step Stop s1)) !! fid)).
  { rewrite step_Stop by apply (inv_jobs _ Hinv1).
    destruct (stop_playing s1 Hp1) as [Ha Hwd]. cbn [clear_jobs anim world rafQueue frames].
    rewrite Ha, Hwd. unfold set_anim. replace (anim s1) with (anim s) by by rewrite Hs.
    rewrite Hfid. rewrite (Frame_cancel_world _ _ _ Hf1). cbn [rafQueue frames].
    split; [done|]. split.
    - rewrite Hq1. unfold cancel_queue. by destruct (Frame.tick (cancelled f)).
    - rewrite list_lookup_alter_eq, Hf1. by eexists. }
  destruct Hs2 as (Ha2 & Hq2 & [f2 Hf2]).
  destruct (play_starts (step Stop s1) fid f2 Hinv2) as (Hwp2 & Ha3 & _);
    [by rewrite Ha2|done|by rewrite Ha2|done|].
  split_and!.
  - by rewrite Hs.
  - done.
  - by rewrite Hs.
  - intros n. apply ticks_nothing; [done|apply (inv_jobs _ Hinv1)].
  - by apply step_Play_again.
  - exact Hwp2.
  - cbn [run foldl]. rewrite Ha3. cbn [set_anim frameIndex]. by rewrite Ha2.
Qed.

Lemma cancelled_frame_stalls_walk_witness :
  isPlaying (anim (step (UserCancel 1) (run [Play; Tick] start_demo))) = true
  ∧ run (repeat Tick 4) (step (UserCancel 1) (run [Play; Tick] start_demo))
    = step (UserCancel 1) (run [Play; Tick] start_demo).
Proof.
  destruct (cancelled_frame_stalls_walk (Some lib_demo) 50 (TFunction ease_demo)
              (FramesFunction f_demo) (run [Play; Tick] start_demo) 1)
    as (H1 & _ & _ & H4 & _).
  - apply reachable_run, reachable_start_demo.
  - split; [vm_compute; reflexivity|].
    exists 2%positive, 1,
      (Frame.mk f_demo (Some (mkDeferred None [RWalk])) (Some 2%positive) false []).
    split_and!; [vm_compute; reflexivity..|].
    exists (mkDeferred None [RWalk]). split_and!; reflexivity.
  - reflexivity.
  - split; [by rewrite H1|exact (H4 4)].
Defined.

(** ** The choice of the scheduler *)

Lemma first_defined_request has :
  match first_defined has RequestHost RequestTimeout with
  | RequestHost v => has v = true ∧ ∀ v', rank v' < rank v → has v' = false
  | RequestTimeout => ∀ v, has v = false
  end.
Proof.
  unfold first_defined.
  destruct (has Standard) eqn:H0; [|destruct (has Ms) eqn:H1;
    [|destruct (has Webkit) eqn:H2; [|destruct (has Moz) eqn:H3]]].
  1-4: (split; [done|]; intros []; simpl; intros; try done; lia).
  by intros [].
Qed.

Lemma first_defined_cancel has :
  match first_defined has CancelHost CancelTimeout with
  | CancelHost v => has v = true ∧ ∀ v', rank v' < rank v → has v' = false
  | CancelTimeout => ∀ v, has v = false
  end.
Proof.
  unfold first_defined.
  destruct (has Standard) eqn:H0; [|destruct (has Ms) eqn:H1;
    [|destruct (has Webkit) eqn:H2; [|destruct (has Moz) eqn:H3]]].
  1-4: (split; [done|]; intros []; simpl; intros; try done; lia).
  by intros [].
Qed.

(** X17. The scheduler is chosen as a pair. The timer fallback is used for
    requesting exactly when it is used for cancelling, and that is exactly
    when [window] has no request function at all or no cancel function at
    all; otherwise each of the two is the first one defined in the order
    standard, ms, webkit, moz, each looked up on its own. *)
Theorem scheduler_choice (window : Window) :
  ((choose_scheduler window).1 = RequestTimeout ↔ (choose_scheduler window).2 = CancelTimeout)
  ∧ ((choose_scheduler window).1 = RequestTimeout
     ↔ (∀ v, has_request window v = false) ∨ (∀ v, has_cancel window v = false))
  ∧ (∀ v, (choose_scheduler window).1 = RequestHost v →
       has_request window v = true
       ∧ ∀ v', rank v' < rank v → has_request window v' = false)
  ∧ (∀ v, (choose_scheduler window).2 = CancelHost v →
       has_cancel window v = true
       ∧ ∀ v', rank v' < rank v → has_cancel window v' = false).
Proof.
  pose proof (first_defined_request (has_request window)) as Hr.
  pose proof (first_defined_cancel (has_cancel window)) as Hc.
  unfold choose_scheduler.
  destruct (first_defined (has_request window) RequestHost RequestTimeout) as [vr|];
    destruct (first_defined (has_cancel window) CancelHost CancelTimeout) as [vc|];
    cbn [is_request_timeout is_cancel_timeout orb fst snd].
  - split_and!.
    + split; intros H; discriminate H.
    + split; [intros H; discriminate H|].
      intros [H|H]; [destruct Hr as [Hr _]|destruct Hc as [Hc _]]; congruence.
    + by intros v [= <-].
    + by intros v [= <-].
  - split_and!; [done| |intros v H; discriminate H|intros v H; discriminate H].
    split; [by right|done].
  - split_and!; [done| |intros v H; discriminate H|intros v H; discriminate H].
    split; [by left|done].
  - split_and!; [done| |intros v H; discriminate H|intros v H; discriminate H].
    split; [by left|done].
Qed.

(** ** The timer fallback *)

Lemma next_timer_elem l e : next_timer l = Some e → e ∈ l.
Proof.
  revert e. induction l as [|e0 l IH]; intros e; [done|]. simpl.
  destruct (next_timer l) as [e'|].
  - destruct (Qle_bool _ _); intros [= <-]; [by left|]. right. by apply IH.
  - intros [= <-]. by left.
Qed.

Lemma next_timer_sorted l :
  StronglySorted (λ e1 e2, (e1.2.1 <= e2.2.1)%Q) l → next_timer l = head l.
Proof.
  destruct 1 as [|e l Hs Hall]; [done|]. simpl.
  destruct (next_timer l) as [e'|] eqn:E; [|done].
  apply next_timer_elem in E. rewrite Forall_forall in Hall.
  specialize (Hall e' E). apply Qle_bool_iff in Hall. by rewrite Hall.
Qed.

Lemma filter_head_id (e : positive * (Q * (nat * list Val))) l :
  StronglySorted (λ e1 e2, (e1.1 < e2.1)%positive) (e :: l) →
  filter (λ e', e'.1 ≠ e.1) (e :: l) = l.
Proof.
  intros Hs. apply StronglySorted_inv in Hs as [_ Hall].
  rewrite filter_cons_False by tauto. apply filter_every.
  eapply Forall_impl; [exact Hall|]. intros e' Hlt. simpl in *. lia.
Qed.

Lemma fire_timer_head t e rest :
  punctual t → pending t = e :: rest →
  fire_timer t
  = Some (e.2.2, mkTimers (if Qle_bool (now t) e.2.1 then e.2.1 else now t) (nextId t) rest).
Proof.
  intros [Hd Hi _ _] Hp. unfold fire_timer. rewrite Hp in Hd, Hi |- *.
  rewrite next_timer_sorted by done. cbn [head].
  by rewrite (filter_head_id e rest Hi).
Qed.

Lemma scheduled_punctual t : scheduled t → punctual t.
Proof.
  induction 1 as [|cb t _ [Hd Hi Hf Ha]|tick t _ [Hd Hi Hf Ha]
                  |t cb t' _ IH Hfire|dt t Hdt _ [Hd Hi Hf Ha]].
  - split; simpl; try constructor; intros e Hin; by apply elem_of_nil in Hin.
  - split; cbn [setTimeoutFrame setTimeout snd pending now nextId].
    + apply StronglySorted_app_2; [|done|repeat constructor].
      intros e1 e2 H1 ->%list_elem_of_singleton. simpl. by apply Ha.
    + apply StronglySorted_app_2; [|done|repeat constructor].
      intros e1 e2 H1 ->%list_elem_of_singleton. simpl. by apply Hf.
    + intros e [Hin| ->%list_elem_of_singleton]%elem_of_app; simpl; [|lia].
      specialize (Hf e Hin). lia.
    + intros e [Hin| ->%list_elem_of_singleton]%elem_of_app; simpl; [by apply Ha|].
      apply Qle_refl.
  - split; cbn [clearTimeoutFrame clearTimeout pending now nextId].
    + by apply StronglySorted_filter.
    + by apply StronglySorted_filter.
    + intros e [_ Hin]%list_elem_of_filter. by apply Hf.
    + intros e [_ Hin]%list_elem_of_filter. by apply Ha.
  - destruct (pending t) as [|e rest] eqn:Hp.
    { unfold fire_timer in Hfire. by rewrite Hp in Hfire. }
    rewrite (fire_timer_head t e rest IH Hp) in Hfire. injection Hfire as _ <-.
    destruct IH as [Hd Hi Hf Ha]. rewrite Hp in Hd, Hi, Hf, Ha.
    split; cbn [pending now nextId].
    + by apply StronglySorted_inv in Hd as [? _].
    + by apply StronglySorted_inv in Hi as [? _].
    + intros e' Hin. apply Hf. by right.
    + intros e' Hin. assert (He' : (e'.2.1 <= now t + INTERVAL)%Q) by (apply Ha; by right).
      destruct (Qle_bool (now t) e.2.1) eqn:E; [|done].
      apply Qle_bool_iff in E. lra.
  - split; cbn [wait pending now nextId]; try done.
    intros e Hin. specialize (Ha e Hin). lra.
Qed.

Lemma queue_of_filter (tick : positive) (l : list (positive * (Q * (nat * list Val)))) :
  filter (λ e : positive * (nat * list Val), e.1 ≠ tick)
    ((λ e : positive * (Q * (nat * list Val)), (e.1, e.2.2)) <$> l)
  = (λ e, (e.1, e.2.2)) <$> filter (λ e, e.1 ≠ tick) l.
Proof.
  induction l as [|e l IH]; [done|]. cbn [fmap list_fmap].
  destruct (decide (e.1 ≠ tick)) as [Hne|Heq].
  - rewrite !filter_cons_True by done. cbn [fmap list_fmap]. by f_equal.
  - by rewrite !filter_cons_False.
Qed.

(** X18. With the timer fallback the scheduler is a first-in first-out
    queue. Every tick is set with the same delay, [INTERVAL], so pending
    timers come due in the order they were set: requesting appends to the
    queue, cancelling removes the tick of the token, and the timer the
    host runs next is the oldest one pending; no tick is due later than
    one interval from now. *)
Theorem fallback_is_fifo (t : Timers) :
  scheduled t →
  (∀ cb w,
     requestAnimationFrame cb (with_timers t w)
     = ((setTimeoutFrame cb t).1, with_timers (setTimeoutFrame cb t).2 w))
  ∧ (∀ tick w,
       cancelAnimationFrame tick (with_timers t w)
       = with_timers (clearTimeoutFrame tick t) w)
  ∧ (fire_timer t = None ↔ pending t = [])
  ∧ (∀ cb t', fire_timer t = Some (cb, t') →
       (∃ tok, queue_of t = (tok, cb) :: queue_of t')
       ∧ (now t <= now t')%Q
       ∧ ∀ w, run_tick (with_timers t w) = tick_callback cb.1 cb.2 (with_timers t' w))
  ∧ (∀ e, e ∈ pending t → (e.2.1 <= now t + INTERVAL)%Q).
Proof.
  intros Hs. pose proof (scheduled_punctual t Hs) as Hp.
  split_and!.
  - intros cb w. unfold requestAnimationFrame, with_timers, setTimeoutFrame, setTimeout,
      queue_of. cbn [frames rafQueue nextTick microtasks log fst snd pending nextId].
    by rewrite fmap_app.
  - intros tick w. unfold cancelAnimationFrame, with_timers, clearTimeoutFrame, clearTimeout,
      queue_of. cbn [frames rafQueue nextTick microtasks log pending nextId].
    by rewrite queue_of_filter.
  - destruct (pending t) as [|e rest] eqn:E.
    + unfold fire_timer. by rewrite E.
    + rewrite (fire_timer_head t e rest Hp E). split; intros H; discriminate H.
  - intros cb t' Hfire. destruct (pending t) as [|e rest] eqn:E.
    { unfold fire_timer in Hfire. by rewrite E in Hfire. }
    rewrite (fire_timer_head t e rest Hp E) in Hfire. injection Hfire as <- <-.
    split_and!.
    + exists e.1. unfold queue_of. by rewrite E.
    + cbn [now]. destruct (Qle_bool (now t) e.2.1) eqn:Ele; [|apply Qle_refl].
      by apply Qle_bool_iff in Ele.
    + intros w. unfold run_tick, with_timers, queue_of.
      cbn [rafQueue frames nextTick microtasks log pending nextId]. rewrite E.
      cbn [fmap list_fmap]. by destruct e as [tok [due [fid args]]].
  - apply (pu_ahead t Hp).
Qed.

Lemma fallback_is_fifo_witness :
  ∃ tok,
    queue_of (setTimeoutFrame (1, []) (wait 5 (setTimeoutFrame (0, []) no_timers).2)).2
    = (tok, (0, []))
        :: queue_of (mkTimers (0 + INTERVAL)%Q 3%positive
                       [(2%positive, ((0 + 5 + INTERVAL)%Q, (1, [])))]).
Proof.
  destruct (fallback_is_fifo
              (setTimeoutFrame (1, []) (wait 5 (setTimeoutFrame (0, []) no_timers).2)).2)
    as (_ & _ & _ & H & _).
  - apply scheduled_set, scheduled_wait; [discriminate|]. apply scheduled_set, scheduled_none.
  - destruct (H (0, []) (mkTimers (0 + INTERVAL)%Q 3%positive
                           [(2%positive, ((0 + 5 + INTERVAL)%Q, (1, [])))]))
      as [Hq _]; [reflexivity|exact Hq].
Defined.

(** ** One frame at a time *)

(** X21. The walk waits for at most one frame at a time. In every reachable
    state a frame whose pending future carries the continuation of the
    walk is the frame at the current index, the animation is playing, and
    the latest request of the driver was for it; so no two frames are
    awaited at once, and none while the animation is stopped. *)
Theorem one_frame_at_a_time Bezier duration tf fr s :
  reachable Bezier duration tf fr s →
  (∀ fid1 fid2 f1 f2,
     frames (world s) !! fid1 = Some f1 → frames (world s) !! fid2 = Some f2 →
     walking f1 → walking f2 → fid1 = fid2)
  ∧ (∀ fid f,
       frames (world s) !! fid = Some f → walking f →
       isPlaying (anim s) = true
       ∧ frameQueue (anim s) !! frameIndex (anim s) = Some fid
       ∧ ∃ gen, head (requests (log (world s))) = Some (frameIndex (anim s), fid, gen))
  ∧ (isPlaying (anim s) = false →
       ∀ fid f, frames (world s) !! fid = Some f → ¬ walking f).
Proof.
  intros Hr. destruct (reachable_invariant _ _ _ _ _ Hr) as [Hinv _].
  split_and!.
  - intros fid1 fid2 f1 f2 H1 H2 Hw1 Hw2.
    destruct (inv_walk s Hinv fid1 f1 H1 Hw1) as (_ & Hq1 & _).
    destruct (inv_walk s Hinv fid2 f2 H2 Hw2) as (_ & Hq2 & _).
    congruence.
  - intros fid f Hf Hw. destruct (inv_walk s Hinv fid f Hf Hw) as (Hp & Hq & Hh). eauto.
  - intros Hp. by apply invariant_idle_calm.
Qed.

Lemma one_frame_at_a_time_witness :
  isPlaying (anim (run [Play; Tick] start_demo)) = true
  ∧ frameQueue (anim (run [Play; Tick] start_demo))
      !! frameIndex (anim (run [Play; Tick] start_demo)) = Some 1.
Proof.
  destruct (one_frame_at_a_time (Some lib_demo) 50 (TFunction ease_demo)
              (FramesFunction f_demo) (run [Play; Tick] start_demo)) as (_ & H & _).
  - apply reachable_run, reachable_start_demo.
  - destruct (H 1 (Frame.mk f_demo (Some (mkDeferred None [RWalk])) (Some 2%positive)
                     false [])) as (Hp & Hq & _).
    + reflexivity.
    + exists (mkDeferred None [RWalk]). split_and!; reflexivity.
    + split; [exact Hp|exact Hq].
Defined.

(** ** What the constructor accepts *)

(** X22. The constructor validates the timing function and nothing else,
    and the only timing functions it accepts are functions: a function is
    accepted whatever the duration and the frames are, and anything else
    is rejected, by the error 'unexcept timing function' or, for a string
    or an array of four elements when the easing library is missing, by a
    TypeError. *)
Theorem constructor_accepts_functions_only Bezier (duration : Q) (tf : TimingArg)
    (fr : FramesArg) (w : World) :
  (∀ f, getBezier Bezier tf = Normal (Some f) ↔ tf = TFunction f)
  ∧ (∀ a, (animation Bezier duration tf fr w).2 = Normal a ↔
          ∃ f, tf = TFunction f
               ∧ a = mkAnimation None (getFrameQueue duration fr w).1
                       (1 / (duration / INTERVAL)) 0 (TFunction f) f false [])
  ∧ (∀ e, (animation Bezier duration tf fr w).2 = Throw e →
          e = Error "unexcept timing function"
          ∨ (e = TypeError ∧ Bezier = None
             ∧ ((∃ name, tf = TString name)
                ∨ ∃ points, tf = TArray points ∧ length points = 4))).
Proof.
  unfold animation. destruct (getFrameQueue duration fr w) as [q w1]. cbn [fst].
  split_and!.
  - intros f. split.
    + destruct tf as [name|points|f0|]; cbn [getBezier].
      * destruct Bezier; intros H; discriminate H.
      * destruct Bezier; [intros H; discriminate H|].
        destruct (decide _); intros H; discriminate H.
      * by intros [= ->].
      * intros H; discriminate H.
    + by intros ->.
  - intros a. split.
    + destruct tf as [name|points|f0|]; cbn [getBezier].
      * destruct Bezier; intros H; discriminate H.
      * destruct Bezier; [intros H; discriminate H|].
        destruct (decide _); intros H; discriminate H.
      * cbn [snd]. intros [= <-]. by exists f0.
      * intros H; discriminate H.
    + by intros (f & -> & ->).
  - intros e. destruct tf as [name|points|f0|]; cbn [getBezier].
    + destruct Bezier; cbn [snd]; intros [= <-]; [by left|].
      right. split_and!; [done|done|]. left. by exists name.
    + destruct Bezier; cbn [snd]; [intros [= <-]; by left|].
      destruct (decide (length points = 4)) as [Hl|Hl]; cbn [snd]; intros [= <-]; [|by left].
      right. split_and!; [done|done|]. right. by exists points.
    + intros H; discriminate H.
    + cbn [snd]. intros [= <-]. by left.
Qed.

(** ** Reading a numeral back *)

Lemma string_app_cons (x : Ascii.ascii) (a b : string) :
  String x a +:+ b = String x (a +:+ b).
Proof. reflexivity. Qed.

Lemma string_app_nil (b : string) : EmptyString +:+ b = b.
Proof. reflexivity. Qed.

Lemma string_app_assoc (a b c : string) : (a +:+ b) +:+ c = a +:+ (b +:+ c).
Proof. induction a as [|x a IH]; [done|]. rewrite !string_app_cons. by f_equal. Qed.

Lemma string_app_empty (a : string) : a +:+ EmptyString = a.
Proof. induction a as [|x a IH]; [done|]. rewrite string_app_cons. by f_equal. Qed.

Lemma string_length_app (a b : string) :
  String.length (a +:+ b) = String.length a + String.length b.
Proof.
  induction a as [|x a IH]; [done|]. rewrite string_app_cons. cbn [String.length].
  by rewrite IH.
Qed.

Lemma digit_char (d : N) :
  digit_value (pretty_N_char d) = Some (if decide (d < 10)%N then d else 9%N)
  ∧ String (pretty_N_char d) EmptyString ≠ "."
  ∧ String (pretty_N_char d) EmptyString ≠ "-".
Proof.
  destruct d as [|p]; [done|].
  do 4 (try destruct p as [p|p|]); done.
Qed.

Lemma digit_value_char (d : N) : (d < 10)%N → digit_value (pretty_N_char d) = Some d.
Proof.
  intros H. destruct (digit_char d) as [-> _]. by rewrite decide_True.
Qed.

Lemma digits_of_length (k : nat) (x : N) : String.length (digits_of k x) = k.
Proof.
  revert x. induction k as [|k IH]; intros x; [done|].
  cbn [digits_of]. rewrite string_length_app, IH. simpl. lia.
Qed.

Lemma digits_of_snoc (k : nat) (x : N) (s : string) :
  digits_of (S k) x +:+ s
  = digits_of k (x / 10)%N +:+ String (pretty_N_char (x mod 10)%N) s.
Proof. cbn [digits_of]. by rewrite string_app_assoc. Qed.

Lemma pow10_S (k : nat) : (10 ^ N.of_nat (S k) = 10 * 10 ^ N.of_nat k)%N.
Proof. rewrite Nat2N.inj_succ, N.pow_succ_r'; lia. Qed.

Lemma div10_lt (k : nat) (x : N) : (x < 10 ^ N.of_nat (S k))%N → (x / 10 < 10 ^ N.of_nat k)%N.
Proof. rewrite pow10_S. intros H. apply N.Div0.div_lt_upper_bound. lia. Qed.

Lemma digits_value_digits (k : nat) (x : N) (s : string) (acc : N) :
  (x < 10 ^ N.of_nat k)%N →
  digits_value acc (digits_of k x +:+ s) = digits_value (acc * 10 ^ N.of_nat k + x) s.
Proof.
  revert x s acc. induction k as [|k IH]; intros x s acc Hx.
  { cbn [digits_of]. rewrite string_app_nil. f_equal. simpl in Hx. lia. }
  rewrite digits_of_snoc, IH by by apply div10_lt.
  cbn [digits_value]. rewrite digit_value_char by by apply N.mod_lt.
  f_equal. rewrite pow10_S. pose proof (N.div_mod x 10). lia.
Qed.

Lemma split_dot_digits (k : nat) (x : N) (s : string) :
  split_dot (digits_of k x +:+ s)
  = (digits_of k x +:+ (split_dot s).1, (split_dot s).2).
Proof.
  revert x s. induction k as [|k IH]; intros x s.
  { cbn [digits_of]. rewrite !string_app_nil. by destruct (split_dot s). }
  rewrite digits_of_snoc, IH. cbn [split_dot].
  destruct (digit_char (x mod 10)) as (_ & Hdot & _).
  rewrite decide_False by done. cbn [fst snd]. by rewrite digits_of_snoc.
Qed.

Lemma zeros_snoc (j : nat) : zeros j +:+ "0" = zeros (S j).
Proof.
  induction j as [|j IH]; [done|].
  change (zeros (S j)) with ("0" +:+ zeros j) at 1. rewrite string_app_assoc, IH. done.
Qed.

Lemma digits_of_zero (j : nat) : digits_of j 0 = zeros j.
Proof.
  induction j as [|j IH]; [done|]. cbn [digits_of].
  change (0 / 10)%N with 0%N. change (0 mod 10)%N with 0%N. rewrite IH.
  apply zeros_snoc.
Qed.

Lemma digits_of_pad (j k : nat) (x : N) :
  (x < 10 ^ N.of_nat k)%N → digits_of (j + k) x = zeros j +:+ digits_of k x.
Proof.
  revert x. induction k as [|k IH]; intros x Hx.
  { simpl in Hx. assert (x = 0%N) as -> by lia.
    rewrite Nat.add_0_r, digits_of_zero. cbn [digits_of]. by rewrite string_app_empty. }
  replace (j + S k) with (S (j + k)) by lia. cbn [digits_of].
  rewrite IH by by apply div10_lt. by rewrite string_app_assoc.
Qed.

(** What [pretty] prints for a number with [k] digits. *)
Lemma pretty_go_digits (x : N) :
  ∃ k, (x < 10 ^ N.of_nat k)%N
       ∧ (x = 0%N → k = 0)
       ∧ ((0 < x)%N → 0 < k ∧ (10 ^ N.of_nat (k - 1) ≤ x)%N)
       ∧ ∀ s, pretty_N_go x s = digits_of k x +:+ s.
Proof.
  induction x as [x IH] using (well_founded_induction N.lt_wf_0).
  destruct (decide (x = 0%N)) as [->|Hne].
  { exists 0. split_and!; try done; try lia. }
  assert (Hpos : (0 < x)%N) by lia.
  destruct (IH (x / 10)%N) as (k & Hlt & Hz & Hnz & Hgo).
  { apply N.div_lt; lia. }
  exists (S k). split_and!.
  - rewrite pow10_S. pose proof (N.div_mod x 10). pose proof (N.mod_lt x 10). lia.
  - lia.
  - intros _. split; [lia|]. replace (S k - 1) with k by lia.
    destruct (decide (x / 10 = 0)%N) as [E|E].
    + rewrite (Hz E). change (N.of_nat 0) with 0%N. rewrite N.pow_0_r. lia.
    + destruct Hnz as [Hk Hle]; [by apply N.neq_0_lt_0|].
      replace k with (S (k - 1)) by lia. rewrite pow10_S.
      pose proof (N.div_mod x 10 ltac:(done)) as Hdm.
      revert Hle Hdm. generalize (10 ^ N.of_nat (k - 1))%N (x / 10)%N (x mod 10)%N.
      intros p d m Hle Hdm. lia.
  - intros s. rewrite pretty_N_go_step by done. rewrite Hgo. by rewrite digits_of_snoc.
Qed.

Lemma pretty_digits (n : N) :
  ∃ k, 0 < k ∧ (n < 10 ^ N.of_nat k)%N
       ∧ ((n < 10 ^ 10)%N → k ≤ 10)
       ∧ pretty n = digits_of k n.
Proof.
  unfold pretty, pretty_N. destruct (decide (n = 0%N)) as [->|Hne].
  { exists 1. split_and!; try done; lia. }
  destruct (pretty_go_digits n) as (k & Hlt & _ & Hnz & Hgo).
  destruct Hnz as [Hk Hle]; [lia|].
  exists k. split_and!; try done.
  - intros Hn. assert (H : (10 ^ N.of_nat (k - 1) < 10 ^ 10)%N) by lia.
    apply N.pow_lt_mono_r_iff in H; lia.
  - by rewrite Hgo, string_app_empty.
Qed.

Lemma digits_head (k : nat) (x : N) (s : string) :
  0 < k →
  ∃ c rest, digits_of k x +:+ s = String c rest
            ∧ String c EmptyString ≠ "-"
            ∧ digits_of k x ≠ EmptyString.
Proof.
  revert x s. induction k as [|k IH]; intros x s Hk; [lia|].
  destruct (digit_char (x mod 10)) as (_ & _ & Hdash).
  destruct k as [|k].
  - exists (pretty_N_char (x mod 10)), s. split_and!; done.
  - rewrite digits_of_snoc.
    destruct (IH (x / 10)%N (String (pretty_N_char (x mod 10)) s)) as (c & rest & -> & Hc & _);
      [lia|].
    exists c, rest. split_and!; try done.
    intros E. pose proof (digits_of_length (S (S k)) x) as Hl. by rewrite E in Hl.
Qed.

Lemma unsigned_value_digits (ki : nat) (i f : N) :
  0 < ki → (i < 10 ^ N.of_nat ki)%N → (f < 10 ^ N.of_nat 10)%N →
  unsigned_value (digits_of ki i +:+ "." +:+ digits_of 10 f)
  = Some (inject_Z (Z.of_N i) + inject_Z (Z.of_N f) / inject_Z (10 ^ Z.of_nat 10))%Q.
Proof.
  intros Hk Hi Hf. unfold unsigned_value.
  rewrite split_dot_digits.
  change (split_dot ("." +:+ digits_of 10 f)) with (EmptyString, Some (digits_of 10 f)).
  cbn [fst snd]. rewrite string_app_empty.
  destruct (digits_head ki i EmptyString Hk) as (_ & _ & _ & _ & Hne).
  rewrite decide_False by done.
  rewrite <- (string_app_empty (digits_of ki i)) at 1.
  rewrite digits_value_digits by done. cbn [digits_value].
  rewrite <- (string_app_empty (digits_of 10 f)) at 1.
  rewrite digits_value_digits by done. cbn [digits_value].
  rewrite digits_of_length. do 4 f_equal; lia.
Qed.

(** The parts of [toFixed10 x]: the sign, the digits of the integer part, a
    point, ten digits. *)
Lemma toFixed10_shape (x : Q) :
  ∃ ki, 0 < ki
    ∧ (fixed_units x / 10 ^ 10 < 10 ^ N.of_nat ki)%N
    ∧ toFixed10 x
      = (if Qlt_le_dec x 0 then "-" else EmptyString)
          +:+ digits_of ki (fixed_units x / 10 ^ 10)%N
          +:+ "." +:+ digits_of 10 (fixed_units x mod 10 ^ 10)%N.
Proof.
  unfold toFixed10. cbv zeta. set (n := fixed_units x).
  destruct (pretty_digits (n / 10 ^ 10)%N) as (ki & Hki & Hi & _ & ->).
  assert (Hf : (n mod 10 ^ 10 < 10 ^ 10)%N) by by apply N.mod_lt.
  destruct (pretty_digits (n mod 10 ^ 10)%N) as (kf & Hkf & Hf' & Hle & ->).
  specialize (Hle Hf).
  exists ki. split; [done|]. split; [done|].
  unfold pad10. rewrite digits_of_length.
  rewrite <- (digits_of_pad (10 - kf) kf) by done.
  by replace (10 - kf + kf) with 10 by lia.
Qed.

Lemma fixed_units_floor (x : Q) :
  Z.of_N (fixed_units x) = Qfloor (Qabs x * inject_Z (10 ^ 10) + (1 # 2)).
Proof.
  unfold fixed_units. apply Z2N.id.
  rewrite <- (Qfloor_Z 0). apply Qfloor_resp_le.
  assert (H : (0 <= Qabs x * inject_Z (10 ^ 10))%Q).
  { apply Qmult_le_0_compat; [apply Qabs_nonneg|done]. }
  change (inject_Z 0) with 0%Q. revert H. generalize (Qabs x * inject_Z (10 ^ 10))%Q.
  intros y Hy. lra.
Qed.

(** The value read back from [toFixed10 x]: the rounded number of units
    of [10^-10], with the sign of [x]. *)
Lemma toFixed10_value (x : Q) :
  ∃ q, ToNumber (toFixed10 x) = Some q
       ∧ (q == (if Qlt_le_dec x 0 then -1 else 1)
               * (inject_Z (Z.of_N (fixed_units x)) / inject_Z (10 ^ 10)))%Q.
Proof.
  destruct (toFixed10_shape x) as (ki & Hki & Hi & ->).
  set (n := fixed_units x) in *.
  assert (Hf : (n mod 10 ^ 10 < 10 ^ N.of_nat 10)%N) by by apply N.mod_lt.
  pose proof (unsigned_value_digits ki _ _ Hki Hi Hf) as Hu.
  assert (Hval : (inject_Z (Z.of_N (n / 10 ^ 10))
                  + inject_Z (Z.of_N (n mod 10 ^ 10)) / inject_Z (10 ^ Z.of_nat 10)
                  == inject_Z (Z.of_N n) / inject_Z (10 ^ 10))%Q).
  { rewrite (N.div_mod n (10 ^ 10)) at 3 by done.
    rewrite N2Z.inj_add, N2Z.inj_mul, inject_Z_plus, inject_Z_mult.
    change (Z.of_N (10 ^ 10)) with (10 ^ 10)%Z. change (Z.of_nat 10) with 10%Z.
    field. done. }
  destruct (Qlt_le_dec x 0) as [Hneg|Hpos].
  - eexists. split.
    + rewrite string_app_cons, string_app_nil. unfold ToNumber.
      rewrite decide_True by done. rewrite Hu. reflexivity.
    + rewrite Hval. ring.
  - rewrite string_app_nil.
    destruct (digits_head ki (n / 10 ^ 10)%N ("." +:+ digits_of 10 (n mod 10 ^ 10)%N) Hki)
      as (c & rest & E & Hc & _).
    eexists. split.
    + unfold ToNumber. rewrite E. rewrite decide_False by done. rewrite <- E. exact Hu.
    + rewrite Hval. ring.
Qed.

Lemma floor_bounds (y : Q) :
  (inject_Z (Qfloor y) <= y)%Q ∧ (y < inject_Z (Qfloor y) + 1)%Q.
Proof.
  split; [apply Qfloor_le|]. pose proof (Qlt_floor y) as H.
  by rewrite inject_Z_plus in H.
Qed.


Lemma toFixed10_natural (n : nat) :
  ∃ q, ToNumber (toFixed10 (inject_Z (Z.of_nat n))) = Some q
       ∧ (q == inject_Z (Z.of_nat n))%Q.
Proof.
  destruct (toFixed10_value (inject_Z (Z.of_nat n))) as (q & Hq & Hv).
  exists q. split; [done|]. rewrite Hv. clear Hq Hv.
  assert (Hpos : (0 <= inject_Z (Z.of_nat n))%Q).
  { change 0%Q with (inject_Z 0). rewrite <- Zle_Qle. lia. }
  destruct (Qlt_le_dec (inject_Z (Z.of_nat n)) 0) as [Hneg|_]; [lra|].
  rewrite fixed_units_floor.
  assert (Ha : (Qabs (inject_Z (Z.of_nat n)) == inject_Z (Z.of_nat n))%Q) by by apply Qabs_pos.
  assert (Hy : (Qabs (inject_Z (Z.of_nat n)) * inject_Z (10 ^ 10) + (1 # 2)
                == inject_Z (Z.of_nat n * 10 ^ 10) + (1 # 2))%Q).
  { by rewrite Ha, inject_Z_mult. }
  rewrite (Qfloor_comp _ _ Hy).
  destruct (floor_bounds (inject_Z (Z.of_nat n * 10 ^ 10) + (1 # 2))) as [Hlo Hhi].
  assert (Hm : Qfloor (inject_Z (Z.of_nat n * 10 ^ 10) + (1 # 2)) = (Z.of_nat n * 10 ^ 10)%Z).
  { set (m := Qfloor _) in *. set (K := (Z.of_nat n * 10 ^ 10)%Z) in *.
    assert (H1 : (inject_Z m < inject_Z (K + 1))%Q).
    { rewrite inject_Z_plus. change (inject_Z 1) with 1%Q.
      revert Hlo Hhi. generalize (inject_Z m) (inject_Z K). intros a b ??. lra. }
    assert (H2 : (inject_Z K < inject_Z (m + 1))%Q).
    { rewrite inject_Z_plus. change (inject_Z 1) with 1%Q.
      revert Hlo Hhi. generalize (inject_Z m) (inject_Z K). intros a b ??. lra. }
    rewrite <- Zlt_Qlt in H1, H2. lia. }
  rewrite Hm, inject_Z_mult. field. done.
Qed.



(** X20. The index takes no harm from its detour through [toFixed(10)]:
    the numeral of [frameIndex + 1] is read back as that number, so the
    product [framePercent * (frameIndex + 1).toFixed(10)] that [request]
    writes is [framePercent * (frameIndex + 1)]. *)
Theorem percent_written_exact (a : Animation) :
  ∃ p, percent_written a = Some p ∧ (p == percent_at a (frameIndex a))%Q.
Proof.
  destruct (toFixed10_natural (frameIndex a + 1)) as (q & Hq & Hv).
  exists (framePercent a * q)%Q. unfold percent_written, percent_at.
  rewrite Hq. split; [done|]. by rewrite Hv.
Qed.
